(** * GitHub Material Icons userscript: icon resolution, upstream record
      extraction and DOM reconciliation

    A shallow embedding of [scripts/fetch-icons.js]: the resolution functions
    [getFileIcon] and [getFolderIcon] of the generated userscript, the record
    extraction of [parseTypeScriptConfigs], and the reconciliation engine
    ([replaceIconForItem], [replaceIconForTreeItem], [replaceIcons] and the
    mutation-observer handler) over a model of the DOM. *)

From Stdlib Require Import Ascii.
From stdpp Require Import gmap strings list.

(** ** JavaScript values and property reads *)

Module Js.

(** The values the resolution functions can see: property reads on the
    mapping tables give a string (an own entry), [undefined], or a member
    inherited from [Object.prototype] (the tables are plain object literals);
    [x || null] adds [null]. *)
Inductive value :=
| Undefined
| Null
| Str (s : string)
| Inherited (k : string).

#[global] Instance value_eq_dec : EqDecision value.
Proof. solve_decision. Defined.

(** Property names every plain object inherits from [Object.prototype]. *)
Definition objectPrototypeKeys : list string :=
  [ "constructor"; "hasOwnProperty"; "isPrototypeOf"; "propertyIsEnumerable";
    "toLocaleString"; "toString"; "valueOf"; "__proto__";
    "__defineGetter__"; "__defineSetter__"; "__lookupGetter__";
    "__lookupSetter__" ].

(** JavaScript truthiness on these values: the empty string, [undefined] and
    [null] are falsy; functions and objects are truthy. *)
Definition truthy (v : value) : bool :=
  match v with
  | Str s => negb (bool_decide (s = ""))
  | Inherited _ => true
  | Undefined | Null => false
  end.

(** [o[k]] on a table whose own properties are the entries of [o]. *)
Definition get (o : gmap string string) (k : string) : value :=
  match o !! k with
  | Some s => Str s
  | None => if bool_decide (k ∈ objectPrototypeKeys) then Inherited k
            else Undefined
  end.

(** [x || null] for an optional string property [x]. *)
Definition orNull (x : option string) : value :=
  match x with
  | Some s => if truthy (Str s) then Str s else Null
  | None => Null
  end.

(** [s.split('.')]: always at least one segment. *)
Fixpoint split (sep : ascii) (s : string) : list string :=
  match s with
  | EmptyString => [EmptyString]
  | String c s' =>
      if bool_decide (c = sep) then EmptyString :: split sep s'
      else match split sep s' with
           | [] => [String c EmptyString]
           | p :: ps => String c p :: ps
           end
  end.

(** [parts.join('.')]. *)
Fixpoint join (sep : string) (parts : list string) : string :=
  match parts with
  | [] => ""
  | [p] => p
  | p :: ps => p +:+ sep +:+ join sep ps
  end.

(** [s.startsWith('.')]. *)
Definition startsWith (c : ascii) (s : string) : bool :=
  match s with
  | String c' _ => bool_decide (c' = c)
  | EmptyString => false
  end.

(** [s.substring(1)]. *)
Definition substring1 (s : string) : string :=
  match s with
  | String _ s' => s'
  | EmptyString => EmptyString
  end.

End Js.

(** ** Icon resolution ([getFileIcon], [getFolderIcon]) *)

Module Resolution.
Import Js.

(** [ICON_MAPPINGS]: the table serialised into the userscript. The defaults
    are present only when the corresponding icon file exists at build time;
    the symlink icon is always set. *)
Record IconMappings := {
  extensions : gmap string string;
  filenames : gmap string string;
  folders : gmap string string;
  defaultFile : option string;
  defaultFolder : option string;
  symlink : string
}.

Inductive kind := File | Folder | Symlink.

Section WithLowerCase.

(** [String.prototype.toLowerCase] of the host. Nothing below depends on what
    it computes. *)
Variable toLowerCase : string → string.
Variable ICON_MAPPINGS : IconMappings.

(** [if (T[k]) return T[k]]: the entry when it is truthy. *)
Definition lookup (T : gmap string string) (k : string) : option value :=
  if truthy (get T k) then Some (get T k) else None.

Definition getFileIcon (filename : string) : value :=
  (* Check for exact filename match first *)
  match lookup (filenames ICON_MAPPINGS) filename with
  | Some v => v
  | None =>
    let parts := split "." filename in
    (* Handle compound extensions *)
    let compound :=
      if bool_decide (2 < length parts) then
        let withoutLastExt := join "." (removelast parts) in
        match lookup (filenames ICON_MAPPINGS) withoutLastExt with
        | Some v => Some v
        | None =>
          let secondExt := toLowerCase (nth (length parts - 2) parts "") in
          lookup (extensions ICON_MAPPINGS) secondExt
        end
      else None in
    match compound with
    | Some v => v
    | None =>
      (* Check for simple extension match *)
      let simple :=
        if bool_decide (1 < length parts) then
          let ext := toLowerCase (nth (length parts - 1) parts "") in
          lookup (extensions ICON_MAPPINGS) ext
        else None in
      match simple with
      | Some v => v
      | None => orNull (defaultFile ICON_MAPPINGS)
      end
    end
  end.

Definition getFolderIcon (foldername : string) : value :=
  (* Try exact match first *)
  match lookup (folders ICON_MAPPINGS) foldername with
  | Some v => v
  | None =>
    (* Try without leading dot *)
    let stripped :=
      if startsWith "." foldername then
        let withoutDot := substring1 foldername in
        lookup (folders ICON_MAPPINGS) withoutDot
      else None in
    match stripped with
    | Some v => v
    | None => orNull (defaultFolder ICON_MAPPINGS)
    end
  end.

(** The icon choice both scanners make once an item is classified. *)
Definition resolve (k : kind) (name : string) : value :=
  match k with
  | Symlink => Str (symlink ICON_MAPPINGS)
  | Folder => getFolderIcon name
  | File => getFileIcon name
  end.

End WithLowerCase.

(** ASCII lower-casing, used to run the functions on concrete names. *)
Definition asciiLower (c : ascii) : ascii :=
  let n := nat_of_ascii c in
  if bool_decide (65 ≤ n ≤ 90) then ascii_of_nat (n + 32) else c.

Fixpoint asciiToLowerCase (s : string) : string :=
  match s with
  | EmptyString => EmptyString
  | String c s' => String (asciiLower c) (asciiToLowerCase s')
  end.

End Resolution.

(** ** Record extraction from the TypeScript upstream format
       ([parseTypeScriptConfigs]) *)

Module Parser.

(** [s.substring(i)] for [i] within the string, as the suffix a loop that
    starts at index [i] walks over. *)
Fixpoint dropString (n : nat) (s : string) : string :=
  match n, s with
  | 0, _ => s
  | S n', String _ s' => dropString n' s'
  | S _, EmptyString => EmptyString
  end.

Fixpoint takeString (n : nat) (s : string) : string :=
  match n, s with
  | 0, _ => EmptyString
  | S n', String c s' => String c (takeString n' s')
  | S _, EmptyString => EmptyString
  end.

(** [s.substring(a, b)]: the characters from [min a b] up to, not including,
    [max a b]. *)
Definition substring (a b : nat) (s : string) : string :=
  takeString (Nat.max a b - Nat.min a b) (dropString (Nat.min a b) s).

(** The brace-counting loop of the file-icon branch, from index [i] on
    ([rest] is the content from [i]): the final [blockEnd] and
    [braceCount]. *)
Fixpoint countBraces (rest : string) (i : nat) (braceCount : Z)
    (inBlock : bool) (blockEnd : nat) : nat * Z :=
  match rest with
  | EmptyString => (blockEnd, braceCount)
  | String c rest' =>
      if bool_decide (c = "{"%char) then
        countBraces rest' (S i) (braceCount + 1)%Z true blockEnd
      else if bool_decide (c = "}"%char) then
        let braceCount := (braceCount - 1)%Z in
        if inBlock && bool_decide (braceCount = 0%Z) then (i, braceCount)
        else countBraces rest' (S i) braceCount inBlock blockEnd
      else countBraces rest' (S i) braceCount inBlock blockEnd
  end.

(** The block of the file-icon record that starts at [blockStart]
    ([match.index]); [None] when the record is skipped with a warning. *)
Definition fileIconBlock (fileIconsContent : string) (blockStart : nat)
  : option string :=
  let '(blockEnd, braceCount) :=
    countBraces (dropString blockStart fileIconsContent) blockStart 0%Z
                false blockStart in
  if bool_decide (blockEnd = blockStart) || negb (bool_decide (braceCount = 0%Z))
  then None
  else Some (substring blockStart (blockEnd + 1) fileIconsContent).

(** [s.indexOf(c, from)]; [None] stands for [-1]. *)
Fixpoint indexOfFrom (c : ascii) (rest : string) (i : nat) : option nat :=
  match rest with
  | EmptyString => None
  | String c' rest' =>
      if bool_decide (c' = c) then Some i else indexOfFrom c rest' (S i)
  end.

Definition indexOf (c : ascii) (s : string) (from : nat) : option nat :=
  indexOfFrom c (dropString from s) from.

(** The block of the folder-icon record that starts at [blockStart]. *)
Definition folderIconBlock (folderIconsContent : string) (blockStart : nat)
  : option string :=
  match indexOf "}" folderIconsContent blockStart with
  | None => None
  | Some blockEnd =>
      if bool_decide (blockEnd ≤ blockStart) then None
      else Some (substring blockStart blockEnd folderIconsContent)
  end.

End Parser.

(** ** The DOM *)

Module Dom.

(** What selectors and [classList] see of an element. *)
Record element := Element {
  tagName : string;
  classList : list string;
  attributes : list (string * string)
}.

Inductive nodeData :=
| ElementData (e : element) (style : list (string * string))
| TextData (data : string).

(** A node carries its identity and the chain of its ancestors, nearest
    first (empty for the root of a tree). *)
Record node := Node {
  nodeId : nat;
  data : nodeData;
  ancestors : list nat
}.

(** The DOM is the sequence of its nodes in document order: the document
    tree first, then the trees that are detached from it. Node references
    held by the script are node identities. *)
Definition dom := list node.

(** Trees, to write a DOM down; [flatten] lists a tree in document order. *)
#[local] Unset Elimination Schemes.
Inductive tree :=
| Elem (id : nat) (e : element) (style : list (string * string))
       (children : list tree)
| Text (id : nat) (s : string).
#[local] Set Elimination Schemes.

Fixpoint flatten (anc : list nat) (t : tree) : dom :=
  match t with
  | Text id s => [Node id (TextData s) anc]
  | Elem id e st children =>
      Node id (ElementData e st) anc ::
      (fix go (ts : list tree) : dom :=
         match ts with
         | [] => []
         | t' :: ts' => flatten (id :: anc) t' ++ go ts'
         end) children
  end.

Definition flattenAll (ts : list tree) : dom :=
  flat_map (flatten []) ts.

(** *** Reading nodes *)

Definition getNode (d : dom) (x : nat) : option node :=
  List.find (λ n, nodeId n =? x) d.

Definition isElement (n : node) : bool :=
  match data n with ElementData _ _ => true | TextData _ => false end.

Definition elementOf (d : dom) (x : nat) : option element :=
  match getNode d x with
  | Some (Node _ (ElementData e _) _) => Some e
  | _ => None
  end.

Definition parentOf (n : node) : option nat := head (ancestors n).

(** [x.parentNode] *)
Definition parentNode (d : dom) (x : nat) : option nat :=
  n ← getNode d x; parentOf n.

(** The nodes that follow [x] in document order. *)
Fixpoint after (x : nat) (d : dom) : dom :=
  match d with
  | [] => []
  | n :: d' => if nodeId n =? x then d' else after x d'
  end.

Definition isChildOf (p : nat) (n : node) : bool :=
  bool_decide (parentOf n = Some p).

(** [x.nextSibling]: the first node after [x] with the parent of [x]. *)
Definition nextSibling (d : dom) (x : nat) : option nat :=
  n ← getNode d x; p ← parentOf n;
  nodeId <$> List.find (isChildOf p) (after x d).

(** [x.nextElementSibling] *)
Definition nextElementSibling (d : dom) (x : nat) : option nat :=
  n ← getNode d x; p ← parentOf n;
  nodeId <$> List.find (λ m, isChildOf p m && isElement m) (after x d).

(** [x.firstChild] *)
Definition firstChild (d : dom) (x : nat) : option nat :=
  nodeId <$> List.find (isChildOf x) d.

Definition isDescendantOf (x : nat) (n : node) : bool :=
  bool_decide (x ∈ ancestors n).

Definition isInclusiveDescendantOf (x : nat) (n : node) : bool :=
  (nodeId n =? x) || isDescendantOf x n.

(** [x.textContent]: the text of the descendants, in document order. *)
Definition textOf (n : node) : string :=
  match data n with TextData s => s | ElementData _ _ => "" end.

Definition textContent (d : dom) (x : nat) : string :=
  foldr (λ n s, textOf n +:+ s) ""
        (List.filter (isInclusiveDescendantOf x) d).

(** [x.classList.contains(c)], also through [?.] on a missing node. *)
Definition classListContains (d : dom) (x : option nat) (c : string) : bool :=
  match x ≫= elementOf d with
  | Some e => bool_decide (c ∈ classList e)
  | None => false
  end.

(** *** Strings in attributes *)

Fixpoint startsWith (p s : string) : bool :=
  match p, s with
  | EmptyString, _ => true
  | String a p', String b s' => bool_decide (a = b) && startsWith p' s'
  | String _ _, EmptyString => false
  end.

(** [s.includes(p)] *)
Fixpoint includes (p s : string) : bool :=
  startsWith p s ||
  match s with
  | EmptyString => false
  | String _ s' => includes p s'
  end.

Fixpoint assoc (k : string) (l : list (string * string)) : option string :=
  match l with
  | [] => None
  | (k', v) :: l' => if bool_decide (k' = k) then Some v else assoc k l'
  end.

Fixpoint joinSpace (l : list string) : string :=
  match l with
  | [] => ""
  | [c] => c
  | c :: l' => c +:+ " " +:+ joinSpace l'
  end.

(** [e.getAttribute(a)]; the [class] attribute is the class list. *)
Definition attributeOf (e : element) (a : string) : option string :=
  if bool_decide (a = "class") then
    match classList e with
    | [] => None
    | cs => Some (joinSpace cs)
    end
  else assoc a (attributes e).

Definition getAttribute (d : dom) (x : nat) (a : string) : option string :=
  e ← elementOf d x; attributeOf e a.

(** [x.style.prop]: the empty string when not set. *)
Definition getStyle (d : dom) (x : nat) (prop : string) : string :=
  match getNode d x with
  | Some (Node _ (ElementData _ st) _) => default "" (assoc prop st)
  | _ => ""
  end.

(** *** Selectors *)

Inductive simpleSelector :=
| Tag (t : string)                  (* t *)
| Class (c : string)                (* .c *)
| AttrEq (a v : string)             (* [a="v"] *)
| AttrContains (a v : string)       (* [a*="v"] *)
| AttrPrefix (a v : string)         (* [a^="v"] *)
| NotClass (c : string).            (* :not(.c) *)

(** A compound selector; a complex selector is compounds joined by the
    descendant combinator, in source order; a selector list is separated by
    commas. *)
Definition compound := list simpleSelector.
Definition selector := list (list compound).

Definition matchesSimple (e : element) (s : simpleSelector) : bool :=
  match s with
  | Tag t => bool_decide (tagName e = t)
  | Class c => bool_decide (c ∈ classList e)
  | AttrEq a v => bool_decide (attributeOf e a = Some v)
  | AttrContains a v =>
      match attributeOf e a with
      | Some s => negb (bool_decide (v = "")) && includes v s
      | None => false
      end
  | AttrPrefix a v =>
      match attributeOf e a with
      | Some s => negb (bool_decide (v = "")) && startsWith v s
      | None => false
      end
  | NotClass c => negb (bool_decide (c ∈ classList e))
  end.

Definition matchesCompound (e : element) (c : compound) : bool :=
  forallb (matchesSimple e) c.

Definition elementMatches (d : dom) (x : nat) (c : compound) : bool :=
  match elementOf d x with
  | Some e => matchesCompound e c
  | None => false
  end.

(** The compounds left of the subject, innermost first, against the chain of
    ancestors. *)
Fixpoint matchesAncestors (d : dom) (cs : list compound) (anc : list nat)
  : bool :=
  match cs with
  | [] => true
  | c :: cs' =>
      (fix go (anc : list nat) : bool :=
         match anc with
         | [] => false
         | a :: anc' =>
             (elementMatches d a c && matchesAncestors d cs' anc') || go anc'
         end) anc
  end.

Definition matchesComplex (d : dom) (n : node) (cx : list compound) : bool :=
  match data n, reverse cx with
  | ElementData e _, subject :: outer =>
      matchesCompound e subject && matchesAncestors d outer (ancestors n)
  | _, _ => false
  end.

(** [n.matches(sel)] *)
Definition matchesNode (d : dom) (sel : selector) (n : node) : bool :=
  existsb (matchesComplex d n) sel.

Definition matches (d : dom) (x : nat) (sel : selector) : bool :=
  match getNode d x with
  | Some n => matchesNode d sel n
  | None => false
  end.

(** [scope.querySelectorAll(sel)]: the descendants of [scope] that match, in
    document order. *)
Definition querySelectorAll (d : dom) (scope : nat) (sel : selector)
  : list nat :=
  nodeId <$> List.filter (λ n, isDescendantOf scope n && matchesNode d sel n) d.

(** [scope.querySelector(sel)] *)
Definition querySelector (d : dom) (scope : nat) (sel : selector)
  : option nat :=
  head (querySelectorAll d scope sel).

(** The nodes of the document tree are those under the first root. *)
Definition inDocument (d : dom) (n : node) : bool :=
  bool_decide (last (nodeId n :: ancestors n) = nodeId <$> head d).

(** [document.querySelectorAll(sel)] *)
Definition documentQuerySelectorAll (d : dom) (sel : selector) : list nat :=
  nodeId <$> List.filter (λ n, inDocument d n && matchesNode d sel n) d.

Definition documentQuerySelector (d : dom) (sel : selector) : option nat :=
  head (documentQuerySelectorAll d sel).

(** [x.closest(sel)]: [x] itself or its nearest ancestor that matches. *)
Definition closest (d : dom) (x : nat) (sel : selector) : option nat :=
  n ← getNode d x;
  List.find (λ a, matches d a sel) (x :: ancestors n).

(** *** Changing the DOM *)

Fixpoint setProperty (prop v : string) (st : list (string * string))
  : list (string * string) :=
  match st with
  | [] => [(prop, v)]
  | (k, w) :: st' =>
      if bool_decide (k = prop) then (k, v) :: st'
      else (k, w) :: setProperty prop v st'
  end.

Definition restyle (prop v : string) (n : node) : node :=
  match data n with
  | ElementData e st =>
      Node (nodeId n) (ElementData e (setProperty prop v st)) (ancestors n)
  | TextData _ => n
  end.

(** [x.style.prop = v] *)
Definition setStyle (d : dom) (x : nat) (prop v : string) : dom :=
  (λ n, if nodeId n =? x then restyle prop v n else n) <$> d.

(** The identities the DOM mentions, and one it does not. *)
Definition mentioned (d : dom) : list nat :=
  flat_map (λ n, nodeId n :: ancestors n) d.

Definition freshId (d : dom) : nat :=
  S (foldr Nat.max 0 (mentioned d)).

(** Put [child] right before the node [r]. *)
Fixpoint insertAt (r : nat) (child : node) (d : dom) : dom :=
  match d with
  | [] => [child]
  | n :: d' =>
      if nodeId n =? r then child :: n :: d' else n :: insertAt r child d'
  end.

(** Put [child] after the last node of the tree under [p]. *)
Fixpoint insertLast (p : nat) (child : node) (d : dom) : dom :=
  match d with
  | [] => [child]
  | n :: d' =>
      if isInclusiveDescendantOf p n &&
         negb (existsb (isInclusiveDescendantOf p) d')
      then n :: child :: d'
      else n :: insertLast p child d'
  end.

(** [parent.insertBefore(new, ref)] for a node [new] that is not in a tree
    yet; [None] stands for the exception the call throws (no such parent, or
    [ref] is not a child of it). *)
Definition insertBefore (d : dom) (parent : nat) (new : node)
    (ref : option nat) : option dom :=
  pn ← getNode d parent;
  if isElement pn then
    let child := Node (nodeId new) (data new) (parent :: ancestors pn) in
    match ref with
    | None => Some (insertLast parent child d)
    | Some r =>
        rn ← getNode d r;
        if isChildOf parent rn then Some (insertAt r child d) else None
    end
  else None.

(** The ancestors that remain when the tree under [x] is detached. *)
Fixpoint upTo (x : nat) (anc : list nat) : list nat :=
  match anc with
  | [] => []
  | a :: anc' => if a =? x then [a] else a :: upTo x anc'
  end.

Definition detach (x : nat) (n : node) : node :=
  Node (nodeId n) (data n)
       (if nodeId n =? x then [] else upTo x (ancestors n)).

(** [x.remove()]: the tree under [x] leaves its parent and stays reachable
    through the references to it. *)
Definition remove (d : dom) (x : nat) : dom :=
  match parentNode d x with
  | None => d
  | Some _ =>
      List.filter (λ n, negb (isInclusiveDescendantOf x n)) d ++
      (detach x <$> List.filter (isInclusiveDescendantOf x) d)
  end.

End Dom.

(** ** The reconciliation engine *)

Module Engine.
Import Js Resolution Dom.

Definition MARKER : string := "material-icon-replacement".

(** The selectors the script uses. *)
Definition selUpTree : selector := [[[Tag "a"; AttrEq "data-testid" "up-tree"]]].
Definition selSvgOcticon : selector := [[[Tag "svg"; Class "octicon"]]].
Definition selLargeScreenCell : selector :=
  [[[Tag "td"; Class "react-directory-row-name-cell-large-screen"]]].
Definition selTd : selector := [[[Tag "td"]]].
Definition selNameLink : selector :=
  [[[Tag "a"; AttrContains "href" "/blob/"]];
   [[Tag "a"; AttrContains "href" "/tree/"]]].
Definition selFilenameColumn : selector :=
  [[[Class "react-directory-filename-column"]]].
Definition selFileSvg : selector :=
  [[[Tag "svg"; AttrContains "class" "octicon-file"]]].
Definition selEditLink : selector := [[[Tag "a"; Class "rgh-quick-file-edit"]]].
Definition selReplacement : selector := [[[Tag "img"; Class MARKER]]].
Definition selFileSvgNotPencil : selector :=
  [[[Tag "svg"; AttrContains "class" "octicon-file"; NotClass "octicon-pencil"]]].
Definition selTreeText : selector :=
  [[[Class "PRIVATE_TreeView-item-content-text"]; [Tag "span"]]].
Definition selTreeVisual : selector := [[[Class "PRIVATE_TreeView-item-visual"]]].
Definition selRow : selector := [[[Tag "div"; AttrEq "role" "row"]]].
Definition selTableRow : selector :=
  [[[Tag "tbody"]; [Tag "tr"; Class "react-directory-row"]];
   [[Tag "tbody"]; [Tag "tr"; AttrPrefix "id" "folder-row-"]]].
Definition selTreeItem : selector := [[[Class "PRIVATE_TreeView-item-content"]]].
Definition selClosestRow : selector :=
  [[[Tag "div"; AttrEq "role" "row"]]; [[Tag "tr"; Class "react-directory-row"]]].
Definition selDirectoryRow : selector := [[[Tag "tr"; Class "react-directory-row"]]].
Definition selFolderRow : selector := [[[Tag "tr"; AttrPrefix "id" "folder-row-"]]].
Definition selAnyRow : selector :=
  [[[Tag "div"; AttrEq "role" "row"]]; [[Tag "tr"; Class "react-directory-row"]];
   [[Tag "tr"; AttrPrefix "id" "folder-row-"]]].

(** [stats]: the counter object, or [undefined] when the observer calls. *)
Definition countReplaced (stats : option nat) : option nat := S <$> stats.

Section WithHost.

(** Host functions the script calls; nothing below depends on what they
    compute: [toLowerCase], [trim], and the string an inherited
    [Object.prototype] member turns into when assigned to [img.src]. *)
Variable toLowerCase : string → string.
Variable trim : string → string.
Variable stringOfInherited : string → string.
Variable ICON_MAPPINGS : IconMappings.

Definition stringOf (v : value) : string :=
  match v with
  | Str s => s
  | Inherited k => stringOfInherited k
  | Null => "null"
  | Undefined => "undefined"
  end.

(** [createIconImg(iconDataUri, marginRight)]: the new element, not in a tree
    yet. *)
Definition createIconImg (d : dom) (iconDataUri : value) (marginRight : string)
  : node :=
  Node (freshId d)
    (ElementData
       {| tagName := "img";
          classList := [MARKER];
          attributes := [("src", stringOf iconDataUri); ("aria-hidden", "true")] |}
       ([("width", "16px"); ("height", "16px"); ("display", "inline-block");
         ("verticalAlign", "text-bottom")] ++
        (if bool_decide (marginRight = "") then []
         else [("marginRight", marginRight)])))
    [].

(** [svg.style.visibility = 'hidden'; svg.style.position = 'absolute'] *)
Definition hide (d : dom) (svg : nat) : dom :=
  setStyle (setStyle d svg "visibility" "hidden") svg "position" "absolute".

(** [x.parentNode.insertBefore(img, ref)]; the call on a missing parent
    throws. *)
Definition insertIntoParent (d : dom) (x : nat) (img : node) (ref : option nat)
  : option dom :=
  p ← parentNode d x; insertBefore d p img ref.

(** The loop that removes the replacement images following the edit link. *)
Fixpoint removeFollowingIcons (fuel : nat) (d : dom) (sibling : option nat)
  : dom :=
  match fuel, sibling with
  | S fuel', Some s =>
      if classListContains d (Some s) MARKER then
        let toRemove := s in
        let sibling := nextElementSibling d s in
        removeFollowingIcons fuel' (remove d toRemove) sibling
      else d
  | _, _ => d
  end.

(** [img.style.filter = 'opacity(0.5)'] on the element just created. *)
Definition withFilter (img : node) : node :=
  restyle "filter" "opacity(0.5)" img.

Definition replaceIconForItem (d : dom) (item : nat) (stats : option nat)
  : option (dom * option nat) :=
  (* Check for parent directory (..) link first *)
  match querySelector d item selUpTree with
  | Some parentDirLink =>
      match querySelector d parentDirLink selSvgOcticon with
      | Some svg =>
          if negb (classListContains d (nextElementSibling d svg) MARKER) then
            let iconDataUri := match defaultFolder ICON_MAPPINGS with
                               | Some s => Str s
                               | None => Undefined
                               end in
            if truthy iconDataUri then
              let d1 := hide d svg in
              let img := createIconImg d1 iconDataUri "4px" in
              d2 ← insertIntoParent d1 svg img (nextSibling d1 svg);
              Some (d2, countReplaced stats)
            else Some (d, stats)
          else Some (d, stats)
      | None => Some (d, stats)
      end
  | None =>
    let largeScreenCell := querySelector d item selLargeScreenCell in
    let targetCell := match largeScreenCell with
                      | Some c => Some c
                      | None => querySelector d item selTd
                      end in
    match targetCell with
    | None => Some (d, stats)
    | Some targetCell =>
    (* Find the link with the file/folder name *)
    match querySelector d targetCell selNameLink with
    | None => Some (d, stats)
    | Some link =>
    let name := trim (textContent d link) in
    if bool_decide (name = "") then Some (d, stats) else
    (* Handle collapsed paths *)
    let name := if Dom.includes "/" name
                then List.hd "" (split "/" name) else name in
    match querySelector d targetCell selFilenameColumn with
    | None => Some (d, stats)
    | Some container =>
    match querySelector d container selFileSvg with
    | None => Some (d, stats)
    | Some svg =>
    (* Check if it's a symlink first *)
    let isSymlink :=
      classListContains d (Some svg) "octicon-file-symlink-file" ||
      classListContains d (Some svg) "octicon-file-symlink-directory" in
    (* Check if it's a folder *)
    let ariaLabel := toLowerCase <$> getAttribute d svg "aria-label" in
    let isFolder :=
      default false (Dom.includes "/tree/" <$> getAttribute d link "href") ||
      default false (Dom.includes "directory" <$> ariaLabel) ||
      default false (Dom.includes "folder" <$> ariaLabel) in
    (* Get the appropriate icon *)
    let iconDataUri :=
      if isSymlink then Str (symlink ICON_MAPPINGS)
      else if isFolder then getFolderIcon ICON_MAPPINGS name
      else getFileIcon toLowerCase ICON_MAPPINGS name in
    if negb (truthy iconDataUri) then Some (d, stats) else
    (* Check if Refined GitHub has wrapped this in an edit link *)
    match closest d svg selEditLink with
    | Some editLink =>
        match querySelector d editLink selReplacement with
        | Some existingIcon =>
            (* Remove any duplicate icons that are siblings of the edit link *)
            Some (removeFollowingIcons (length d) d
                    (nextElementSibling d editLink), stats)
        | None =>
            (* An icon added as a sibling before the link was wrapped *)
            let siblingIcon := nextElementSibling d editLink in
            let d1 := if classListContains d siblingIcon MARKER
                      then match siblingIcon with
                           | Some s => remove d s
                           | None => d
                           end
                      else d in
            (* Find the file icon SVG (not the pencil) *)
            match querySelector d1 editLink selFileSvgNotPencil with
            | Some fileIconSvg =>
                let d2 := hide d1 fileIconSvg in
                let img := createIconImg d2 iconDataUri "" in
                d3 ← insertBefore d2 editLink img (firstChild d2 editLink);
                Some (d3, countReplaced stats)
            | None => Some (d1, stats)
            end
        end
    | None =>
        (* Check if we already added our icon *)
        if classListContains d (nextElementSibling d svg) MARKER
        then Some (d, stats)
        else
          let d1 := hide d svg in
          let img := createIconImg d1 iconDataUri (getStyle d1 svg "marginRight") in
          let img := if bool_decide (getStyle d1 svg "color" = "") then img
                     else withFilter img in
          d2 ← insertIntoParent d1 svg img (nextSibling d1 svg);
          Some (d2, countReplaced stats)
    end
    end end end end
  end.

Definition replaceIconForTreeItem (d : dom) (item : nat) (stats : option nat)
  : option (dom * option nat) :=
  (* Find the filename span *)
  match querySelector d item selTreeText with
  | None => Some (d, stats)
  | Some filenameSpan =>
  let name := trim (textContent d filenameSpan) in
  if bool_decide (name = "") then Some (d, stats) else
  (* Find the SVG container *)
  match querySelector d item selTreeVisual with
  | None => Some (d, stats)
  | Some visualContainer =>
  match querySelector d visualContainer selSvgOcticon with
  | None => Some (d, stats)
  | Some svg =>
  match parentNode d svg with
  | None => None
  | Some svgParent =>
  (* Check if we already have a replacement icon in the parent *)
  match querySelector d svgParent selReplacement with
  | Some existingIcon => Some (hide d svg, stats)
  | None =>
    let isSymlink :=
      classListContains d (Some svg) "octicon-file-symlink-file" ||
      classListContains d (Some svg) "octicon-file-symlink-directory" in
    let isFolder :=
      classListContains d (Some svg) "octicon-file-directory" ||
      classListContains d (Some svg) "octicon-file-directory-fill" ||
      classListContains d (Some svg) "octicon-file-directory-open-fill" in
    let iconDataUri :=
      if isSymlink then Str (symlink ICON_MAPPINGS)
      else if isFolder then getFolderIcon ICON_MAPPINGS name
      else getFileIcon toLowerCase ICON_MAPPINGS name in
    if negb (truthy iconDataUri) then Some (d, stats) else
    let d1 := hide d svg in
    let img := createIconImg d1 iconDataUri "" in
    d2 ← insertBefore d1 svgParent img (nextSibling d1 svg);
    Some (d2, countReplaced stats)
  end end end end end.

(** [items.forEach(item => f(item, stats))]: an exception ends the loop. *)
Fixpoint forEach (f : dom → nat → option nat → option (dom * option nat))
    (items : list nat) (d : dom) (stats : option nat)
  : option (dom * option nat) :=
  match items with
  | [] => Some (d, stats)
  | item :: items' =>
      '(d', stats') ← f d item stats; forEach f items' d' stats'
  end.

(** [replaceIcons()]: the DOM it leaves and [stats.replaced]. *)
Definition replaceIcons (d : dom) : option (dom * option nat) :=
  let stats := Some 0 in
  let items := documentQuerySelectorAll d selRow in
  let items := if bool_decide (length items = 0)
               then documentQuerySelectorAll d selTableRow else items in
  '(d1, stats) ← forEach replaceIconForItem items d stats;
  let treeItems := documentQuerySelectorAll d1 selTreeItem in
  forEach replaceIconForTreeItem treeItems d1 stats.

(** *** The mutation observer *)

Inductive mutationType := ChildList | Attributes.

Record mutationRecord := MutationRecord {
  mutationKind : mutationType;
  target : nat;
  addedNodes : list nat;
  removedNodes : list nat
}.

(** [rowsToProcess.add(x)] on a [Set], which keeps insertion order. *)
Definition add (x : nat) (rows : list nat) : list nat :=
  if bool_decide (x ∈ rows) then rows else rows ++ [x].

Definition addAll (xs : list nat) (rows : list nat) : list nat :=
  foldl (λ rows x, add x rows) rows xs.

Definition addClosest (d : dom) (x : nat) (sel : selector) (rows : list nat)
  : list nat :=
  match closest d x sel with
  | Some row => add row rows
  | None => rows
  end.

Definition isElementNode (d : dom) (x : nat) : bool :=
  match getNode d x with Some n => isElement n | None => false end.

(** The body of the loop over [mutation.removedNodes]. *)
Definition collectRemoved (d : dom) (m : mutationRecord) (rows : list nat)
  : list nat :=
  foldl (λ rows node,
           if isElementNode d node && classListContains d (Some node) MARKER
           then addClosest d (target m) selClosestRow rows
           else rows)
        rows (removedNodes m).

(** The check whether the page made a hidden icon visible again. *)
Definition collectAttributes (d : dom) (m : mutationRecord) (rows : list nat)
  : list nat :=
  match mutationKind m with
  | Attributes =>
      let svg := target m in
      if bool_decide (tagName <$> elementOf d svg = Some "svg") &&
         default false (Dom.includes "octicon-file" <$> getAttribute d svg "class") &&
         negb (bool_decide (getStyle d svg "visibility" = "hidden"))
      then addClosest d svg selClosestRow rows
      else rows
  | ChildList => rows
  end.

(** The body of the loop over [mutation.addedNodes]. *)
Definition collectAdded (d : dom) (m : mutationRecord) (rows : list nat)
  : list nat :=
  foldl (λ rows node,
    if negb (isElementNode d node) then rows
    (* Skip our own icon replacements *)
    else if classListContains d (Some node) MARKER then rows
    else
      (* a new SVG in tree view (folder open/close toggle) *)
      let rows := if matches d node selSvgOcticon
                  then addClosest d node selTreeItem rows else rows in
      (* a file row or parent directory row, or rows added as children *)
      let rows := if matches d node selRow || matches d node selDirectoryRow
                     || matches d node selFolderRow
                  then add node rows
                  else addAll (querySelectorAll d node selAnyRow) rows in
      (* an edit link of Refined GitHub, or edit links added as children *)
      let rows := if matches d node selEditLink
                  then addClosest d node selClosestRow rows
                  else foldl (λ rows link, addClosest d link selClosestRow rows)
                             rows (querySelectorAll d node selEditLink) in
      (* a tree view item, or tree view items added as children *)
      if matches d node selTreeItem then add node rows
      else addAll (querySelectorAll d node selTreeItem) rows)
    rows (addedNodes m).

Definition collect (d : dom) (mutations : list mutationRecord) : list nat :=
  foldl (λ rows m,
           collectAdded d m (collectAttributes d m (collectRemoved d m rows)))
        [] mutations.

(** The item kind the observer picks the function by. *)
Definition processItem (d : dom) (item : nat) (stats : option nat)
  : option (dom * option nat) :=
  if classListContains d (Some item) "PRIVATE_TreeView-item-content"
  then replaceIconForTreeItem d item stats
  else replaceIconForItem d item stats.

(** The callback of the [MutationObserver] on [document.body]. *)
Definition observerCallback (d : dom) (mutations : list mutationRecord)
  : option dom :=
  let rowsToProcess := collect d mutations in
  fst <$> forEach processItem rowsToProcess d None.

End WithHost.

(** [trim] on ASCII white space, to run the engine on concrete pages. *)
Definition isSpace (c : ascii) : bool :=
  bool_decide (c ∈ [" "; "009"; "010"; "013"]%char).

Fixpoint trimStart (s : string) : string :=
  match s with
  | String c s' => if isSpace c then trimStart s' else s
  | EmptyString => EmptyString
  end.

Definition asciiTrim (s : string) : string :=
  String.rev (trimStart (String.rev (trimStart s))).

End Engine.
(** ** The build pipeline: the tables merged and expanded when the upstream
       records are parsed, the icons copied ([copyNeededIcons]) and the
       table of the userscript built ([buildIconMappings]) *)

Module Build.
Import Js Resolution.

(** [src/priority-list.js]. *)
Module PriorityList.

Record t := {
  extensions : list string;
  filenames : list string;
  folders : list string
}.

End PriorityList.

Definition priority_list_js : PriorityList.t := {|
  PriorityList.extensions :=
    [ "php"; "inc"; "js"; "jsx"; "ts"; "tsx"; "mjs"; "vue"; "svelte"; "css";
      "scss"; "sass"; "less"; "pcss"; "json"; "xml"; "yml"; "yaml"; "toml";
      "ini"; "env"; "csv"; "tsv"; "html"; "htm"; "phtml"; "svg"; "png"; "jpg";
      "jpeg"; "gif"; "webp"; "woff"; "woff2"; "ttf"; "eot"; "pot"; "po"; "mo";
      "sh"; "bash"; "zsh"; "fish"; "command"; "md"; "mdx"; "txt"; "text";
      "rst"; "pdf"; "rb"; "py"; "lock" ];
  PriorityList.filenames :=
    [ "composer.json"; "composer.lock"; "phpunit.xml"; "phpunit.xml.dist";
      "phpcs.xml"; "phpcs.xml.dist"; "phpstan.neon"; ".phpcs.xml";
      "package.json"; "package-lock.json"; "webpack.config.js";
      "webpack.config.babel.js"; "rollup.config.js"; "vite.config.js";
      "tsconfig.json"; "jsconfig.json"; ".babelrc"; ".eslintrc";
      ".eslintrc.js"; ".eslintrc.json"; ".prettierrc"; ".prettierrc.js";
      ".stylelintrc"; "block.json"; ".gitignore"; ".gitattributes";
      ".gitmodules"; ".distignore"; ".editorconfig"; ".nvmrc";
      ".node-version"; "Dockerfile"; "docker-compose.yml"; ".dockerignore";
      ".travis.yml"; "playwright.config.js"; "Gruntfile.js"; "gulpfile.js";
      "Makefile"; ".env"; ".env.example"; ".env.local"; "Gemfile";
      "README.md"; "LICENSE"; "LICENSE.txt"; "CONTRIBUTING.md";
      "CHANGELOG.md"; "CODE_OF_CONDUCT.md" ];
  PriorityList.folders :=
    [ "wp-content"; "wp-includes"; "wp-admin"; "includes"; "languages";
      "assets"; "build"; "dist"; "src"; "admin"; "docs"; "images";
      "node_modules"; "vendor"; "lib"; "plugins"; "themes"; "mu-plugins";
      "public"; "private"; "config"; "components"; "routes"; "api"; "helpers";
      "utils"; "models"; "views"; "controllers"; "services"; "middleware";
      "templates"; "layouts"; "css"; "sass"; "scss"; "fonts"; "js"; "git";
      "github"; ".claude"; ".cursor"; "tests"; "test"; "vscode"; "bin";
      "examples"; "tools"; "webpack"; "coverage"; "artifacts" ]
|}.

(** The tables [parseTypeScriptConfigs] caches as [fileIcons.json] and
    [folderIcons.json]: icon names by extension, file name and folder name. A
    property the JSON lacks reads as [undefined]. *)
Record FileIcons := {
  fileExtensions : option (gmap string string);
  fileNames : option (gmap string string)
}.

Record FolderIcons := {
  folderNames : option (gmap string string)
}.

(** The files of the disk, by path. *)
Definition fileSystem := gmap string string.

(** [neededIcons.add(x)] on a [Set], which keeps insertion order. *)
Definition addIcon (x : value) (neededIcons : list value) : list value :=
  if bool_decide (x ∈ neededIcons) then neededIcons else neededIcons ++ [x].

(** [if (table) keys.forEach(k => { if (table[k]) neededIcons.add(table[k]) })] *)
Definition collectNeeded (table : option (gmap string string))
    (keys : list string) (neededIcons : list value) : list value :=
  match table with
  | Some T =>
      foldl (λ neededIcons k,
               if truthy (get T k) then addIcon (get T k) neededIcons
               else neededIcons)
            neededIcons keys
  | None => neededIcons
  end.

(** [target[key] = value] on a plain object: the key [__proto__] reaches the
    setter of [Object.prototype], which ignores a string. *)
Definition assignProperty (target : gmap string string) (key value : string)
  : gmap string string :=
  if bool_decide (key = "__proto__") then target else <[key := value]> target.

(** [Object.assign(target, source)] for a [source] literal. *)
Definition assign (target : gmap string string)
    (source : list (string * string)) : gmap string string :=
  foldl (λ target kv, assignProperty target kv.1 kv.2) target source.

Definition manualFilenameMappings : list (string * string) :=
  [(".distignore", "git")].

Definition manualExtensionMappings : list (string * string) :=
  [("yml", "yaml"); ("yaml", "yaml"); ("html", "html")].

(** The double quote. *)
Definition dq : string := String (ascii_of_nat 34) EmptyString.

Definition symlinkSvg : string :=
  "<svg version=" +:+ dq +:+ "1.1" +:+ dq +:+ " viewBox=" +:+ dq +:+
  "0 0 32 32" +:+ dq +:+ " xml:space=" +:+ dq +:+ "preserve" +:+ dq +:+
  " xmlns=" +:+ dq +:+ "http://www.w3.org/2000/svg" +:+ dq +:+ "><path d=" +:+
  dq +:+
  "M13.84376,7.53645l-1.28749-1.0729A2,2,0,0,0,11.27591,6H4A2,2,0,0,0,2,8V24a2,2,0,0,0,2,2H28a2,2,0,0,0,2-2V10a2,2,0,0,0-2-2H15.12412A2,2,0,0,1,13.84376,7.53645Z" +:+
  dq +:+ " fill=" +:+ dq +:+ "#90a4ae" +:+ dq +:+ "/><g transform=" +:+ dq +:+
  "translate(3.233,3.34)" +:+ dq +:+ " fill=" +:+ dq +:+ "#eceff1" +:+ dq +:+
  "><path d=" +:+ dq +:+ "m20.767 9.66v4h-8v6h8v4l8-7z" +:+ dq +:+ " fill=" +:+
  dq +:+ "#eceff1" +:+ dq +:+ " /></g></svg>".

Record CopyStats := {
  copied : nat;
  skipped : nat;
  missing : nat;
  total : nat
}.

Section WithHost.

(** What the host computes: the text of an inherited member in a template
    literal, [Buffer.from(s).toString('base64')], and the paths
    [path.join(iconsSourceDir, name)] and [path.join(ICONS_DIR, name)]. *)
Variable stringOfInherited : string → string.
Variable base64 : string → string.
Variable sourcePathOf : string → string.
Variable iconPathOf : string → string.
Variable priorityList : PriorityList.t.

(** [`${iconName}.svg`] *)
Definition svgFile (iconName : value) : string :=
  Engine.stringOf stringOfInherited iconName +:+ ".svg".

Definition neededIcons (fileIcons : FileIcons) (folderIcons : FolderIcons)
  : list value :=
  let neededIcons := [] in
  (* Map extensions to icon names *)
  let neededIcons :=
    collectNeeded (fileExtensions fileIcons)
                  (PriorityList.extensions priorityList) neededIcons in
  (* Map specific filenames to icon names *)
  let neededIcons :=
    collectNeeded (fileNames fileIcons)
                  (PriorityList.filenames priorityList) neededIcons in
  (* Map folder names to icon names *)
  collectNeeded (folderNames folderIcons)
                (PriorityList.folders priorityList) neededIcons.

(** The body of the loop [for (const iconName of neededIcons)]. *)
Definition copyIcon (state : fileSystem * (nat * nat * nat)) (iconName : value)
  : fileSystem * (nat * nat * nat) :=
  let '(fs, (copied, skipped, missing)) := state in
  let sourcePath := sourcePathOf (svgFile iconName) in
  let destPath := iconPathOf (svgFile iconName) in
  match fs !! sourcePath with
  | None => (fs, (copied, skipped, S missing))
  | Some sourceContent =>
      (* Check if file already exists and is identical *)
      if bool_decide (fs !! destPath = Some sourceContent)
      then (fs, (copied, S skipped, missing))
      else (<[destPath := sourceContent]> fs, (S copied, skipped, missing))
  end.

(** [copyNeededIcons(fileIcons, folderIcons)]: the disk it leaves and the
    counters it returns. *)
Definition copyNeededIcons (fs : fileSystem) (fileIcons : FileIcons)
    (folderIcons : FolderIcons) : fileSystem * CopyStats :=
  let neededIcons := neededIcons fileIcons folderIcons in
  let '(fs', (copied, skipped, missing)) :=
    foldl copyIcon (fs, (0, 0, 0)) neededIcons in
  (fs', {| copied := copied; skipped := skipped; missing := missing;
           total := length neededIcons |}).

(** [svgToDataUri(svgContent)] *)
Definition svgToDataUri (svgContent : string) : string :=
  "data:image/svg+xml;base64," +:+ base64 svgContent.

(** One of the three loops of [buildIconMappings]: for each key of the
    priority list with an icon name in the table and the icon file on disk,
    the data URI of that file. *)
Definition mapIcons (fs : fileSystem) (table : option (gmap string string))
    (keys : list string) : gmap string string :=
  foldl (λ mapping key,
           match table with
           | Some T =>
               if truthy (get T key) then
                 let iconName := get T key in
                 let iconPath := iconPathOf (svgFile iconName) in
                 match fs !! iconPath with
                 | Some svgContent =>
                     assignProperty mapping key (svgToDataUri svgContent)
                 | None => mapping
                 end
               else mapping
           | None => mapping
           end)
        ∅ keys.

(** [buildIconMappings()] on the cached tables; [None] is the [TypeError] of
    [Object.assign] on a missing table. *)
Definition buildIconMappings (fs : fileSystem) (fileIcons : FileIcons)
    (folderIcons : FolderIcons) : option IconMappings :=
  (* Add manual mappings to fileIcons *)
  fileNames ← fileNames fileIcons;
  fileExtensions ← fileExtensions fileIcons;
  let fileNames := assign fileNames manualFilenameMappings in
  let fileExtensions := assign fileExtensions manualExtensionMappings in
  Some {|
    Resolution.extensions :=
      mapIcons fs (Some fileExtensions) (PriorityList.extensions priorityList);
    Resolution.filenames :=
      mapIcons fs (Some fileNames) (PriorityList.filenames priorityList);
    Resolution.folders :=
      mapIcons fs (folderNames folderIcons)
               (PriorityList.folders priorityList);
    (* Add default file/folder icons if they exist *)
    Resolution.defaultFile := svgToDataUri <$> fs !! iconPathOf "file.svg";
    Resolution.defaultFolder := svgToDataUri <$> fs !! iconPathOf "folder.svg";
    (* Add symlink icon *)
    Resolution.symlink := svgToDataUri symlinkSvg
  |}.

End WithHost.

(** [LANGUAGE_TO_EXTENSIONS] *)
Definition LANGUAGE_TO_EXTENSIONS : list (string * list string) :=
  [ ("php", ["php"]); ("javascript", ["js"]); ("typescript", ["ts"]);
    ("python", ["py"]); ("ruby", ["rb"]); ("java", ["java"]); ("go", ["go"]);
    ("rust", ["rs"]); ("c", ["c"]); ("cpp", ["cpp"; "cc"; "cxx"]);
    ("csharp", ["cs"]); ("swift", ["swift"]); ("kotlin", ["kt"]);
    ("scala", ["scala"]); ("perl", ["pl"]); ("haxe", ["hx"]);
    ("elixir", ["ex"]); ("erlang", ["erl"]); ("julia", ["jl"]);
    ("elm", ["elm"]); ("hack", ["hack"]); ("nim", ["nim"]); ("nix", ["nix"]);
    ("r", ["r"]); ("dart", ["dart"]); ("clojure", ["clj"]);
    ("coffeescript", ["coffee"]); ("livescript", ["ls"]); ("lua", ["lua"]);
    ("matlab", ["m"]); ("zig", ["zig"]); ("solidity", ["sol"]);
    ("fsharp", ["fs"]); ("ocaml", ["ml"]); ("reason", ["re"]);
    ("haskell", ["hs"]); ("purescript", ["purs"]); ("vb", ["vb"]);
    ("groovy", ["groovy"]); ("powershell", ["ps1"]); ("objective-c", ["m"]);
    ("vue", ["vue"]); ("svelte", ["svelte"]) ].

(** [LANGUAGE_TO_EXTENSIONS[langId]]: the list of an own entry, [undefined],
    or an inherited member, on which [extensions.forEach] throws. *)
Inductive listRead :=
| OwnList (l : list string)
| NoList
| InheritedMember.

Definition readList (o : list (string * list string)) (k : string)
  : listRead :=
  match List.find (λ kv, bool_decide (kv.1 = k)) o with
  | Some kv => OwnList kv.2
  | None => if bool_decide (k ∈ objectPrototypeKeys) then InheritedMember
            else NoList
  end.

(** The loop of [parseTypeScriptConfigs] over
    [Object.entries(languageMappings)]: the extension table it leaves and
    [languageExtensionsAdded]; [None] is the [TypeError]. *)
Definition addLanguageExtensions (languageMappings : list (string * string))
    (fileExtensions : gmap string string) : option (gmap string string * nat) :=
  foldl (λ state entry,
           '(fileExtensions, languageExtensionsAdded) ← state;
           let '(langId, iconName) := entry in
           match readList LANGUAGE_TO_EXTENSIONS langId with
           | OwnList extensions =>
               Some (foldl (λ '(fileExtensions, languageExtensionsAdded) ext,
                              (* Only add if not already defined *)
                              if negb (truthy (get fileExtensions ext))
                              then (assignProperty fileExtensions ext iconName,
                                    S languageExtensionsAdded)
                              else (fileExtensions, languageExtensionsAdded))
                           (fileExtensions, languageExtensionsAdded)
                           extensions)
           | NoList => Some (fileExtensions, languageExtensionsAdded)
           | InheritedMember => None
           end)
        (Some (fileExtensions, 0)) languageMappings.

(** [FILE_NAME_PATTERNS] *)
Definition FILE_NAME_PATTERNS : list (string * list string) :=
  [ ("ecmascript", ["js"; "mjs"; "cjs"; "ts"; "mts"; "cts"]);
    ("configuration", ["json"; "jsonc"; "json5"; "yaml"; "yml"; "toml"]);
    ("nodeEcosystem", ["js"; "mjs"; "cjs"; "ts"; "mts"; "cts"; "json";
                       "jsonc"; "json5"; "yaml"; "yml"; "toml"]);
    ("yaml", ["yaml"; "yml"]) ].

(** The file names one entry ['baseName': FileNamePattern.Name] of a
    [patterns] block stands for. [Name] matched [\w+], so lower-casing it is
    lower-casing ASCII letters. [None] is the [TypeError] of
    [extensions.forEach] on an inherited member. *)
Definition patternFileNames (baseName patternName : string)
  : option (list string) :=
  let patternType := asciiToLowerCase patternName in
  match readList FILE_NAME_PATTERNS patternType with
  | OwnList extensions =>
      Some ((λ ext, baseName +:+ "." +:+ ext) <$> extensions)
  | NoList => Some []
  | InheritedMember => None
  end.

End Build.
(** ** The upstream records read with regular expressions
       ([parseTypeScriptConfigs]) *)

(** The regular expressions of the scripts: literal characters, character
    classes, greedy or lazy repetitions of a class, and capture groups that
    do not nest. Matching backtracks as in JavaScript: a greedy repetition
    tries the longest run first, a lazy one the shortest. A string stands for
    a sequence of code units below 256. *)
Module Regex.
Import Parser.

Inductive atom :=
| Chr (c : ascii)
| Cls (p : ascii → bool)
| Rep (p : ascii → bool) (min : nat) (greedy : bool)
| Open
| Close.

Definition regex := list atom.

(** The characters of a literal. *)
Fixpoint lit (s : string) : regex :=
  match s with
  | EmptyString => []
  | String c s' => Chr c :: lit s'
  end.

(** The length of the longest prefix of [s] in the class [p]. *)
Fixpoint run (p : ascii → bool) (s : string) : nat :=
  match s with
  | String c s' => if p c then S (run p s') else 0
  | EmptyString => 0
  end.

(** The first alternative that succeeds. *)
Fixpoint firstSome {A B} (f : A → option B) (l : list A) : option B :=
  match l with
  | [] => None
  | x :: l' => match f x with
               | Some y => Some y
               | None => firstSome f l'
               end
  end.

(** The numbers of repetitions to try, in the order they are tried. *)
Definition counts (min n : nat) (greedy : bool) : list nat :=
  let ascending := seq min (S n - min) in
  if greedy then rev ascending else ascending.

(** A match of [r] at the start of [s]: what follows the match and the
    captures, in the order the groups close. [opened] holds the text from
    where each open group began. *)
Fixpoint matchHere (r : regex) (s : string) (opened : list string)
    (captures : list string) : option (string * list string) :=
  match r with
  | [] => Some (s, captures)
  | Chr c :: r' =>
      match s with
      | String c' s' =>
          if bool_decide (c' = c) then matchHere r' s' opened captures
          else None
      | EmptyString => None
      end
  | Cls p :: r' =>
      match s with
      | String c' s' =>
          if p c' then matchHere r' s' opened captures else None
      | EmptyString => None
      end
  | Rep p min greedy :: r' =>
      firstSome (λ k, matchHere r' (dropString k s) opened captures)
                (counts min (run p s) greedy)
  | Open :: r' => matchHere r' s (s :: opened) captures
  | Close :: r' =>
      match opened with
      | start :: opened' =>
          matchHere r' s opened'
            (captures ++
             [takeString (String.length start - String.length s) start])
      | [] => None
      end
  end.

(** A match object: [match.index], [match[0]] and the captures. *)
Record result := Result {
  index : nat;
  matched : string;
  groups : list string
}.

Definition resultAt (s : string) (i : nat) (found : string * list string)
  : result :=
  Result i (takeString (String.length s - String.length found.1) s) found.2.

(** [s.match(r)] for [r] without the [g] flag: the leftmost match. [i] is the
    index of [s] in the whole string. *)
Fixpoint search (r : regex) (s : string) (i : nat) : option result :=
  match matchHere r s [] [] with
  | Some found => Some (resultAt s i found)
  | None =>
      match s with
      | String _ s' => search r s' (S i)
      | EmptyString => None
      end
  end.

(** [s.matchAll(r)] and the matches behind [s.match(r)] for [r] with the [g]
    flag: the next match is searched from the end of the last one, and one
    character further on after an empty match. [skip] characters are still
    inside the last match. *)
Fixpoint matchAllFrom (r : regex) (s : string) (i skip : nat) : list result :=
  match skip with
  | S skip' =>
      match s with
      | String _ s' => matchAllFrom r s' (S i) skip'
      | EmptyString => []
      end
  | 0 =>
      match matchHere r s [] [] with
      | Some found =>
          let m := resultAt s i found in
          m :: match s with
               | String _ s' =>
                   matchAllFrom r s' (S i) (String.length (matched m) - 1)
               | EmptyString => []
               end
      | None =>
          match s with
          | String _ s' => matchAllFrom r s' (S i) 0
          | EmptyString => []
          end
      end
  end.

Definition matchAll (r : regex) (s : string) : list result :=
  matchAllFrom r s 0 0.

End Regex.

(** The file-icon and folder-icon records of the upstream TypeScript
    files. *)
Module Configs.
Import Js Resolution Parser Regex Build.

(** The character classes of the expressions: a quote (single or double),
    no quote, no closing brace, no closing bracket, [\s], [\w] and
    [\s\S]. In the comments below [Q] stands for the class of the two
    quotes and [N] for its complement. *)
Definition isQuote (c : ascii) : bool :=
  bool_decide (c = "'"%char) || bool_decide (c = ascii_of_nat 34).

Definition notQuote (c : ascii) : bool := negb (isQuote c).

Definition notCloseBrace (c : ascii) : bool := negb (bool_decide (c = "}"%char)).

Definition notCloseBracket (c : ascii) : bool :=
  negb (bool_decide (c = "]"%char)).

Definition isSpace (c : ascii) : bool :=
  bool_decide (nat_of_ascii c ∈ [9; 10; 11; 12; 13; 32; 160]).

Definition isWord (c : ascii) : bool :=
  let n := nat_of_ascii c in
  bool_decide (48 ≤ n ≤ 57) || bool_decide (65 ≤ n ≤ 90) ||
  bool_decide (97 ≤ n ≤ 122) || bool_decide (n = 95).

Definition anyChar (c : ascii) : bool := true.

(** [/{[^}]*name:\s*Q(N+)Q/g] *)
Definition iconPattern : regex :=
  [Chr "{"; Rep notCloseBrace 0 true] ++ lit "name:" ++
  [Rep isSpace 0 true; Cls isQuote; Open; Rep notQuote 1 true; Close;
   Cls isQuote].

(** [/Q(N+)Q/g] *)
Definition quotedPattern : regex :=
  [Cls isQuote; Open; Rep notQuote 1 true; Close; Cls isQuote].

(** [/key:\s*\[([^\]]+)\]/] for [key] one of [fileExtensions], [fileNames]
    and [folderNames]. *)
Definition listPattern (key : string) : regex :=
  lit key ++ lit ":" ++
  [Rep isSpace 0 true; Chr "["; Open; Rep notCloseBracket 1 true; Close;
   Chr "]"].

(** [/patterns:\s*{([\s\S]*?)}/] *)
Definition patternsPattern : regex :=
  lit "patterns:" ++
  [Rep isSpace 0 true; Chr "{"; Open; Rep anyChar 0 false; Close; Chr "}"].

(** [/Q(N+)Q:\s*FileNamePattern\.(\w+)/] *)
Definition patternEntryPattern : regex :=
  [Cls isQuote; Open; Rep notQuote 1 true; Close; Cls isQuote; Chr ":";
   Rep isSpace 0 true] ++ lit "FileNamePattern." ++
  [Open; Rep isWord 1 true; Close].

(** [s.replace(/Q/g, '')] *)
Fixpoint removeQuotes (s : string) : string :=
  match s with
  | EmptyString => EmptyString
  | String c s' =>
      if isQuote c then removeQuotes s' else String c (removeQuotes s')
  end.

(** The names of a list: [list.match(/Q(N+)Q/g)] with the quotes of each
    match removed; no match gives no name. *)
Definition quotedNames (listText : string) : list string :=
  (λ m, removeQuotes (matched m)) <$> matchAll quotedPattern listText.

(** The names listed under [key] in [block]. *)
Definition listedNames (key block : string) : list string :=
  match search (listPattern key) block 0 with
  | Some m =>
      match groups m with
      | listText :: _ => quotedNames listText
      | [] => []
      end
  | None => []
  end.

(** [names.forEach(name => { table[name] = iconName })] *)
Definition assignAll (table : gmap string string) (names : list string)
    (iconName : string) : gmap string string :=
  foldl (λ table name, assignProperty table name iconName) table names.

(** The file names the [patterns] of a block stand for; [None] is the
    [TypeError] of a pattern type that names an inherited member. *)
Definition patternNames (block : string) : option (list string) :=
  match search patternsPattern block 0 with
  | Some m =>
      match groups m with
      | patternsContent :: _ =>
          foldl (λ names entry,
                   names ← names;
                   match search patternEntryPattern (matched entry) 0 with
                   | Some entryMatch =>
                       match groups entryMatch with
                       | baseName :: patternName :: _ =>
                           fullNames ← patternFileNames baseName patternName;
                           Some (names ++ fullNames)
                       | _ => Some names
                       end
                   | None => Some names
                   end)
                (Some [])
                (matchAll patternEntryPattern patternsContent)
      | [] => Some []
      end
  | None => Some []
  end.

(** The tables [fileIcons.fileExtensions] and [fileIcons.fileNames]. *)
Definition fileTables : Type := gmap string string * gmap string string.

(** The body of [fileIconMatches.forEach]: one record of [fileIcons.ts]. *)
Definition parseFileIcon (fileIconsContent : string) (fileIcons : fileTables)
    (m : result) : option fileTables :=
  match groups m with
  | iconName :: _ =>
      let blockStart := index m in
      match fileIconBlock fileIconsContent blockStart with
      | None => Some fileIcons
      | Some block =>
          (* Extract extensions *)
          let fileExtensions :=
            assignAll fileIcons.1 (listedNames "fileExtensions" block)
                      iconName in
          (* Extract file names *)
          let fileNames :=
            assignAll fileIcons.2 (listedNames "fileNames" block) iconName in
          (* Extract patterns *)
          fullNames ← patternNames block;
          Some (fileExtensions, assignAll fileNames fullNames iconName)
      end
  | [] => Some fileIcons
  end.

(** The file-icon part of [parseTypeScriptConfigs]; [None] is an error
    thrown: no record found, or the [TypeError] of a pattern type. *)
Definition parseFileIcons (fileIconsContent : string) : option fileTables :=
  let fileIconMatches := matchAll iconPattern fileIconsContent in
  if bool_decide (length fileIconMatches = 0) then None
  else foldl (λ fileIcons m,
                fileIcons ← fileIcons;
                parseFileIcon fileIconsContent fileIcons m)
             (Some (∅, ∅)) fileIconMatches.

(** The body of [folderIconMatches.forEach]. *)
Definition parseFolderIcon (folderIconsContent : string)
    (folderNames : gmap string string) (m : result) : gmap string string :=
  match groups m with
  | iconName :: _ =>
      match folderIconBlock folderIconsContent (index m) with
      | None => folderNames
      | Some block =>
          assignAll folderNames (listedNames "folderNames" block) iconName
      end
  | [] => folderNames
  end.

(** The folder-icon part of [parseTypeScriptConfigs]. *)
Definition parseFolderIcons (folderIconsContent : string)
  : gmap string string :=
  foldl (parseFolderIcon folderIconsContent) ∅
        (matchAll iconPattern folderIconsContent).

End Configs.

(** ** String append *)

Module StringFacts.

Lemma append_nil (b : string) : "" +:+ b = b.
Proof. reflexivity. Qed.

Lemma append_cons x (a b : string) : String x a +:+ b = String x (a +:+ b).
Proof. reflexivity. Qed.

Lemma append_assoc (a b c : string) : (a +:+ b) +:+ c = a +:+ (b +:+ c).
Proof.
  induction a as [|x a IH]; [done|]. by rewrite !append_cons, IH.
Qed.

Lemma length_append (a b : string) :
  String.length (a +:+ b) = String.length a + String.length b.
Proof.
  induction a as [|x a IH]; [done|]. rewrite append_cons. simpl. by rewrite IH.
Qed.

End StringFacts.

(** ** Facts about icon resolution *)

Module ResolutionFacts.
Import Js Resolution StringFacts.

(** A name without the separator. *)
Fixpoint dotFree (s : string) : bool :=
  match s with
  | EmptyString => true
  | String c s' => negb (bool_decide (c = "."%char)) && dotFree s'
  end.

(** The dot-separated segments of a name. *)
Definition segments (s : string) : list string := split "." s.

(** The table holds an icon (a non-empty data URI) under [k]. *)
Definition hasIcon (T : gmap string string) (k v : string) : Prop :=
  T !! k = Some v ∧ v ≠ "".

Lemma split_nonnil sep s : split sep s ≠ [].
Proof. destruct s as [|c s]; simpl; [done|]. case_bool_decide; [done|]. by destruct (split sep s). Qed.

Lemma split_dotFree s : dotFree s = true → split "." s = [s].
Proof.
  induction s as [|c s IH]; simpl; [done|].
  intros [Hc Hs]%andb_prop. apply negb_true_iff in Hc.
  rewrite Hc. by rewrite (IH Hs).
Qed.

Lemma split_app sep a b :
  split sep (a +:+ String sep b) = (split sep a ++ split sep b).
Proof.
  induction a as [|c a IH]; [rewrite append_nil|rewrite append_cons]; simpl.
  - by rewrite bool_decide_eq_true_2.
  - case_bool_decide; [by rewrite IH|].
    rewrite IH. pose proof (split_nonnil sep a). by destruct (split sep a).
Qed.

Lemma join_snoc sep l x :
  l ≠ [] → join sep (l ++ [x]) = join sep l +:+ sep +:+ x.
Proof.
  induction l as [|p l IH]; [done|]. intros _.
  destruct l as [|q l]; [done|].
  change (join sep ((p :: q :: l) ++ [x])) with (p +:+ sep +:+ join sep ((q :: l) ++ [x])).
  rewrite IH by done.
  change (join sep (p :: q :: l)) with (p +:+ sep +:+ join sep (q :: l)).
  by rewrite !append_assoc.
Qed.

Lemma join_split s : join "." (split "." s) = s.
Proof.
  induction s as [|c s IH]; [done|]. simpl.
  pose proof (split_nonnil "." s) as Hn.
  case_bool_decide as Hc.
  - subst c. destruct (split "." s) as [|p ps] eqn:E; [done|].
    change (join "." ("" :: p :: ps)) with ("" +:+ "." +:+ join "." (p :: ps)).
    by rewrite IH.
  - destruct (split "." s) as [|p ps] eqn:E; [done|].
    destruct ps as [|q ps]; [by rewrite <-IH|].
    change (join "." (String c p :: q :: ps))
      with (String c p +:+ "." +:+ join "." (q :: ps)).
    by rewrite append_cons, <-IH.
Qed.

Lemma dotFree_segments s : dotFree s = false → 2 ≤ length (segments s).
Proof.
  unfold segments. induction s as [|c s IH]; simpl; [done|].
  case_bool_decide; simpl.
  - intros _. pose proof (split_nonnil "." s). destruct (split "." s); simpl; [done|lia].
  - intros Hs. specialize (IH Hs). destruct (split "." s); simpl in *; lia.
Qed.

Lemma prototype_keys_dotFree k : k ∈ objectPrototypeKeys → dotFree k = true.
Proof.
  unfold objectPrototypeKeys. rewrite !elem_of_cons, elem_of_nil.
  intros H; repeat (destruct H as [->|H]; [reflexivity|]); done.
Qed.

Lemma dotFree_app a b : dotFree (a +:+ b) = dotFree a && dotFree b.
Proof.
  induction a as [|c a IH]; [done|].
  rewrite append_cons. simpl. by rewrite IH, andb_assoc.
Qed.

Lemma get_dotted T k : dotFree k = false → T !! k = None → get T k = Undefined.
Proof.
  intros Hd Hk. unfold get. rewrite Hk. case_bool_decide as Hin; [|done].
  apply prototype_keys_dotFree in Hin. congruence.
Qed.

Lemma lookup_dotted T k : dotFree k = false → T !! k = None → lookup T k = None.
Proof. intros Hd Hk. unfold lookup. by rewrite (get_dotted _ _ Hd Hk). Qed.

Lemma lookup_hasIcon T k v : hasIcon T k v → lookup T k = Some (Str v).
Proof.
  intros [Hk Hv]. unfold lookup, get. rewrite Hk. simpl.
  by rewrite bool_decide_eq_false_2.
Qed.

Lemma dotted_mid a b : dotFree (a +:+ "." +:+ b) = false.
Proof. rewrite dotFree_app, append_cons. simpl. by rewrite andb_false_r. Qed.

Lemma segments_snoc stem final :
  dotFree final = true →
  segments (stem +:+ "." +:+ final) = segments stem ++ [final].
Proof.
  intros Hf. unfold segments.
  change ("." +:+ final) with (String "." final).
  by rewrite split_app, (split_dotFree final Hf).
Qed.

Lemma nth_last_snoc (l : list string) x pen :
  last l = Some pen → nth (length (l ++ [x]) - 2) (l ++ [x]) "" = pen.
Proof.
  intros Hl. rewrite length_app. simpl.
  replace (length l + 1 - 2) with (length l - 1) by lia.
  rewrite last_lookup in Hl.
  replace (Nat.pred (length l)) with (length l - 1) in Hl by lia.
  apply nth_lookup_Some with (d := "") in Hl as Hn.
  rewrite app_nth1; [done|].
  apply lookup_lt_Some in Hl. lia.
Qed.

Lemma nth_final_snoc (l : list string) x :
  nth (length (l ++ [x]) - 1) (l ++ [x]) "" = x.
Proof.
  rewrite length_app. simpl.
  replace (length l + 1 - 1) with (length l) by lia.
  by rewrite nth_middle.
Qed.

Section Lookup.

Variable toLowerCase : string → string.
Variable M : IconMappings.

Abbreviation getFileIcon := (getFileIcon toLowerCase M).
Abbreviation getFolderIcon := (getFolderIcon M).

(** Resolution of a name [stem.final] whose stem has at least two segments:
    the stripped name, then the extension named by the stem's last segment,
    then the final segment, then the default. *)
Lemma getFileIcon_compound stem final pen :
  dotFree final = true →
  2 ≤ length (segments stem) →
  last (segments stem) = Some pen →
  lookup (filenames M) (stem +:+ "." +:+ final) = None →
  getFileIcon (stem +:+ "." +:+ final) =
    match lookup (filenames M) stem with
    | Some v => v
    | None =>
      match lookup (extensions M) (toLowerCase pen) with
      | Some v => v
      | None =>
        match lookup (extensions M) (toLowerCase final) with
        | Some v => v
        | None => orNull (defaultFile M)
        end
      end
    end.
Proof.
  intros Hf Hlen Hpen Hfull. unfold Resolution.getFileIcon. rewrite Hfull.
  fold (segments (stem +:+ "." +:+ final)). rewrite (segments_snoc _ _ Hf).
  rewrite removelast_last, nth_final_snoc, (nth_last_snoc _ _ _ Hpen).
  unfold segments at 3. rewrite join_split.
  rewrite !bool_decide_eq_true_2 by (rewrite length_app; simpl; lia).
  destruct (lookup (filenames M) stem); [done|].
  by destruct (lookup (extensions M) (toLowerCase pen)).
Qed.

(** Resolution of a two-segment name [stem.ext]: only the extension lookup on
    the final segment, then the default. *)
Lemma getFileIcon_simple stem ext :
  dotFree stem = true → dotFree ext = true →
  lookup (filenames M) (stem +:+ "." +:+ ext) = None →
  getFileIcon (stem +:+ "." +:+ ext) =
    match lookup (extensions M) (toLowerCase ext) with
    | Some v => v
    | None => orNull (defaultFile M)
    end.
Proof.
  intros Hs He Hfull. unfold Resolution.getFileIcon. rewrite Hfull.
  fold (segments (stem +:+ "." +:+ ext)). rewrite (segments_snoc _ _ He).
  unfold segments. rewrite (split_dotFree _ Hs). simpl.
  by destruct (lookup (extensions M) (toLowerCase ext)).
Qed.



(** C2: for a name [base.ext.suffix] with no filename-table entry for the
    full name and none for [base.ext], [getFileIcon] returns the icon the
    extension table holds for [ext] lower-cased, which is also the icon of
    every two-segment name whose extension lower-cases to the same string. *)
Theorem getFileIcon_base_ext_suffix base ext suffix icon :
  dotFree base = true → dotFree ext = true → dotFree suffix = true →
  filenames M !! (base +:+ "." +:+ ext +:+ "." +:+ suffix) = None →
  filenames M !! (base +:+ "." +:+ ext) = None →
  hasIcon (extensions M) (toLowerCase ext) icon →
  getFileIcon (base +:+ "." +:+ ext +:+ "." +:+ suffix) = Str icon ∧
  ∀ stem ext',
    dotFree stem = true → dotFree ext' = true →
    toLowerCase ext' = toLowerCase ext →
    filenames M !! (stem +:+ "." +:+ ext') = None →
    getFileIcon (stem +:+ "." +:+ ext') = Str icon.
Proof.
  intros Hb He Hs Hfull Hstem Hicon. split.
  - assert (base +:+ "." +:+ ext +:+ "." +:+ suffix =
            (base +:+ "." +:+ ext) +:+ "." +:+ suffix) as Heq
      by (by rewrite !append_assoc).
    rewrite Heq in Hfull |- *.
    assert (segments (base +:+ "." +:+ ext) = [base; ext]) as Hseg.
    { rewrite (segments_snoc _ _ He). unfold segments.
      by rewrite (split_dotFree _ Hb). }
    rewrite (getFileIcon_compound _ _ ext Hs).
    + rewrite (lookup_dotted _ _ (dotted_mid base ext) Hstem).
      by rewrite (lookup_hasIcon _ _ _ Hicon).
    + rewrite Hseg. simpl. lia.
    + by rewrite Hseg.
    + apply lookup_dotted; [apply dotted_mid|done].
  - intros stem ext' Hst He' Hlow Hnone.
    rewrite (getFileIcon_simple _ _ Hst He').
    + by rewrite Hlow, (lookup_hasIcon _ _ _ Hicon).
    + apply lookup_dotted; [apply dotted_mid|done].
Qed.

(** C10: for a name made of one leading dot and a dot-free tail, with no
    filename-table entry, [getFileIcon] looks the lower-cased tail up as an
    extension: it returns that icon when the extension table holds one, and
    the default file icon (or null) when the lookup finds nothing. *)
Theorem getFileIcon_dotfile tail :
  dotFree tail = true →
  filenames M !! ("." +:+ tail) = None →
  (∀ icon, hasIcon (extensions M) (toLowerCase tail) icon →
           getFileIcon ("." +:+ tail) = Str icon) ∧
  (lookup (extensions M) (toLowerCase tail) = None →
   getFileIcon ("." +:+ tail) = orNull (defaultFile M)).
Proof.
  intros Ht Hnone.
  assert (getFileIcon ("." +:+ tail) =
          match lookup (extensions M) (toLowerCase tail) with
          | Some v => v
          | None => orNull (defaultFile M)
          end) as ->.
  { apply (getFileIcon_simple "" tail); [done|done|].
    apply lookup_dotted; [apply (dotted_mid "" tail)|done]. }
  split.
  - intros icon Hicon. by rewrite (lookup_hasIcon _ _ _ Hicon).
  - by intros ->.
Qed.

(** The behaviour claim C3 describes: a dot-prefixed folder name without a
    direct entry resolves like the name without its leading dot. *)
Definition resolvesAsUnprefixed (foldername : string) : Prop :=
  startsWith "." foldername = true →
  folders M !! foldername = None →
  getFolderIcon foldername = getFolderIcon (substring1 foldername).

Lemma lookup_hidden T k :
  startsWith "." k = true → T !! k = None → lookup T k = None.
Proof.
  intros Hk Hnone. unfold lookup, get. rewrite Hnone.
  case_bool_decide as Hin; [|done]. exfalso. revert Hin Hk.
  unfold objectPrototypeKeys. rewrite !elem_of_cons, elem_of_nil.
  intros H; repeat (destruct H as [->|H]; [done|]); done.
Qed.

(** C3 (amended): a folder name that begins with exactly one dot (the rest
    does not begin with a dot) and has no direct entry in the folder table
    resolves to the same result as the name without the leading dot. *)
Theorem getFolderIcon_hidden foldername :
  startsWith "." (substring1 foldername) = false →
  resolvesAsUnprefixed foldername.
Proof.
  intros Hrest Hdot Hnone. unfold Resolution.getFolderIcon.
  rewrite (lookup_hidden _ _ Hdot Hnone), Hdot, Hrest.
  by destruct (lookup (folders M) (substring1 foldername)).
Qed.

End Lookup.

(** *** Resolution calls in sequence *)


Section Purity.

Variable toLowerCase : string → string.






End Purity.

(** *** Concrete tables *)


Definition tableXml : IconMappings := {|
  extensions := {[ "xml" := "data:xml"; "env" := "data:tune" ]};
  filenames := {[ "composer.json" := "data:composer" ]};
  folders := {[ "github" := "data:folder-github" ]};
  defaultFile := Some "data:file";
  defaultFolder := Some "data:folder";
  symlink := "data:symlink"
|}.



Lemma getFileIcon_base_ext_suffix_witness :
  getFileIcon asciiToLowerCase tableXml "phpcs.XML.dist" = Str "data:xml".
Proof.
  apply (getFileIcon_base_ext_suffix asciiToLowerCase tableXml
           "phpcs" "XML" "dist" "data:xml");
    try reflexivity.
  split; [reflexivity|done].
Defined.

Lemma getFileIcon_dotfile_witness :
  getFileIcon asciiToLowerCase tableXml ".env" = Str "data:tune".
Proof.
  apply (proj1 (getFileIcon_dotfile asciiToLowerCase tableXml "env"
                  eq_refl eq_refl)).
  split; [reflexivity|done].
Defined.

(** C3 as stated fails: [..github] begins with a dot and has no direct
    entry, but resolves to the default while [.github] resolves to the icon
    of [github]. *)
Lemma getFolderIcon_double_dot :
  ¬ resolvesAsUnprefixed tableXml "..github".
Proof.
  intros H. specialize (H eq_refl eq_refl). vm_compute in H. discriminate H.
Qed.

Lemma getFolderIcon_hidden_witness :
  getFolderIcon tableXml ".github" = getFolderIcon tableXml "github".
Proof.
  apply (getFolderIcon_hidden tableXml ".github"); reflexivity.
Defined.


End ResolutionFacts.

(** ** Facts about record extraction *)

Module ParserFacts.
Import Parser StringFacts.

(** Text in which every brace is matched. *)
Inductive balanced : string → Prop :=
| balanced_nil : balanced ""
| balanced_char c w :
    c ≠ "{"%char → c ≠ "}"%char → balanced w → balanced (String c w)
| balanced_nest w1 w2 :
    balanced w1 → balanced w2 → balanced ("{" +:+ w1 +:+ "}" +:+ w2).

(** Inside a block that is already open, balanced text is walked over
    without ending the block. *)
Lemma countBraces_balanced w :
  balanced w →
  ∀ rest i (d : Z) blockEnd, (0 < d)%Z →
    countBraces (w +:+ rest) i d true blockEnd =
    countBraces rest (i + String.length w) d true blockEnd.
Proof.
  induction 1 as [|c w Hc1 Hc2 Hw IH|w1 w2 H1 IH1 H2 IH2];
    intros rest i d blockEnd Hd.
  - simpl. by rewrite Nat.add_0_r.
  - rewrite append_cons. simpl.
    rewrite !bool_decide_eq_false_2 by done.
    rewrite IH by done. f_equal. lia.
  - rewrite !append_assoc.
    change ("{" +:+ w1 +:+ "}" +:+ w2 +:+ rest)
      with (String "{" (w1 +:+ String "}" (w2 +:+ rest))).
    cbn [countBraces]. rewrite bool_decide_eq_true_2 by done.
    rewrite IH1 by lia. cbn [countBraces].
    rewrite bool_decide_eq_false_2 by done.
    rewrite bool_decide_eq_true_2 by done.
    replace (d + 1 - 1)%Z with d by lia.
    rewrite (bool_decide_eq_false_2 (d = 0%Z)) by lia. simpl andb. cbv iota.
    rewrite IH2 by done. f_equal.
    change ("{" +:+ w1 +:+ "}" +:+ w2) with (String "{" (w1 +:+ String "}" w2)).
    simpl. rewrite length_append. simpl. lia.
Qed.

Lemma dropString_append pre s : dropString (String.length pre) (pre +:+ s) = s.
Proof. induction pre as [|c pre IH]; [by destruct s|]. by rewrite append_cons. Qed.

Lemma takeString_append a s : takeString (String.length a) (a +:+ s) = a.
Proof.
  induction a as [|c a IH]; [by destruct s|].
  rewrite append_cons. simpl. by rewrite IH.
Qed.

(** For a record whose braces are matched, the file-icon branch finds the
    closing brace that matches the opening one: the block is the whole
    record, however deep the braces inside it nest. *)
Lemma fileIconBlock_matching pre w rest :
  balanced w →
  fileIconBlock (pre +:+ "{" +:+ w +:+ "}" +:+ rest) (String.length pre) =
    Some ("{" +:+ w +:+ "}").
Proof.
  intros Hw. unfold fileIconBlock. rewrite dropString_append.
  change ("{" +:+ w +:+ "}" +:+ rest) with (String "{" (w +:+ String "}" rest)).
  cbn [countBraces]. rewrite bool_decide_eq_true_2 by done.
  rewrite (countBraces_balanced w Hw) by lia. cbn [countBraces].
  rewrite bool_decide_eq_false_2 by done.
  rewrite bool_decide_eq_true_2 by done.
  simpl andb. cbv iota.
  rewrite bool_decide_eq_false_2 by lia. simpl.
  f_equal. unfold substring.
  rewrite Nat.min_l, Nat.max_r by lia.
  rewrite dropString_append.
  replace (_ - String.length pre) with (String.length ("{" +:+ w +:+ "}")).
  - change (String "{" (w +:+ String "}" rest))
      with ("{" +:+ w +:+ "}" +:+ rest).
    replace ("{" +:+ w +:+ "}" +:+ rest) with (("{" +:+ w +:+ "}") +:+ rest).
    + apply takeString_append.
    + change ("{" +:+ w +:+ "}") with (String "{" (w +:+ "}")).
      rewrite append_cons. by rewrite append_assoc.
  - change ("{" +:+ w +:+ "}") with (String "{" (w +:+ "}")).
    simpl. rewrite length_append. simpl. lia.
Qed.

(** A folder-icon record with a nested object before its folder names. *)
Definition nestedFolderRecord : string :=
  "{ name: 'folder-app', enabledFor: { pack: 'none' }, folderNames: ['app'] }".

Lemma nestedFolderRecord_balanced :
  ∃ w, nestedFolderRecord = "{" +:+ w +:+ "}" ∧ balanced w.
Proof.
  exists (" name: 'folder-app', enabledFor: " +:+
          ("{" +:+ " pack: 'none' " +:+ "}" +:+
           ", folderNames: ['app'] ")).
  split; [reflexivity|].
  repeat first
    [ apply balanced_nil
    | apply balanced_nest
    | apply balanced_char; [discriminate|discriminate|] ].
Qed.

(** C9, folder branch: on [nestedFolderRecord] the folder-icon extraction
    ends the record at the first closing brace and loses the folder names,
    where the brace-counting extraction of the file-icon branch returns the
    whole record. *)
Theorem folderIconBlock_first_closing_brace :
  folderIconBlock nestedFolderRecord 0 =
    Some "{ name: 'folder-app', enabledFor: { pack: 'none' " ∧
  fileIconBlock nestedFolderRecord 0 = Some nestedFolderRecord.
Proof. split; reflexivity. Qed.

End ParserFacts.

(** ** Facts about the DOM operations *)

Module DomFacts.
Import Dom Engine.

Definition ids (d : dom) : list nat := nodeId <$> d.

(** A node without its inline style: what selectors, [classList], text and
    the tree structure show of it. *)
Definition styleless (dt : nodeData) : nodeData :=
  match dt with
  | ElementData e _ => ElementData e []
  | TextData s => TextData s
  end.

Definition shape (n : node) : node :=
  Node (nodeId n) (styleless (data n)) (ancestors n).

Lemma shape_nodeId n m : shape n = shape m → nodeId n = nodeId m.
Proof. intros H. exact (f_equal nodeId H). Qed.

Lemma shape_ancestors n m : shape n = shape m → ancestors n = ancestors m.
Proof. intros H. exact (f_equal ancestors H). Qed.

Lemma shape_data n m : shape n = shape m → styleless (data n) = styleless (data m).
Proof. intros H. exact (f_equal data H). Qed.

(** The element of a node, if it is one. *)
Definition elementData (n : node) : option element :=
  match data n with ElementData e _ => Some e | TextData _ => None end.

Lemma shape_elementData n m : shape n = shape m → elementData n = elementData m.
Proof.
  intros H%shape_data. unfold elementData.
  destruct (data n), (data m); simpl in H; congruence.
Qed.

Lemma shape_isElement n m : shape n = shape m → isElement n = isElement m.
Proof.
  intros H%shape_data. unfold isElement.
  destruct (data n), (data m); simpl in H; congruence.
Qed.

Lemma shape_textOf n m : shape n = shape m → textOf n = textOf m.
Proof.
  intros H%shape_data. unfold textOf.
  destruct (data n), (data m); simpl in H; congruence.
Qed.

Lemma shape_parentOf n m : shape n = shape m → parentOf n = parentOf m.
Proof. unfold parentOf. by intros ->%shape_ancestors. Qed.

Lemma shape_restyle prop v n : shape (restyle prop v n) = shape n.
Proof. unfold restyle, shape. by destruct n as [i [e st|s] a]. Qed.

Lemma shape_shape n : shape (shape n) = shape n.
Proof. unfold shape. simpl. by destruct (data n). Qed.

(** *** Identities *)

Lemma getNode_Some d x n : getNode d x = Some n → n ∈ d ∧ nodeId n = x.
Proof.
  unfold getNode. intros H. apply find_some in H as [H1 H2].
  split; [by apply list_elem_of_In|]. by apply Nat.eqb_eq.
Qed.

Lemma getNode_None d x : getNode d x = None ↔ x ∉ ids d.
Proof.
  unfold getNode, ids. induction d as [|n d IH]; simpl.
  - split; [intros _; apply not_elem_of_nil|done].
  - rewrite not_elem_of_cons. destruct (nodeId n =? x) eqn:E.
    + apply Nat.eqb_eq in E. split; [done|]. intros [H _]. by destruct H.
    + apply Nat.eqb_neq in E. rewrite IH. split; [by intros ?; split|by intros []].
Qed.

Lemma getNode_is_Some d x : x ∈ ids d → is_Some (getNode d x).
Proof.
  intros H. destruct (getNode d x) eqn:E; [done|].
  by apply getNode_None in E.
Qed.

Lemma getNode_unique d n :
  NoDup (ids d) → n ∈ d → getNode d (nodeId n) = Some n.
Proof.
  unfold getNode, ids. induction d as [|m d IH]; simpl.
  - intros _ H. by apply elem_of_nil in H.
  - intros [Hm Hd]%NoDup_cons [->|Hn]%elem_of_cons.
    + by rewrite Nat.eqb_refl.
    + destruct (nodeId m =? nodeId n) eqn:E; [|by apply IH].
      apply Nat.eqb_eq in E. exfalso. apply Hm. rewrite E.
      by apply list_elem_of_fmap_2.
Qed.

Lemma mentioned_ids d x : x ∈ ids d → x ∈ mentioned d.
Proof.
  unfold ids, mentioned. intros (n & -> & Hn)%list_elem_of_fmap.
  apply list_elem_of_In, in_flat_map. exists n.
  split; [by apply list_elem_of_In|]. by left.
Qed.

Lemma mentioned_ancestors d n a : n ∈ d → a ∈ ancestors n → a ∈ mentioned d.
Proof.
  unfold mentioned. intros Hn Ha.
  apply list_elem_of_In, in_flat_map. exists n.
  split; [by apply list_elem_of_In|]. right. by apply list_elem_of_In.
Qed.

Lemma foldr_max_le (l : list nat) x : x ∈ l → x ≤ foldr Nat.max 0 l.
Proof.
  induction l as [|y l IH]; simpl.
  - intros H. by apply elem_of_nil in H.
  - intros [->|H]%elem_of_cons; [lia|]. specialize (IH H). lia.
Qed.

Lemma freshId_fresh d : freshId d ∉ mentioned d.
Proof.
  unfold freshId. intros H%foldr_max_le. lia.
Qed.

Lemma freshId_not_id d : freshId d ∉ ids d.
Proof. intros H%mentioned_ids. by apply freshId_fresh in H. Qed.

(** *** DOMs that agree on the shapes of the known nodes *)

(** [d'] shows every node identity of [old] with the shape it has in [d]. *)
Definition agree (old : list nat) (d d' : dom) : Prop :=
  ∀ x, x ∈ old → shape <$> getNode d' x = shape <$> getNode d x.

Section Agree.

Variables (old : list nat) (d d' : dom).
Hypothesis Hagree : agree old d d'.

Lemma agree_elementOf x : x ∈ old → elementOf d' x = elementOf d x.
Proof.
  intros Hx. specialize (Hagree x Hx). unfold elementOf.
  destruct (getNode d' x) as [n'|], (getNode d x) as [n|];
    simpl in Hagree; try done.
  assert (shape n' = shape n) as H%shape_elementData by congruence.
  unfold elementData in H.
  destruct n' as [i [e st|s] a], n as [j [f su|t] b]; simpl in *; congruence.
Qed.

Lemma agree_parentNode x : x ∈ old → parentNode d' x = parentNode d x.
Proof.
  intros Hx. specialize (Hagree x Hx). unfold parentNode.
  destruct (getNode d' x) as [n'|], (getNode d x) as [n|];
    simpl in *; try done.
  assert (shape n' = shape n) as H by congruence. by apply shape_parentOf.
Qed.

Lemma agree_elementMatches x c :
  x ∈ old → elementMatches d' x c = elementMatches d x c.
Proof. intros Hx. unfold elementMatches. by rewrite agree_elementOf. Qed.

Lemma agree_matchesAncestors cs anc :
  (∀ a, a ∈ anc → a ∈ old) →
  matchesAncestors d' cs anc = matchesAncestors d cs anc.
Proof.
  revert anc. induction cs as [|c cs IH]; intros anc Hanc; [done|].
  simpl. induction anc as [|a anc IHa]; [done|].
  rewrite agree_elementMatches by (apply Hanc; left).
  rewrite (IH anc) by (intros b Hb; apply Hanc; by right).
  rewrite IHa; [done|]. intros b Hb. apply Hanc. by right.
Qed.

Lemma agree_matchesNode sel n n' :
  shape n = shape n' → (∀ a, a ∈ ancestors n → a ∈ old) →
  matchesNode d' sel n' = matchesNode d sel n.
Proof.
  intros Hs Hanc. unfold matchesNode.
  induction sel as [|cx sel IH]; [done|]. simpl. rewrite IH. f_equal.
  unfold matchesComplex.
  assert (ancestors n' = ancestors n) as -> by (symmetry; by apply shape_ancestors).
  apply shape_elementData in Hs. unfold elementData in Hs.
  destruct (data n) as [e st|s], (data n') as [e' st'|s']; try done.
  assert (e' = e) as -> by congruence.
  destruct (reverse cx) as [|subject outer]; [done|].
  by rewrite agree_matchesAncestors.
Qed.

End Agree.

Lemma agree_refl old d : agree old d d.
Proof. by intros x _. Qed.

(** *** DOMs that keep the nodes and gain replacement images *)

(** An element as [createIconImg] builds it. *)
Definition replacementImg (m : node) : bool :=
  match elementData m with
  | Some e =>
      bool_decide (tagName e = "img") && bool_decide (classList e = [MARKER])
  | None => false
  end.

Lemma shape_replacementImg n m :
  shape n = shape m → replacementImg n = replacementImg m.
Proof. unfold replacementImg. by intros ->%shape_elementData. Qed.

(** [d'] lists the nodes of [d], in the same order and with the same shapes,
    between replacement images whose identities are not in [old]. *)
Inductive extends (old : list nat) : dom → dom → Prop :=
| extends_nil : extends old [] []
| extends_keep n n' d d' :
    shape n = shape n' → extends old d d' → extends old (n :: d) (n' :: d')
| extends_new m d d' :
    replacementImg m = true → nodeId m ∉ old → extends old d d' →
    extends old d (m :: d').

Lemma extends_refl old d : extends old d d.
Proof. induction d; by constructor. Qed.

Lemma extends_app old d1 d1' d2 d2' :
  extends old d1 d1' → extends old d2 d2' → extends old (d1 ++ d2) (d1' ++ d2').
Proof. intros H1 H2. induction H1; simpl; [done|by constructor..]. Qed.

Lemma extends_insert old d1 d2 m :
  replacementImg m = true → nodeId m ∉ old →
  extends old (d1 ++ d2) (d1 ++ m :: d2).
Proof.
  intros Hm Hid. apply extends_app; [apply extends_refl|].
  constructor; [done..|apply extends_refl].
Qed.

Lemma extends_weaken old old' d d' :
  (∀ x, x ∈ old' → x ∈ old) → extends old d d' → extends old' d d'.
Proof. intros H. induction 1; constructor; auto. Qed.

Lemma extends_trans old d d' d'' :
  extends old d d' → extends old d' d'' → extends old d d''.
Proof.
  intros H1 H2. revert d H1.
  induction H2 as [|n' n'' d' d'' Hs H2 IH|m d' d'' Hm Hid H2 IH]; intros d H1.
  - done.
  - inversion H1 as [|n n0 d0 d0' Hs0 H0|m d0 d0' Hm Hid H0]; subst.
    + constructor; [congruence|by apply IH].
    + constructor; [|by rewrite <-(shape_nodeId _ _ Hs)|by apply IH].
      by rewrite <-(shape_replacementImg _ _ Hs).
  - constructor; [done..|by apply IH].
Qed.

Lemma extends_ids old d d' x : extends old d d' → x ∈ ids d → x ∈ ids d'.
Proof.
  unfold ids. induction 1 as [|n n' d d' Hs H IH|m d d' Hm Hid H IH]; simpl.
  - done.
  - rewrite !elem_of_cons, (shape_nodeId _ _ Hs). tauto.
  - rewrite elem_of_cons. tauto.
Qed.

Lemma extends_mentioned old d d' x :
  extends old d d' → x ∈ mentioned d → x ∈ mentioned d'.
Proof.
  unfold mentioned. induction 1 as [|n n' d d' Hs H IH|m d d' Hm Hid H IH];
    simpl.
  - done.
  - rewrite !elem_of_cons, !elem_of_app.
    rewrite (shape_nodeId _ _ Hs), (shape_ancestors _ _ Hs). tauto.
  - rewrite elem_of_cons, elem_of_app. tauto.
Qed.

Lemma extends_agree old d d' : extends old d d' → agree old d d'.
Proof.
  intros H x Hx. unfold getNode.
  induction H as [|n n' d d' Hs H IH|m d d' Hm Hid H IH]; simpl.
  - done.
  - rewrite <-(shape_nodeId _ _ Hs). destruct (nodeId n =? x); [|done].
    simpl. by rewrite Hs.
  - destruct (nodeId m =? x) eqn:E; [|done].
    apply Nat.eqb_eq in E. congruence.
Qed.

(** The nodes [d'] has beyond [old] are replacement images. *)
Lemma extends_new_node old d d' k :
  extends old d d' → (∀ x, x ∈ ids d → x ∈ old) →
  k ∈ d' → nodeId k ∉ old → replacementImg k = true.
Proof.
  unfold ids. induction 1 as [|n n' d d' Hs H IH|m d d' Hm Hid H IH];
    intros Hold Hk Hnew.
  - by apply elem_of_nil in Hk.
  - apply elem_of_cons in Hk as [->|Hk].
    + exfalso. apply Hnew, Hold. rewrite <-(shape_nodeId _ _ Hs). by left.
    + apply IH; [|done..]. intros x Hx. apply Hold. by right.
  - apply elem_of_cons in Hk as [->|Hk]; [done|]. by apply IH.
Qed.

(** Filtering on a property of the shape keeps the same known nodes. *)
Lemma extends_filter old (P P' : node → bool) (Q : node → Prop) d d' :
  extends old d d' →
  (∀ n n', shape n = shape n' → Q n → P' n' = P n) →
  (∀ m, replacementImg m = true → nodeId m ∉ old → P' m = false) →
  Forall Q d →
  nodeId <$> List.filter P' d' = nodeId <$> List.filter P d.
Proof.
  intros H HP Hnew. induction H as [|n n' d d' Hs H IH|m d d' Hm Hid H IH];
    simpl; intros HQ.
  - done.
  - apply Forall_cons in HQ as [HQn HQ]. rewrite (HP n n' Hs HQn).
    destruct (P n);
      [rewrite !fmap_cons, (shape_nodeId _ _ Hs); f_equal|]; by apply IH.
  - rewrite (Hnew m Hm Hid). by apply IH.
Qed.

(** What was found by a shape property is still found. *)
Lemma extends_filter_mono old (P P' : node → bool) (Q : node → Prop) d d' :
  extends old d d' →
  (∀ n n', shape n = shape n' → Q n → P n = true → P' n' = true) →
  Forall Q d →
  List.filter P d ≠ [] → List.filter P' d' ≠ [].
Proof.
  intros H HP. induction H as [|n n' d d' Hs H IH|m d d' Hm Hid H IH];
    simpl; intros HQ.
  - done.
  - apply Forall_cons in HQ as [HQn HQ]. destruct (P n) eqn:E.
    + intros _. by rewrite (HP n n' Hs HQn E).
    + intros Hne. destruct (P' n'); [done|]. by apply IH.
  - intros Hne. destruct (P' m); [done|]. by apply IH.
Qed.

Lemma Forall_mentioned d :
  Forall (λ n, ∀ a, a ∈ ancestors n → a ∈ mentioned d) d.
Proof.
  apply Forall_forall. intros n Hn a Ha. by eapply mentioned_ancestors.
Qed.

Lemma shape_isInclusiveDescendantOf x n m :
  shape n = shape m →
  isInclusiveDescendantOf x n = isInclusiveDescendantOf x m.
Proof.
  intros Hs. unfold isInclusiveDescendantOf, isDescendantOf.
  by rewrite (shape_ancestors _ _ Hs), (shape_nodeId _ _ Hs).
Qed.

Lemma extends_textContent old d d' x :
  extends old d d' → textContent d' x = textContent d x.
Proof.
  unfold textContent.
  induction 1 as [|n n' l l' Hs H IH|m l l' Hm Hid H IH]; simpl.
  - done.
  - rewrite (shape_isInclusiveDescendantOf x _ _ Hs).
    destruct (isInclusiveDescendantOf x n'); simpl;
      by rewrite IH, ?(shape_textOf _ _ Hs).
  - destruct (isInclusiveDescendantOf x m); [|done]. simpl. rewrite IH.
    unfold replacementImg, elementData in Hm. unfold textOf.
    by destruct (data m).
Qed.

(** A selector no replacement image matches. *)
Definition excludesReplacement (sel : selector) : Prop :=
  ∀ dd m, replacementImg m = true → matchesNode dd sel m = false.

(** *** The DOM after changes of style and insertions of replacements *)

Definition grows (d d' : dom) : Prop :=
  extends (mentioned d) d d' ∧ nodeId <$> head d' = nodeId <$> head d.

Lemma grows_refl d : grows d d.
Proof. split; [apply extends_refl|done]. Qed.

Lemma grows_trans d d' d'' : grows d d' → grows d' d'' → grows d d''.
Proof.
  intros [H1 Hh1] [H2 Hh2]. split; [|congruence].
  eapply extends_trans; [done|].
  eapply extends_weaken; [|done]. intros x Hx. by eapply extends_mentioned.
Qed.

Section Grows.

Variables (d d' : dom).
Hypothesis Hgrows : grows d d'.

Lemma grows_agree : agree (mentioned d) d d'.
Proof. apply extends_agree, Hgrows. Qed.

Lemma grows_getNode x n :
  getNode d x = Some n → ∃ n', getNode d' x = Some n' ∧ shape n' = shape n.
Proof.
  intros Hn. pose proof (getNode_Some _ _ _ Hn) as [Hin Hid].
  assert (x ∈ mentioned d) as Hx.
  { apply mentioned_ids. rewrite <-Hid. by apply list_elem_of_fmap_2. }
  pose proof (grows_agree x Hx) as H. rewrite Hn in H.
  destruct (getNode d' x) as [n'|]; [|done].
  exists n'. split; [done|]. simpl in H. congruence.
Qed.

Lemma grows_elementOf x : x ∈ mentioned d → elementOf d' x = elementOf d x.
Proof. apply agree_elementOf, grows_agree. Qed.

Lemma grows_parentNode x : x ∈ mentioned d → parentNode d' x = parentNode d x.
Proof. apply agree_parentNode, grows_agree. Qed.

Lemma grows_matches x sel :
  x ∈ mentioned d → matches d' x sel = matches d x sel.
Proof.
  intros Hx. unfold matches. pose proof (grows_agree x Hx) as H.
  destruct (getNode d' x) as [m'|] eqn:E', (getNode d x) as [m|] eqn:E;
    simpl in H; try done.
  apply (agree_matchesNode _ _ _ grows_agree); [congruence|].
  intros b Hb. eapply mentioned_ancestors; [|done].
  by apply getNode_Some in E as [? _].
Qed.

Lemma grows_find_matches sel l :
  (∀ a, a ∈ l → a ∈ mentioned d) →
  List.find (λ a, matches d' a sel) l = List.find (λ a, matches d a sel) l.
Proof.
  induction l as [|a l IH]; intros Hl; [done|]. simpl.
  rewrite grows_matches by (apply Hl; left).
  destruct (matches d a sel); [done|]. apply IH. intros b Hb. apply Hl. by right.
Qed.

Lemma grows_closest x sel : x ∈ ids d → closest d' x sel = closest d x sel.
Proof.
  intros Hx. unfold closest.
  destruct (getNode_is_Some _ _ Hx) as [n Hn].
  destruct (grows_getNode _ _ Hn) as (n' & Hn' & Hs). rewrite Hn, Hn'.
  simpl. rewrite (shape_ancestors _ _ Hs).
  change (List.find (λ a, matches d' a sel) (x :: ancestors n) =
          List.find (λ a, matches d a sel) (x :: ancestors n)).
  apply grows_find_matches.
  intros a [->|Ha]%elem_of_cons; [by apply mentioned_ids|].
  eapply mentioned_ancestors; [|done]. by apply getNode_Some in Hn as [? _].
Qed.

Lemma grows_classListContains x c :
  x ∈ mentioned d →
  classListContains d' (Some x) c = classListContains d (Some x) c.
Proof. intros Hx. unfold classListContains. simpl. by rewrite grows_elementOf. Qed.

Lemma grows_getAttribute x a :
  x ∈ mentioned d → getAttribute d' x a = getAttribute d x a.
Proof. intros Hx. unfold getAttribute. by rewrite grows_elementOf. Qed.

Lemma grows_querySelectorAll scope sel :
  excludesReplacement sel →
  querySelectorAll d' scope sel = querySelectorAll d scope sel.
Proof.
  intros Hsel. unfold querySelectorAll.
  eapply extends_filter; [apply Hgrows| | |apply Forall_mentioned].
  - intros n n' Hs Hanc.
    unfold isDescendantOf. rewrite (shape_ancestors _ _ Hs). f_equal.
    by apply (agree_matchesNode _ _ _ grows_agree).
  - intros m Hm _. by rewrite (Hsel _ _ Hm), andb_false_r.
Qed.

Lemma grows_querySelector scope sel :
  excludesReplacement sel →
  querySelector d' scope sel = querySelector d scope sel.
Proof. intros Hsel. unfold querySelector. by rewrite grows_querySelectorAll. Qed.

Lemma grows_documentQuerySelectorAll sel :
  excludesReplacement sel →
  documentQuerySelectorAll d' sel = documentQuerySelectorAll d sel.
Proof.
  intros Hsel. unfold documentQuerySelectorAll.
  eapply extends_filter; [apply Hgrows| | |apply Forall_mentioned].
  - intros n n' Hs Hanc.
    unfold inDocument. destruct Hgrows as [_ ->].
    rewrite (shape_ancestors _ _ Hs), (shape_nodeId _ _ Hs). f_equal.
    by apply (agree_matchesNode _ _ _ grows_agree).
  - intros m Hm _. by rewrite (Hsel _ _ Hm), andb_false_r.
Qed.

(** A replacement found under [scope] is still found, or another one is. *)
Lemma grows_querySelector_mono scope sel :
  is_Some (querySelector d scope sel) → is_Some (querySelector d' scope sel).
Proof.
  unfold querySelector, querySelectorAll. intros H.
  assert (List.filter (λ n, isDescendantOf scope n && matchesNode d sel n) d ≠ [])
    as Hne.
  { intros E. rewrite E in H. by destruct H. }
  eapply (extends_filter_mono _ _
            (λ n, isDescendantOf scope n && matchesNode d' sel n))
    in Hne; [|apply Hgrows| |apply Forall_mentioned].
  - destruct (List.filter _ d'); [done|]. by eexists.
  - intros n n' Hs Hanc HP. simpl in HP.
    unfold isDescendantOf in *. rewrite <-(shape_ancestors _ _ Hs).
    by rewrite (agree_matchesNode _ _ _ grows_agree sel n n' Hs Hanc).
Qed.

Lemma grows_textContent x : textContent d' x = textContent d x.
Proof. eapply extends_textContent, Hgrows. Qed.

End Grows.

(** *** Lists of nodes split at an insertion point *)

Lemma ids_app l1 l2 : ids (l1 ++ l2) = ids l1 ++ ids l2.
Proof. unfold ids. apply fmap_app. Qed.

Lemma getNode_app l1 l2 x :
  getNode (l1 ++ l2) x =
    match getNode l1 x with Some n => Some n | None => getNode l2 x end.
Proof.
  unfold getNode. induction l1 as [|n l1 IH]; simpl; [done|].
  by destruct (nodeId n =? x).
Qed.

Lemma getNode_insert l1 l2 m x :
  nodeId m ≠ x → getNode (l1 ++ m :: l2) x = getNode (l1 ++ l2) x.
Proof.
  intros Hm. rewrite !getNode_app. destruct (getNode l1 x); [done|].
  unfold getNode. simpl. by apply Nat.eqb_neq in Hm as ->.
Qed.

Lemma getNode_inserted l1 l2 m :
  nodeId m ∉ ids l1 → getNode (l1 ++ m :: l2) (nodeId m) = Some m.
Proof.
  intros Hm. rewrite getNode_app. apply getNode_None in Hm as ->.
  unfold getNode. simpl. by rewrite Nat.eqb_refl.
Qed.

Lemma after_app_in x l1 l2 : x ∈ ids l1 → after x (l1 ++ l2) = after x l1 ++ l2.
Proof.
  unfold ids. induction l1 as [|n l1 IH]; simpl.
  - intros H. by apply elem_of_nil in H.
  - intros H. destruct (nodeId n =? x) eqn:E; [done|].
    apply IH. apply elem_of_cons in H as [->|H]; [|done].
    by rewrite Nat.eqb_refl in E.
Qed.

Lemma after_app_notin x l1 l2 : x ∉ ids l1 → after x (l1 ++ l2) = after x l2.
Proof.
  unfold ids. induction l1 as [|n l1 IH]; simpl; [done|].
  intros [H1 H2]%not_elem_of_cons.
  destruct (nodeId n =? x) eqn:E; [|by apply IH].
  apply Nat.eqb_eq in E. congruence.
Qed.

Lemma find_app {A} (P : A → bool) l1 l2 :
  List.find P (l1 ++ l2) =
    match List.find P l1 with Some a => Some a | None => List.find P l2 end.
Proof. induction l1 as [|a l1 IH]; simpl; [done|]. by destruct (P a). Qed.

Lemma find_None_elem {A} (P : A → bool) l a :
  List.find P l = None → a ∈ l → P a = false.
Proof.
  intros H Ha. apply list_elem_of_In in Ha.
  by apply (find_none _ _ H).
Qed.

Lemma elem_of_after x l n :
  NoDup (ids l) → n ∈ l → x ∈ ids l → nodeId n ≠ x →
  n ∈ after x l ∨ ∃ xn, xn ∈ after (nodeId n) l ∧ nodeId xn = x.
Proof.
  unfold ids. induction l as [|m l IH]; simpl; intros Hnd Hn Hx Hne.
  - by apply elem_of_nil in Hn.
  - apply NoDup_cons in Hnd as [Hm Hnd].
    destruct (nodeId m =? x) eqn:E.
    + apply Nat.eqb_eq in E. left.
      apply elem_of_cons in Hn as [->|Hn]; [congruence|done].
    + apply Nat.eqb_neq in E.
      apply elem_of_cons in Hx as [->|Hx]; [done|].
      apply elem_of_cons in Hn as [->|Hn].
      * right. rewrite Nat.eqb_refl.
        apply list_elem_of_fmap in Hx as (xn & -> & Hxn). by exists xn.
      * destruct (nodeId m =? nodeId n) eqn:E2.
        { apply Nat.eqb_eq in E2. exfalso. apply Hm. rewrite E2.
          by apply list_elem_of_fmap_2. }
        by apply IH.
Qed.

(** The element sibling test [nextElementSibling] searches with. *)
Definition isElementChildOf (p : nat) (m : node) : bool :=
  isChildOf p m && isElement m.

Lemma nextElementSibling_unfold d x :
  nextElementSibling d x =
    n ← getNode d x; p ← parentOf n;
    nodeId <$> List.find (isElementChildOf p) (after x d).
Proof. reflexivity. Qed.

(** Inserting a node changes the next element sibling of [x] only when the
    node becomes that sibling. *)
Lemma nextElementSibling_insert l1 l2 m x :
  nodeId m ≠ x →
  (∀ n q, getNode (l1 ++ l2) x = Some n → parentOf n = Some q →
          isElementChildOf q m = true → x ∈ ids l1 →
          is_Some (List.find (isElementChildOf q) (after x l1))) →
  nextElementSibling (l1 ++ m :: l2) x = nextElementSibling (l1 ++ l2) x.
Proof.
  intros Hm Hside. rewrite !nextElementSibling_unfold.
  rewrite (getNode_insert _ _ _ _ Hm).
  destruct (getNode (l1 ++ l2) x) as [n|] eqn:En; [|done]. simpl.
  destruct (parentOf n) as [q|] eqn:Eq; [|done]. simpl. f_equal.
  destruct (decide (x ∈ ids l1)) as [Hin|Hout].
  - rewrite !after_app_in by done. rewrite !find_app.
    destruct (List.find (isElementChildOf q) (after x l1)) eqn:Ef; [done|].
    simpl. destruct (isElementChildOf q m) eqn:Em; [|done].
    destruct (Hside n q eq_refl Eq Em Hin) as [? ?]. congruence.
  - rewrite !after_app_notin by done. simpl.
    by apply Nat.eqb_neq in Hm as ->.
Qed.

(** [child] was put among the children of [p], right after [S]. *)
Definition insertedAfter (d d2 : dom) (S p : nat) (child : node) : Prop :=
  ∃ l1 l2, d = l1 ++ l2 ∧ d2 = l1 ++ child :: l2 ∧ S ∈ ids l1 ∧
           List.find (isChildOf p) (after S l1) = None.

(** [child] was put before all children of [E]. *)
Definition insertedFirst (d d2 : dom) (E : nat) (child : node) : Prop :=
  ∃ l1 l2, d = l1 ++ l2 ∧ d2 = l1 ++ child :: l2 ∧ l1 ≠ [] ∧
           List.find (isChildOf E) l1 = None.

Lemma find_isElementChildOf_None p l :
  List.find (isChildOf p) l = None → List.find (isElementChildOf p) l = None.
Proof.
  induction l as [|n l IH]; simpl; [done|]. unfold isElementChildOf.
  destruct (isChildOf p n); [done|]. simpl. apply IH.
Qed.

Lemma insertedAfter_nextElementSibling d d2 S p sn child :
  insertedAfter d d2 S p child →
  getNode d S = Some sn → parentOf sn = Some p →
  nodeId child ∉ ids d → parentOf child = Some p → isElement child = true →
  nextElementSibling d2 S = Some (nodeId child).
Proof.
  intros (l1 & l2 & -> & -> & HS & Hnone) Hsn Hp Hfresh Hcp Hce.
  rewrite nextElementSibling_unfold.
  rewrite (getNode_insert l1 l2 child S), Hsn.
  - simpl. rewrite Hp. simpl. rewrite after_app_in, find_app by done.
    rewrite (find_isElementChildOf_None _ _ Hnone). simpl.
    unfold isElementChildOf, isChildOf. rewrite Hcp, Hce.
    by rewrite bool_decide_eq_true_2.
  - intros E. apply Hfresh. rewrite ids_app, E, elem_of_app. by left.
Qed.

Lemma insertedAfter_other d d2 S p sn child x :
  insertedAfter d d2 S p child →
  NoDup (ids d) →
  getNode d S = Some sn → parentOf sn = Some p → isElement sn = true →
  nodeId child ∉ ids d → parentOf child = Some p →
  x ∈ ids d → x ≠ S →
  nextElementSibling d2 x = nextElementSibling d x.
Proof.
  intros (l1 & l2 & -> & -> & HS & Hnone) Hnd Hsn Hp Hse Hfresh Hcp Hx HxS.
  apply nextElementSibling_insert.
  { intros E. by rewrite E in Hfresh. }
  intros n q Hn Hq Hm Hin.
  assert (q = p) as ->.
  { unfold isElementChildOf, isChildOf in Hm.
    apply andb_prop in Hm as [Hm%bool_decide_eq_true_1 _]. congruence. }
  rewrite ids_app in Hnd. apply NoDup_app in Hnd as (Hnd1 & _ & _).
  rewrite getNode_app in Hn, Hsn.
  destruct (getNode_is_Some _ _ Hin) as [n1 Hn1]. rewrite Hn1 in Hn.
  destruct (getNode_is_Some _ _ HS) as [s1 Hs1]. rewrite Hs1 in Hsn.
  assert (n1 = n) as -> by congruence. assert (s1 = sn) as -> by congruence.
  apply getNode_Some in Hn1 as [Hn1 Hidn], Hs1 as [Hs1 Hids].
  destruct (elem_of_after x l1 sn Hnd1 Hs1 Hin) as [Ha|(xn & Ha & Hxn)].
  { congruence. }
  - destruct (List.find (isElementChildOf p) (after x l1)) eqn:Ef; [done|].
    pose proof (find_None_elem _ _ _ Ef Ha) as Hf.
    unfold isElementChildOf, isChildOf in Hf.
    by rewrite Hp, Hse, bool_decide_eq_true_2 in Hf.
  - rewrite Hids in Ha.
    assert (xn = n) as ->.
    { assert (xn ∈ l1) as Hxl.
      { clear -Ha. induction l1 as [|m l IH]; simpl in Ha; [done|].
        destruct (nodeId m =? S); [by right|]. right. by apply IH. }
      pose proof (getNode_unique _ _ Hnd1 Hxl) as H1.
      pose proof (getNode_unique _ _ Hnd1 Hn1) as H2.
      rewrite Hxn, <-Hidn in H1. congruence. }
    pose proof (find_None_elem _ _ _ Hnone Ha) as Hf.
    unfold isChildOf in Hf. by rewrite Hq, bool_decide_eq_true_2 in Hf.
Qed.

Lemma insertedFirst_nextElementSibling d d2 E child x :
  insertedFirst d d2 E child →
  NoDup (ids d) → nodeId child ∉ ids d → parentOf child = Some E →
  x ∈ ids d →
  nextElementSibling d2 x = nextElementSibling d x.
Proof.
  intros (l1 & l2 & -> & -> & Hne & Hnone) Hnd Hfresh Hcp Hx.
  apply nextElementSibling_insert.
  { intros E'. by rewrite E' in Hfresh. }
  intros n q Hn Hq Hm Hin.
  assert (q = E) as ->.
  { unfold isElementChildOf, isChildOf in Hm.
    apply andb_prop in Hm as [Hm%bool_decide_eq_true_1 _]. congruence. }
  rewrite getNode_app in Hn.
  destruct (getNode_is_Some _ _ Hin) as [n1 Hn1]. rewrite Hn1 in Hn.
  assert (n1 = n) as -> by congruence.
  apply getNode_Some in Hn1 as [Hn1 _].
  pose proof (find_None_elem _ _ _ Hnone Hn1) as Hf.
  unfold isChildOf in Hf. by rewrite Hq, bool_decide_eq_true_2 in Hf.
Qed.

(** *** Well-formed DOMs *)

(** Node identities are unique, the parent of a node is an element of the
    DOM, and the first node is a root. *)
Definition wellFormed (d : dom) : Prop :=
  NoDup (ids d) ∧
  (∀ n p, n ∈ d → parentOf n = Some p →
          ∃ pn, getNode d p = Some pn ∧ isElement pn = true) ∧
  (∀ n, head d = Some n → ancestors n = []).

Lemma elem_of_after_elem x l n : n ∈ after x l → n ∈ l.
Proof.
  induction l as [|m l IH]; simpl; [done|].
  destruct (nodeId m =? x); intros H; right; [done|by apply IH].
Qed.

Lemma insertAt_split r child d rn :
  getNode d r = Some rn →
  ∃ l1 l2, d = l1 ++ (rn :: l2) ∧ (r ∉ ids l1) ∧
           insertAt r child d = l1 ++ child :: rn :: l2.
Proof.
  unfold getNode, ids. induction d as [|n d IH]; simpl; [done|].
  destruct (nodeId n =? r) eqn:E.
  - intros [= ->]. exists [], d. split; [done|]. split; [|done].
    apply not_elem_of_nil.
  - intros H. destruct (IH H) as (l1 & l2 & -> & Hr & ->).
    exists (n :: l1), l2. split; [done|]. split; [|done].
    simpl. apply not_elem_of_cons. split; [|done].
    apply Nat.eqb_neq in E. congruence.
Qed.

Lemma existsb_false_elem {A} (P : A → bool) l a :
  existsb P l = false → a ∈ l → P a = false.
Proof.
  intros H Ha. destruct (P a) eqn:E; [|done].
  assert (existsb P l = true); [|congruence].
  apply existsb_exists. exists a. split; [by apply list_elem_of_In|done].
Qed.

Lemma insertLast_split p child d k :
  k ∈ d → isInclusiveDescendantOf p k = true →
  ∃ l1 l2, d = l1 ++ l2 ∧ l1 ≠ [] ∧
           (∀ n, n ∈ l2 → isInclusiveDescendantOf p n = false) ∧
           insertLast p child d = l1 ++ child :: l2.
Proof.
  revert k. induction d as [|n d IH]; simpl; intros k Hk Hp.
  - by apply elem_of_nil in Hk.
  - destruct (existsb (isInclusiveDescendantOf p) d) eqn:Ex.
    + rewrite andb_false_r.
      apply existsb_exists in Ex as (k' & Hk'%list_elem_of_In & Hp').
      destruct (IH k' Hk' Hp') as (l1 & l2 & -> & Hne & Hl2 & ->).
      by exists (n :: l1), l2.
    + apply elem_of_cons in Hk as [->|Hk].
      * rewrite Hp. simpl. exists [n], d. repeat split; [done|].
        intros m Hm. by eapply existsb_false_elem.
      * by rewrite (existsb_false_elem _ _ _ Ex Hk) in Hp.
Qed.

Lemma find_Some_elem {A} (P : A → bool) l a :
  List.find P l = Some a → a ∈ l ∧ P a = true.
Proof. intros [H1 H2]%find_some. split; [by apply list_elem_of_In|done]. Qed.

Lemma nextSibling_unfold d x :
  nextSibling d x =
    n ← getNode d x; p ← parentOf n;
    nodeId <$> List.find (isChildOf p) (after x d).
Proof. reflexivity. Qed.

Lemma parentOf_isDescendantOf n p :
  parentOf n = Some p → isInclusiveDescendantOf p n = true.
Proof.
  unfold parentOf, isInclusiveDescendantOf, isDescendantOf.
  destruct (ancestors n) as [|a l]; [done|]. intros [= ->].
  rewrite bool_decide_eq_true_2; [by rewrite orb_true_r|by left].
Qed.

(** The node [insertBefore] places: [new] with the ancestors of a child of
    [parent]. *)
Definition placed (new : node) (parent : nat) (pn : node) : node :=
  Node (nodeId new) (data new) (parent :: ancestors pn).

Lemma insertBefore_nextSibling d S sn p pn new :
  NoDup (ids d) →
  getNode d S = Some sn → parentOf sn = Some p →
  getNode d p = Some pn → isElement pn = true →
  ∃ d2, insertBefore d p new (nextSibling d S) = Some d2 ∧
        insertedAfter d d2 S p (placed new p pn).
Proof.
  intros Hnd Hsn Hp Hpn Hpe. unfold insertBefore. rewrite Hpn. simpl.
  rewrite Hpe. rewrite nextSibling_unfold, Hsn. simpl. rewrite Hp. simpl.
  fold (placed new p pn).
  assert (S ∈ ids d) as HS.
  { apply getNode_Some in Hsn as [? <-]. by apply list_elem_of_fmap_2. }
  destruct (List.find (isChildOf p) (after S d)) as [rn|] eqn:Ef; simpl.
  - apply find_Some_elem in Ef as Hrn. destruct Hrn as [Hrn Hrp].
    pose proof (elem_of_after_elem _ _ _ Hrn) as Hrd.
    rewrite (getNode_unique _ _ Hnd Hrd). simpl. rewrite Hrp.
    destruct (insertAt_split (nodeId rn) (placed new p pn) d rn
                (getNode_unique _ _ Hnd Hrd)) as (l1 & l2 & Hd & Hr & ->).
    eexists. split; [done|]. exists l1, (rn :: l2).
    split; [done|]. split; [done|].
    subst d. rewrite ids_app in Hnd, HS. simpl in Hnd.
    apply NoDup_app in Hnd as (Hnd1 & Hdisj & Hnd2).
    apply NoDup_cons in Hnd2 as [Hrl2 Hnd2].
    assert (S ∈ ids l1) as HS1.
    { destruct (decide (S ∈ ids l1)) as [|Hout]; [done|]. exfalso.
      rewrite after_app_notin in Hrn by done. simpl in Hrn.
      destruct (nodeId rn =? S).
      - apply Hrl2. by apply list_elem_of_fmap_2.
      - apply elem_of_after_elem in Hrn. apply Hrl2.
        by apply list_elem_of_fmap_2. }
    split; [done|].
    rewrite after_app_in, find_app in Ef by done.
    destruct (List.find (isChildOf p) (after S l1)) as [k|] eqn:Ek; [|done].
    exfalso. injection Ef as ->. apply find_Some_elem in Ek as [Hk _].
    apply elem_of_after_elem in Hk. apply Hr. by apply list_elem_of_fmap_2.
  - pose proof (getNode_Some _ _ _ Hsn) as [Hsd _].
    destruct (insertLast_split p (placed new p pn) d sn Hsd
                (parentOf_isDescendantOf _ _ Hp)) as (l1 & l2 & Hd & Hne & Hl2 & ->).
    eexists. split; [done|]. exists l1, l2. split; [done|]. split; [done|].
    subst d.
    assert (S ∈ ids l1) as HS1.
    { apply elem_of_app in Hsd as [Hs1|Hs2].
      - apply getNode_Some in Hsn as [_ <-]. by apply list_elem_of_fmap_2.
      - pose proof (parentOf_isDescendantOf _ _ Hp) as Hincl.
        by rewrite (Hl2 _ Hs2) in Hincl. }
    split; [done|].
    rewrite after_app_in, find_app in Ef by done.
    by destruct (List.find (isChildOf p) (after S l1)).
Qed.

Lemma insertBefore_firstChild d E en new :
  wellFormed d → getNode d E = Some en → isElement en = true →
  ∃ d2, insertBefore d E new (firstChild d E) = Some d2 ∧
        insertedFirst d d2 E (placed new E en).
Proof.
  intros (Hnd & _ & Hroot) Hen Hee. unfold insertBefore. rewrite Hen. simpl.
  rewrite Hee. fold (placed new E en). unfold firstChild.
  destruct (List.find (isChildOf E) d) as [rn|] eqn:Ef; simpl.
  - apply find_Some_elem in Ef as Hrn. destruct Hrn as [Hrd Hrp].
    rewrite (getNode_unique _ _ Hnd Hrd). simpl. rewrite Hrp.
    destruct (insertAt_split (nodeId rn) (placed new E en) d rn
                (getNode_unique _ _ Hnd Hrd)) as (l1 & l2 & Hd & Hr & ->).
    eexists. split; [done|]. exists l1, (rn :: l2).
    split; [done|]. split; [done|]. subst d. split.
    + intros ->. specialize (Hroot rn eq_refl).
      unfold isChildOf, parentOf in Hrp. rewrite Hroot in Hrp.
      by apply bool_decide_eq_true_1 in Hrp.
    + rewrite find_app in Ef.
      destruct (List.find (isChildOf E) l1) as [k|] eqn:Ek; [|done].
      exfalso. injection Ef as ->. apply find_Some_elem in Ek as [Hk _].
      apply Hr. by apply list_elem_of_fmap_2.
  - pose proof (getNode_Some _ _ _ Hen) as [Hed Heid].
    assert (isInclusiveDescendantOf E en = true) as Hincl.
    { unfold isInclusiveDescendantOf. by rewrite Heid, Nat.eqb_refl. }
    destruct (insertLast_split E (placed new E en) d en Hed Hincl)
      as (l1 & l2 & Hd & Hne & Hl2 & ->).
    eexists. split; [done|]. exists l1, l2. split; [done|]. split; [done|].
    split; [done|]. subst d. rewrite find_app in Ef.
    by destruct (List.find (isChildOf E) l1).
Qed.

(** *** Changes of style *)

Lemma ids_setStyle d x prop v : ids (setStyle d x prop v) = ids d.
Proof.
  unfold ids, setStyle. rewrite <-list_fmap_compose. apply list_fmap_ext.
  intros i n _. simpl. destruct (nodeId n =? x); [|done].
  unfold restyle. by destruct (data n).
Qed.

Lemma getNode_setStyle d x prop v y :
  getNode (setStyle d x prop v) y =
    (λ n, if nodeId n =? x then restyle prop v n else n) <$> getNode d y.
Proof.
  unfold getNode, setStyle. induction d as [|n d IH]; simpl; [done|].
  assert (nodeId (if nodeId n =? x then restyle prop v n else n) = nodeId n)
    as ->.
  { destruct (nodeId n =? x); [|done]. unfold restyle. by destruct (data n). }
  by destruct (nodeId n =? y).
Qed.

Lemma setStyle_extends old d x prop v : extends old d (setStyle d x prop v).
Proof.
  unfold setStyle. induction d as [|n d IH]; simpl; constructor; [|done].
  destruct (nodeId n =? x); [|done]. by rewrite shape_restyle.
Qed.

Lemma setStyle_grows d x prop v : grows d (setStyle d x prop v).
Proof.
  split; [apply setStyle_extends|]. unfold setStyle.
  destruct d as [|n d]; [done|]. simpl. f_equal.
  destruct (nodeId n =? x); [|done]. unfold restyle. by destruct (data n).
Qed.

Lemma grows_wellFormed_same d d' :
  grows d d' → ids d' = ids d → wellFormed d → wellFormed d'.
Proof.
  intros Hg Hids (Hnd & Hpar & Hroot). split; [by rewrite Hids|]. split.
  - intros n' p Hn' Hp.
    assert (nodeId n' ∈ ids d) as Hin.
    { rewrite <-Hids. by apply list_elem_of_fmap_2. }
    destruct (getNode_is_Some _ _ Hin) as [n Hn].
    destruct (grows_getNode _ _ Hg _ _ Hn) as (n2 & Hn2 & Hs).
    assert (n2 = n') as ->.
    { rewrite <-Hids in Hnd. rewrite (getNode_unique _ _ Hnd Hn') in Hn2.
      congruence. }
    rewrite (shape_parentOf _ _ Hs) in Hp.
    apply getNode_Some in Hn as Hn0. destruct Hn0 as [Hnd0 _].
    destruct (Hpar n p Hnd0 Hp) as (pn & Hpn & Hpe).
    destruct (grows_getNode _ _ Hg _ _ Hpn) as (pn' & Hpn' & Hps).
    exists pn'. split; [done|]. by rewrite (shape_isElement _ _ Hps).
  - intros n' Hh. destruct Hg as [Hext Hhead].
    destruct d as [|n d0]; [by rewrite Hh in Hhead|].
    inversion Hext as [|? ? ? ? Hs Hx|m ? ? Hm Hid Hx]; subst.
    + simpl in Hh. injection Hh as <-.
      rewrite <-(shape_ancestors _ _ Hs). by apply Hroot.
    + simpl in Hh, Hhead. injection Hh as <-. injection Hhead as Hmn.
      exfalso. apply Hid. rewrite Hmn. apply mentioned_ids. by left.
Qed.

Lemma setStyle_wellFormed d x prop v :
  wellFormed d → wellFormed (setStyle d x prop v).
Proof.
  apply grows_wellFormed_same; [apply setStyle_grows|apply ids_setStyle].
Qed.

Lemma getStyle_setStyle d x prop v :
  isElement <$> getNode d x = Some true →
  getStyle (setStyle d x prop v) x prop = v.
Proof.
  unfold getStyle. rewrite getNode_setStyle.
  destruct (getNode d x) as [n|] eqn:E; [|done]. simpl.
  apply getNode_Some in E as [_ ->]. rewrite Nat.eqb_refl.
  unfold isElement, restyle. destruct n as [i [e st|s] a]; simpl; [|done].
  intros _. clear. induction st as [|[k w] st IH]; simpl.
  - by rewrite bool_decide_eq_true_2.
  - case_bool_decide as E; simpl.
    + by rewrite bool_decide_eq_true_2.
    + by rewrite bool_decide_eq_false_2.
Qed.

Lemma assoc_setProperty_ne prop v st k :
  k ≠ prop → assoc k (setProperty prop v st) = assoc k st.
Proof.
  intros Hk. induction st as [|[k' w] st IH]; simpl.
  - by rewrite bool_decide_eq_false_2.
  - case_bool_decide as E; simpl.
    + subst k'. by rewrite !bool_decide_eq_false_2.
    + by rewrite IH.
Qed.

Lemma getStyle_setStyle_ne d x prop v y k :
  k ≠ prop → getStyle (setStyle d x prop v) y k = getStyle d y k.
Proof.
  intros Hk. unfold getStyle. rewrite getNode_setStyle.
  destruct (getNode d y) as [n|]; [|done]. simpl.
  destruct (nodeId n =? x); [|done].
  unfold restyle. destruct n as [i [e st|s] a]; simpl; [|done].
  by rewrite assoc_setProperty_ne.
Qed.

Lemma getStyle_setStyle_other d x prop v y k :
  y ≠ x → getStyle (setStyle d x prop v) y k = getStyle d y k.
Proof.
  intros Hy. unfold getStyle. rewrite getNode_setStyle.
  destruct (getNode d y) as [n|] eqn:E; [|done]. simpl.
  apply getNode_Some in E as [_ <-]. by apply Nat.eqb_neq in Hy as ->.
Qed.

(** *** Insertions *)

Lemma inserted_grows l1 l2 child :
  l1 ≠ [] → replacementImg child = true →
  nodeId child ∉ mentioned (l1 ++ l2) →
  grows (l1 ++ l2) (l1 ++ child :: l2).
Proof.
  intros Hne Hc Hfresh. split; [by apply extends_insert|].
  by destruct l1.
Qed.

Lemma inserted_wellFormed l1 l2 child p pn :
  wellFormed (l1 ++ l2) → l1 ≠ [] →
  nodeId child ∉ ids (l1 ++ l2) →
  parentOf child = Some p →
  getNode (l1 ++ l2) p = Some pn → isElement pn = true →
  wellFormed (l1 ++ child :: l2).
Proof.
  intros (Hnd & Hpar & Hroot) Hne Hfresh Hcp Hpn Hpe.
  assert (∀ q, q ∈ ids (l1 ++ l2) →
               getNode (l1 ++ child :: l2) q = getNode (l1 ++ l2) q) as Hget.
  { intros q Hq. apply getNode_insert. intros E. by rewrite E in Hfresh. }
  split; [|split].
  - rewrite ids_app in *. simpl.
    apply NoDup_app in Hnd as (H1 & H2 & H3).
    apply NoDup_app. split; [done|]. split.
    + intros x Hx [->|Hx2]%elem_of_cons; [|by eapply H2].
      apply Hfresh, elem_of_app. by left.
    + apply NoDup_cons. split; [|done]. intros Hx. apply Hfresh, elem_of_app.
      by right.
  - intros n q Hn Hq.
    assert (n = child ∨ n ∈ l1 ++ l2) as [->|Hn'].
    { rewrite elem_of_app, elem_of_cons in Hn. rewrite elem_of_app. tauto. }
    + assert (q = p) as -> by congruence. exists pn. split; [|done].
      rewrite Hget; [done|]. apply getNode_Some in Hpn as [? <-].
      by apply list_elem_of_fmap_2.
    + destruct (Hpar n q Hn' Hq) as (qn & Hqn & Hqe). exists qn.
      split; [|done]. rewrite Hget; [done|].
      apply getNode_Some in Hqn as [? <-]. by apply list_elem_of_fmap_2.
  - intros n Hh. destruct l1 as [|m l1]; [done|]. simpl in Hh.
    apply Hroot. by simpl.
Qed.

(** *** What queries return *)

Lemma querySelectorAll_elem d scope sel x :
  x ∈ querySelectorAll d scope sel →
  ∃ n, n ∈ d ∧ nodeId n = x ∧ isDescendantOf scope n = true ∧
       matchesNode d sel n = true.
Proof.
  unfold querySelectorAll. intros (n & -> & Hn)%list_elem_of_fmap.
  apply list_elem_of_In, filter_In in Hn as [Hn HP].
  apply andb_prop in HP as [H1 H2]. exists n.
  split; [by apply list_elem_of_In|done].
Qed.

Lemma querySelector_Some d scope sel x :
  querySelector d scope sel = Some x →
  ∃ n, n ∈ d ∧ nodeId n = x ∧ isDescendantOf scope n = true ∧
       matchesNode d sel n = true.
Proof.
  unfold querySelector. intros H. apply querySelectorAll_elem.
  destruct (querySelectorAll d scope sel); [done|].
  injection H as ->. by left.
Qed.

Lemma querySelector_ids d scope sel x :
  querySelector d scope sel = Some x → x ∈ ids d.
Proof.
  intros (n & Hn & <- & _)%querySelector_Some. by apply list_elem_of_fmap_2.
Qed.

Lemma querySelector_found d scope sel n :
  n ∈ d → isDescendantOf scope n = true → matchesNode d sel n = true →
  is_Some (querySelector d scope sel).
Proof.
  intros Hn H1 H2. unfold querySelector, querySelectorAll.
  assert (n ∈ List.filter (λ n, isDescendantOf scope n && matchesNode d sel n) d)
    as Hf.
  { apply list_elem_of_In, filter_In. split; [by apply list_elem_of_In|].
    by rewrite H1, H2. }
  destruct (List.filter _ d); [by apply elem_of_nil in Hf|]. by eexists.
Qed.

Lemma closest_Some d x sel y :
  closest d x sel = Some y → matches d y sel = true ∧ y ∈ ids d.
Proof.
  unfold closest. destruct (getNode d x) as [n|]; [|done]. intros H0.
  assert (List.find (λ a, matches d a sel) (x :: ancestors n) = Some y)
    as [_ H]%find_some by exact H0.
  split; [done|].
  unfold matches in H. destruct (getNode d y) as [m|] eqn:E; [|done].
  apply getNode_Some in E as [? <-]. by apply list_elem_of_fmap_2.
Qed.

Lemma matches_element d x sel :
  matches d x sel = true →
  ∃ n, getNode d x = Some n ∧ isElement n = true ∧ matchesNode d sel n = true.
Proof.
  unfold matches. destruct (getNode d x) as [n|]; [|done]. intros H.
  exists n. split; [done|]. split; [|done].
  unfold matchesNode in H. apply existsb_exists in H as (cx & _ & H).
  unfold matchesComplex in H. unfold isElement. by destruct (data n).
Qed.

Lemma nextElementSibling_ids d x y :
  nextElementSibling d x = Some y → y ∈ ids d.
Proof.
  rewrite nextElementSibling_unfold.
  destruct (getNode d x) as [n|]; [|done]. simpl.
  destruct (parentOf n) as [p|]; [|done]. simpl.
  destruct (List.find _ _) as [k|] eqn:E; [|done]. simpl. intros [= <-].
  apply find_Some_elem in E as [E%elem_of_after_elem _].
  by apply list_elem_of_fmap_2.
Qed.

(** *** Next element siblings under growth *)

Lemma extends_after old d d' x :
  extends old d d' → x ∈ old → extends old (after x d) (after x d').
Proof.
  intros H Hx. induction H as [|n n' d d' Hs H IH|m d d' Hm Hid H IH]; simpl.
  - constructor.
  - rewrite <-(shape_nodeId _ _ Hs). by destruct (nodeId n =? x).
  - destruct (nodeId m =? x) eqn:E; [|done].
    apply Nat.eqb_eq in E. congruence.
Qed.

Lemma shape_isElementChildOf p n m :
  shape n = shape m → isElementChildOf p n = isElementChildOf p m.
Proof.
  intros Hs. unfold isElementChildOf, isChildOf.
  by rewrite (shape_parentOf _ _ Hs), (shape_isElement _ _ Hs).
Qed.

Lemma extends_find old (P : node → bool) d d' :
  extends old d d' →
  (∀ n m, shape n = shape m → P n = P m) →
  match List.find P d' with
  | Some k' => (∃ k, List.find P d = Some k ∧ shape k = shape k') ∨
               ((nodeId k' ∉ old) ∧ replacementImg k' = true)
  | None => List.find P d = None
  end.
Proof.
  intros H HP. induction H as [|n n' d d' Hs H IH|m d d' Hm Hid H IH]; simpl.
  - done.
  - rewrite (HP n n' Hs). destruct (P n'); [|done]. left. by exists n.
  - destruct (P m); [|done]. by right.
Qed.

Lemma replacementImg_classListContains d x n :
  getNode d x = Some n → replacementImg n = true →
  classListContains d (Some x) MARKER = true.
Proof.
  intros Hn Hr. unfold classListContains, elementOf. simpl. rewrite Hn.
  unfold replacementImg, elementData in Hr.
  destruct n as [i [e st|s] a]; simpl in *; [|done].
  apply andb_prop in Hr as [_ ->%bool_decide_eq_true_1].
  apply bool_decide_eq_true_2. by left.
Qed.

Lemma grows_new_marker d d' k :
  grows d d' → k ∈ d' → nodeId k ∉ mentioned d →
  classListContains d' (Some (nodeId k)) MARKER = true.
Proof.
  intros [Hext _] Hk Hnew.
  assert (nodeId k ∈ ids d') as Hin by by apply list_elem_of_fmap_2.
  destruct (getNode_is_Some _ _ Hin) as [k' Hk'].
  eapply replacementImg_classListContains; [done|].
  pose proof (getNode_Some _ _ _ Hk') as [Hk'd Hk'id].
  eapply extends_new_node; [done|apply mentioned_ids|done|by rewrite Hk'id].
Qed.

(** A replacement next to [x] stays next to it, or a new one takes its
    place. *)
Lemma grows_marker_mono d d' x :
  grows d d' → x ∈ ids d →
  classListContains d (nextElementSibling d x) MARKER = true →
  classListContains d' (nextElementSibling d' x) MARKER = true.
Proof.
  intros Hg Hx Hc. pose proof Hg as [Hext _].
  rewrite nextElementSibling_unfold in Hc |- *.
  destruct (getNode_is_Some _ _ Hx) as [n Hn].
  destruct (grows_getNode _ _ Hg _ _ Hn) as (n' & Hn' & Hs).
  rewrite Hn in Hc. rewrite Hn'. simpl in *.
  rewrite (shape_parentOf _ _ Hs). destruct (parentOf n) as [p|]; [|done].
  simpl in *.
  pose proof (extends_find _ (isElementChildOf p) _ _
                (extends_after _ _ _ x Hext (mentioned_ids _ _ Hx))
                (shape_isElementChildOf p)) as Hf.
  destruct (List.find (isElementChildOf p) (after x d')) as [k'|] eqn:E'.
  - destruct Hf as [(k & Hk & Hks)|[Hnew Hr]].
    + rewrite Hk in Hc. simpl in *. rewrite <-(shape_nodeId _ _ Hks).
      rewrite (grows_classListContains _ _ Hg); [done|].
      apply mentioned_ids. apply find_Some_elem in Hk as [Hk%elem_of_after_elem _].
      by apply list_elem_of_fmap_2.
    + simpl. apply (grows_new_marker _ _ _ Hg); [|done].
      by apply find_Some_elem in E' as [E'%elem_of_after_elem _].
  - by rewrite Hf in Hc.
Qed.

(** *** Queries on DOMs of the same shape *)

Lemma getNode_shape d x : getNode (shape <$> d) x = shape <$> getNode d x.
Proof.
  unfold getNode. induction d as [|n d IH]; simpl; [done|].
  by destruct (nodeId n =? x).
Qed.

Lemma after_shape d x : after x (shape <$> d) = shape <$> after x d.
Proof.
  induction d as [|n d IH]; simpl; [done|]. by destruct (nodeId n =? x).
Qed.

Lemma find_shape (P : node → bool) d :
  (∀ n, P (shape n) = P n) →
  List.find P (shape <$> d) = shape <$> List.find P d.
Proof.
  intros HP. induction d as [|n d IH]; simpl; [done|].
  rewrite HP. by destruct (P n).
Qed.

Lemma nextElementSibling_shape d x :
  nextElementSibling (shape <$> d) x = nextElementSibling d x.
Proof.
  rewrite !nextElementSibling_unfold, getNode_shape.
  destruct (getNode d x) as [n|]; [|done]. simpl.
  change (parentOf (shape n)) with (parentOf n).
  destruct (parentOf n) as [p|]; [|done]. simpl.
  rewrite after_shape, find_shape.
  - by destruct (List.find _ _).
  - intros m. apply shape_isElementChildOf. apply shape_shape.
Qed.

Lemma sameShape_nextElementSibling d d' x :
  shape <$> d' = shape <$> d →
  nextElementSibling d' x = nextElementSibling d x.
Proof.
  intros H. by rewrite <-(nextElementSibling_shape d'), H,
                 nextElementSibling_shape.
Qed.

Lemma shape_setStyle d x prop v : shape <$> setStyle d x prop v = shape <$> d.
Proof.
  unfold setStyle. rewrite <-list_fmap_compose. apply list_fmap_ext.
  intros i n _. simpl. destruct (nodeId n =? x); [|done].
  apply shape_restyle.
Qed.

Lemma mentioned_setStyle d x prop v : mentioned (setStyle d x prop v) = mentioned d.
Proof.
  unfold mentioned, setStyle. induction d as [|n d IH]; [done|].
  rewrite fmap_cons. cbn [flat_map]. rewrite IH.
  destruct (nodeId n =? x); [|done].
  unfold restyle. by destruct (data n).
Qed.

End DomFacts.

(** ** Facts about the reconciliation engine *)

Module EngineFacts.
Import Js Resolution Dom Engine DomFacts.

(** *** Selectors and replacement images *)

Lemma replacementImg_element m :
  replacementImg m = true →
  ∃ e st, data m = ElementData e st ∧ tagName e = "img" ∧ classList e = [MARKER].
Proof.
  unfold replacementImg, elementData. destruct (data m) as [e st|s]; [|done].
  intros [H1%bool_decide_eq_true_1 H2%bool_decide_eq_true_1]%andb_prop.
  by exists e, st.
Qed.

Ltac excludes :=
  intros dd m (e & st & Hd & Ht & Hc)%replacementImg_element;
  unfold matchesNode, matchesComplex; rewrite Hd; simpl;
  unfold matchesCompound; simpl; rewrite ?Ht, ?Hc; reflexivity.

Lemma excludes_selUpTree : excludesReplacement selUpTree.
Proof. excludes. Qed.
Lemma excludes_selSvgOcticon : excludesReplacement selSvgOcticon.
Proof. excludes. Qed.
Lemma excludes_selLargeScreenCell : excludesReplacement selLargeScreenCell.
Proof. excludes. Qed.
Lemma excludes_selTd : excludesReplacement selTd.
Proof. excludes. Qed.
Lemma excludes_selNameLink : excludesReplacement selNameLink.
Proof. excludes. Qed.
Lemma excludes_selFilenameColumn : excludesReplacement selFilenameColumn.
Proof. excludes. Qed.
Lemma excludes_selFileSvg : excludesReplacement selFileSvg.
Proof. excludes. Qed.
Lemma excludes_selEditLink : excludesReplacement selEditLink.
Proof. excludes. Qed.
Lemma excludes_selFileSvgNotPencil : excludesReplacement selFileSvgNotPencil.
Proof. excludes. Qed.
Lemma excludes_selTreeText : excludesReplacement selTreeText.
Proof. excludes. Qed.
Lemma excludes_selTreeVisual : excludesReplacement selTreeVisual.
Proof. excludes. Qed.
Lemma excludes_selRow : excludesReplacement selRow.
Proof. excludes. Qed.
Lemma excludes_selTableRow : excludesReplacement selTableRow.
Proof. excludes. Qed.
Lemma excludes_selTreeItem : excludesReplacement selTreeItem.
Proof. excludes. Qed.

Section WithHost.

Variable toLowerCase : string → string.
Variable trim : string → string.
Variable stringOfInherited : string → string.
Variable M : IconMappings.

Abbreviation replaceIconForItem :=
  (replaceIconForItem toLowerCase trim stringOfInherited M).
Abbreviation replaceIconForTreeItem :=
  (replaceIconForTreeItem toLowerCase trim stringOfInherited M).
Abbreviation createIconImg := (createIconImg stringOfInherited).

(** *** What a row step works on *)

(** The original icon a row step settles on and the icon it resolves: an
    icon replaced next to it (a parent-directory row or a plain row), or an
    icon inside an edit link of Refined GitHub. *)
Inductive target :=
| AdjacentIcon (svg : nat) (iconDataUri : value) (parentDir : bool)
| EditLinkIcon (editLink : nat) (iconDataUri : value).

Definition rowTarget (d : dom) (item : nat) : option target :=
  match querySelector d item selUpTree with
  | Some parentDirLink =>
      match querySelector d parentDirLink selSvgOcticon with
      | Some svg =>
          let iconDataUri := match defaultFolder M with
                             | Some s => Str s
                             | None => Undefined
                             end in
          if truthy iconDataUri then Some (AdjacentIcon svg iconDataUri true)
          else None
      | None => None
      end
  | None =>
    let largeScreenCell := querySelector d item selLargeScreenCell in
    let targetCell := match largeScreenCell with
                      | Some c => Some c
                      | None => querySelector d item selTd
                      end in
    match targetCell with
    | None => None
    | Some targetCell =>
    match querySelector d targetCell selNameLink with
    | None => None
    | Some link =>
    let name := trim (textContent d link) in
    if bool_decide (name = "") then None else
    let name := if Dom.includes "/" name
                then List.hd "" (split "/" name) else name in
    match querySelector d targetCell selFilenameColumn with
    | None => None
    | Some container =>
    match querySelector d container selFileSvg with
    | None => None
    | Some svg =>
    let isSymlink :=
      classListContains d (Some svg) "octicon-file-symlink-file" ||
      classListContains d (Some svg) "octicon-file-symlink-directory" in
    let ariaLabel := toLowerCase <$> getAttribute d svg "aria-label" in
    let isFolder :=
      default false (Dom.includes "/tree/" <$> getAttribute d link "href") ||
      default false (Dom.includes "directory" <$> ariaLabel) ||
      default false (Dom.includes "folder" <$> ariaLabel) in
    let iconDataUri :=
      if isSymlink then Str (symlink M)
      else if isFolder then getFolderIcon M name
      else getFileIcon toLowerCase M name in
    if negb (truthy iconDataUri) then None else
    match closest d svg selEditLink with
    | Some editLink => Some (EditLinkIcon editLink iconDataUri)
    | None => Some (AdjacentIcon svg iconDataUri false)
    end
    end end end end
  end.

(** The image a step inserts next to the icon. *)
Definition adjacentImg (d1 : dom) (svg : nat) (iconDataUri : value)
    (parentDir : bool) : node :=
  if parentDir then createIconImg d1 iconDataUri "4px"
  else
    let img := createIconImg d1 iconDataUri (getStyle d1 svg "marginRight") in
    if bool_decide (getStyle d1 svg "color" = "") then img else withFilter img.

(** The DOM once the stray icon after the edit link is removed. *)
Definition withoutSiblingIcon (d : dom) (editLink : nat) : dom :=
  let siblingIcon := nextElementSibling d editLink in
  if classListContains d siblingIcon MARKER
  then match siblingIcon with
       | Some s => remove d s
       | None => d
       end
  else d.

Definition runTarget (d : dom) (t : option target) (stats : option nat)
  : option (dom * option nat) :=
  match t with
  | None => Some (d, stats)
  | Some (AdjacentIcon svg iconDataUri parentDir) =>
      if classListContains d (nextElementSibling d svg) MARKER
      then Some (d, stats)
      else
        let d1 := hide d svg in
        let img := adjacentImg d1 svg iconDataUri parentDir in
        d2 ← insertIntoParent d1 svg img (nextSibling d1 svg);
        Some (d2, countReplaced stats)
  | Some (EditLinkIcon editLink iconDataUri) =>
      match querySelector d editLink selReplacement with
      | Some existingIcon =>
          Some (removeFollowingIcons (length d) d
                  (nextElementSibling d editLink), stats)
      | None =>
          let d1 := withoutSiblingIcon d editLink in
          match querySelector d1 editLink selFileSvgNotPencil with
          | Some fileIconSvg =>
              let d2 := hide d1 fileIconSvg in
              let img := createIconImg d2 iconDataUri "" in
              d3 ← insertBefore d2 editLink img (firstChild d2 editLink);
              Some (d3, countReplaced stats)
          | None => Some (d1, stats)
          end
      end
  end.

Lemma replaceIconForItem_target d item stats :
  replaceIconForItem d item stats = runTarget d (rowTarget d item) stats.
Proof.
  unfold Engine.replaceIconForItem, rowTarget, runTarget, adjacentImg,
    withoutSiblingIcon.
  repeat case_match; simplify_eq/=; try reflexivity; try congruence;
    match goal with
    | H : negb ?b = _, H' : ?b = _ |- _ => by rewrite H' in H
    end.
Qed.

(** *** What a tree-view step works on *)

(** The icon of the tree item, its parent, and the icon it resolves. *)
Definition treeTarget (d : dom) (item : nat)
  : option (nat * option nat * value) :=
  match querySelector d item selTreeText with
  | None => None
  | Some filenameSpan =>
  let name := trim (textContent d filenameSpan) in
  if bool_decide (name = "") then None else
  match querySelector d item selTreeVisual with
  | None => None
  | Some visualContainer =>
  match querySelector d visualContainer selSvgOcticon with
  | None => None
  | Some svg =>
    let isSymlink :=
      classListContains d (Some svg) "octicon-file-symlink-file" ||
      classListContains d (Some svg) "octicon-file-symlink-directory" in
    let isFolder :=
      classListContains d (Some svg) "octicon-file-directory" ||
      classListContains d (Some svg) "octicon-file-directory-fill" ||
      classListContains d (Some svg) "octicon-file-directory-open-fill" in
    let iconDataUri :=
      if isSymlink then Str (symlink M)
      else if isFolder then getFolderIcon M name
      else getFileIcon toLowerCase M name in
    Some (svg, parentNode d svg, iconDataUri)
  end end end.

Definition runTreeTarget (d : dom) (t : option (nat * option nat * value))
    (stats : option nat) : option (dom * option nat) :=
  match t with
  | None => Some (d, stats)
  | Some (svg, None, _) => None
  | Some (svg, Some svgParent, iconDataUri) =>
      match querySelector d svgParent selReplacement with
      | Some existingIcon => Some (hide d svg, stats)
      | None =>
          if negb (truthy iconDataUri) then Some (d, stats) else
          let d1 := hide d svg in
          let img := createIconImg d1 iconDataUri "" in
          d2 ← insertBefore d1 svgParent img (nextSibling d1 svg);
          Some (d2, countReplaced stats)
      end
  end.

Lemma replaceIconForTreeItem_target d item stats :
  replaceIconForTreeItem d item stats =
    runTreeTarget d (treeTarget d item) stats.
Proof.
  unfold Engine.replaceIconForTreeItem, treeTarget, runTreeTarget.
  repeat case_match; try reflexivity; try congruence.
Qed.

(** *** Targets do not depend on styles and replacements *)

Lemma rowTarget_grows d d' item :
  grows d d' → rowTarget d' item = rowTarget d item.
Proof.
  intros Hg. unfold rowTarget.
  rewrite (grows_querySelector _ _ Hg item _ excludes_selUpTree).
  destruct (querySelector d item selUpTree) as [parentDirLink|].
  { by rewrite (grows_querySelector _ _ Hg _ _ excludes_selSvgOcticon). }
  rewrite (grows_querySelector _ _ Hg item _ excludes_selLargeScreenCell).
  rewrite (grows_querySelector _ _ Hg item _ excludes_selTd).
  destruct (match querySelector d item selLargeScreenCell with
            | Some c => Some c
            | None => querySelector d item selTd
            end) as [targetCell|]; [|done].
  rewrite (grows_querySelector _ _ Hg targetCell _ excludes_selNameLink).
  destruct (querySelector d targetCell selNameLink) as [link|] eqn:El; [|done].
  rewrite (grows_textContent _ _ Hg).
  case_bool_decide; [done|].
  rewrite (grows_querySelector _ _ Hg targetCell _ excludes_selFilenameColumn).
  destruct (querySelector d targetCell selFilenameColumn) as [container|];
    [|done].
  rewrite (grows_querySelector _ _ Hg container _ excludes_selFileSvg).
  destruct (querySelector d container selFileSvg) as [svg|] eqn:Es; [|done].
  pose proof (querySelector_ids _ _ _ _ Es) as Hsvg.
  pose proof (querySelector_ids _ _ _ _ El) as Hlink.
  rewrite !(grows_classListContains _ _ Hg svg) by by apply mentioned_ids.
  rewrite (grows_getAttribute _ _ Hg svg) by by apply mentioned_ids.
  rewrite (grows_getAttribute _ _ Hg link) by by apply mentioned_ids.
  by rewrite (grows_closest _ _ Hg svg).
Qed.

Lemma treeTarget_grows d d' item :
  grows d d' → treeTarget d' item = treeTarget d item.
Proof.
  intros Hg. unfold treeTarget.
  rewrite (grows_querySelector _ _ Hg item _ excludes_selTreeText).
  destruct (querySelector d item selTreeText) as [filenameSpan|]; [|done].
  rewrite (grows_textContent _ _ Hg).
  case_bool_decide; [done|].
  rewrite (grows_querySelector _ _ Hg item _ excludes_selTreeVisual).
  destruct (querySelector d item selTreeVisual) as [visualContainer|]; [|done].
  rewrite (grows_querySelector _ _ Hg visualContainer _ excludes_selSvgOcticon).
  destruct (querySelector d visualContainer selSvgOcticon) as [svg|] eqn:Es;
    [|done].
  pose proof (querySelector_ids _ _ _ _ Es) as Hsvg.
  rewrite !(grows_classListContains _ _ Hg svg) by by apply mentioned_ids.
  by rewrite (grows_parentNode _ _ Hg svg) by by apply mentioned_ids.
Qed.

(** *** What targets are *)

Lemma matchesNode_svg d sel n :
  matchesNode d sel n = true →
  (∀ cx, cx ∈ sel → ∃ c, last cx = Some (Tag "svg" :: c)) →
  elementData n ≫= (λ e, Some (tagName e)) = Some "svg".
Proof.
  unfold matchesNode. intros (cx & Hcx%list_elem_of_In & H)%existsb_exists Hsel.
  destruct (Hsel cx Hcx) as (c & Hlast). rewrite <-head_reverse in Hlast.
  unfold matchesComplex in H. unfold reverse, compound in *.
  revert H Hlast. generalize (rev_append cx []). intros r H Hlast.
  unfold elementData. destruct (data n) as [e st|s]; [|done]. simpl.
  destruct r as [|subject outer]; [done|]. simpl in Hlast.
  injection Hlast as ->.
  apply andb_prop in H as [H _]. unfold matchesCompound in H. simpl in H.
  apply andb_prop in H as [H%bool_decide_eq_true_1 _]. by rewrite H.
Qed.

(** The icon found by one of the two icon selectors: an [svg] element of the
    DOM with a parent. *)
Definition isIcon (d : dom) (svg : nat) : Prop :=
  ∃ sn p, getNode d svg = Some sn ∧ parentOf sn = Some p ∧
          isElement sn = true ∧
          elementData sn ≫= (λ e, Some (tagName e)) = Some "svg".

Lemma querySelector_isIcon d scope sel svg :
  NoDup (ids d) →
  (∀ cx, cx ∈ sel → ∃ c, last cx = Some (Tag "svg" :: c)) →
  querySelector d scope sel = Some svg → isIcon d svg.
Proof.
  intros Hnd Hsel (n & Hn & <- & Hdesc & Hm)%querySelector_Some.
  unfold isDescendantOf in Hdesc. apply bool_decide_eq_true_1 in Hdesc.
  pose proof (matchesNode_svg _ _ _ Hm Hsel) as Hsvg.
  exists n. destruct (ancestors n) as [|p anc] eqn:Ea.
  { by apply elem_of_nil in Hdesc. }
  exists p. split; [by apply getNode_unique|]. split.
  { unfold parentOf. by rewrite Ea. }
  split; [|done]. unfold isElement. unfold elementData in Hsvg.
  by destruct (data n).
Qed.

Lemma selSvgOcticon_svg cx :
  cx ∈ selSvgOcticon → ∃ c, last cx = Some (Tag "svg" :: c).
Proof. intros ->%list_elem_of_singleton. by eexists. Qed.

Lemma selFileSvg_svg cx :
  cx ∈ selFileSvg → ∃ c, last cx = Some (Tag "svg" :: c).
Proof. intros ->%list_elem_of_singleton. by eexists. Qed.

Lemma selFileSvgNotPencil_svg cx :
  cx ∈ selFileSvgNotPencil → ∃ c, last cx = Some (Tag "svg" :: c).
Proof. intros ->%list_elem_of_singleton. by eexists. Qed.

Lemma rowTarget_adjacent d item svg iconDataUri parentDir :
  NoDup (ids d) →
  rowTarget d item = Some (AdjacentIcon svg iconDataUri parentDir) →
  isIcon d svg ∧ truthy iconDataUri = true.
Proof.
  intros Hnd. unfold rowTarget.
  repeat case_match; intros; simplify_eq/=;
    (split; [|by (done || by apply negb_false_iff)]).
  all: eapply querySelector_isIcon; [done| |done].
  all: first [apply selSvgOcticon_svg|apply selFileSvg_svg].
Qed.

Lemma rowTarget_editLink d item editLink iconDataUri :
  rowTarget d item = Some (EditLinkIcon editLink iconDataUri) →
  matches d editLink selEditLink = true ∧ truthy iconDataUri = true.
Proof.
  unfold rowTarget. repeat case_match; intros; simplify_eq/=.
  all: split; [|by apply negb_false_iff].
  all: by eapply closest_Some.
Qed.

Lemma treeTarget_icon d item svg svgParent iconDataUri :
  NoDup (ids d) →
  treeTarget d item = Some (svg, svgParent, iconDataUri) →
  isIcon d svg ∧ svgParent = parentNode d svg.
Proof.
  intros Hnd. unfold treeTarget. repeat case_match; intros; simplify_eq/=.
  all: split; [|done].
  all: eapply querySelector_isIcon; [done|apply selSvgOcticon_svg|done].
Qed.

(** *** The invariant of the engine *)

(** No replacement image directly follows an edit link. The engine inserts
    replacements after icons and inside edit links only, so it never removes
    one while this holds. *)
Definition noIconAfterEditLink (d : dom) : Prop :=
  ∀ E, matches d E selEditLink = true →
       classListContains d (nextElementSibling d E) MARKER = false.

Definition invariant (d : dom) : Prop :=
  wellFormed d ∧ noIconAfterEditLink d.

Lemma hide_grows d x : grows d (hide d x).
Proof.
  unfold hide. eapply grows_trans; apply setStyle_grows.
Qed.

Lemma hide_ids d x : ids (hide d x) = ids d.
Proof. unfold hide. by rewrite !ids_setStyle. Qed.

Lemma hide_shape d x : shape <$> hide d x = shape <$> d.
Proof. unfold hide. by rewrite !shape_setStyle. Qed.

Lemma hide_mentioned d x : mentioned (hide d x) = mentioned d.
Proof. unfold hide. by rewrite !mentioned_setStyle. Qed.

Lemma hide_wellFormed d x : wellFormed d → wellFormed (hide d x).
Proof. intros H. unfold hide. by do 2 apply setStyle_wellFormed. Qed.

Lemma matches_ids d x sel : matches d x sel = true → x ∈ ids d.
Proof.
  intros (n & Hn & _)%matches_element. apply getNode_Some in Hn as [? <-].
  by apply list_elem_of_fmap_2.
Qed.

Lemma grows_matches_back d d' x sel :
  grows d d' → excludesReplacement sel →
  matches d' x sel = true → matches d x sel = true ∧ x ∈ ids d.
Proof.
  intros Hg Hsel Hm.
  destruct (matches_element _ _ _ Hm) as (n' & Hn' & _ & Hmn).
  destruct (decide (x ∈ mentioned d)) as [Hx|Hx].
  - rewrite (grows_matches _ _ Hg) in Hm by done. split; [done|].
    by eapply matches_ids.
  - exfalso. pose proof (getNode_Some _ _ _ Hn') as [Hin Hid].
    assert (replacementImg n' = true) as Hr.
    { eapply extends_new_node; [apply Hg|apply mentioned_ids|done|].
      by rewrite Hid. }
    by rewrite (Hsel _ _ Hr) in Hmn.
Qed.

Lemma hide_noIcon d x :
  noIconAfterEditLink d → noIconAfterEditLink (hide d x).
Proof.
  intros Hinv E HE.
  destruct (grows_matches_back _ _ _ _ (hide_grows d x) excludes_selEditLink HE)
    as [HE' Hin].
  rewrite (sameShape_nextElementSibling _ _ _ (hide_shape d x)).
  specialize (Hinv E HE').
  destruct (nextElementSibling d E) as [y|] eqn:Ey; [|done].
  rewrite (grows_classListContains _ _ (hide_grows d x)); [done|].
  apply mentioned_ids. by eapply nextElementSibling_ids.
Qed.

Lemma hide_invariant d x : invariant d → invariant (hide d x).
Proof.
  intros [H1 H2]. split; [by apply hide_wellFormed|by apply hide_noIcon].
Qed.

Lemma isIcon_grows d d' svg : grows d d' → isIcon d svg → isIcon d' svg.
Proof.
  intros Hg (sn & p & Hsn & Hp & He & Ht).
  destruct (grows_getNode _ _ Hg _ _ Hsn) as (sn' & Hsn' & Hs).
  exists sn', p. split; [done|].
  by rewrite (shape_parentOf _ _ Hs), (shape_isElement _ _ Hs),
       (shape_elementData _ _ Hs).
Qed.

Lemma matches_editLink_not_icon d E svg :
  matches d E selEditLink = true → isIcon d svg → E ≠ svg.
Proof.
  intros (n & Hn & _ & Hm)%matches_element (sn & p & Hsn & _ & _ & Ht) ->.
  assert (n = sn) as -> by congruence.
  unfold matchesNode, selEditLink in Hm. simpl in Hm.
  rewrite orb_false_r in Hm. unfold matchesComplex in Hm.
  unfold elementData in Ht. destruct (data sn) as [e st|s]; [|done].
  simpl in *. rewrite andb_true_r in Hm. unfold matchesCompound in Hm.
  simpl in Hm. apply andb_prop in Hm as [Hm%bool_decide_eq_true_1 _].
  congruence.
Qed.

(** A new replacement image. *)
Definition freshReplacement (d : dom) (img : node) : Prop :=
  nodeId img = freshId d ∧ replacementImg img = true.

Lemma placed_replacementImg img p pn :
  replacementImg img = true → replacementImg (placed img p pn) = true.
Proof. done. Qed.

Lemma freshReplacement_isElement img p pn :
  replacementImg img = true → isElement (placed img p pn) = true.
Proof.
  unfold replacementImg, elementData, isElement, placed. simpl.
  by destruct (data img).
Qed.

Lemma replacementImg_matches d m :
  replacementImg m = true → matchesNode d selReplacement m = true.
Proof.
  intros (e & st & Hd & Ht & Hc)%replacementImg_element.
  unfold matchesNode, selReplacement, matchesComplex. simpl. rewrite Hd.
  unfold matchesCompound. simpl. rewrite Ht, Hc. reflexivity.
Qed.

(** [d2] is [d] with the node [img] put somewhere among its nodes. *)
Definition gains (d d2 : dom) (img : node) : Prop :=
  ∃ l1 l2 child, d = l1 ++ l2 ∧ d2 = l1 ++ child :: l2 ∧
                 nodeId child = nodeId img ∧ data child = data img.

Lemma invariant_insert d l1 l2 child (keeps : nat → Prop) :
  d = l1 ++ l2 → l1 ≠ [] → invariant d →
  replacementImg child = true → nodeId child ∉ mentioned d →
  wellFormed (l1 ++ child :: l2) →
  (∀ x, x ∈ ids d → keeps x →
        nextElementSibling (l1 ++ child :: l2) x = nextElementSibling d x) →
  (∀ E, matches d E selEditLink = true → keeps E) →
  invariant (l1 ++ child :: l2).
Proof.
  intros -> Hne [Hwf Hinv] Hr Hfresh Hwf2 Hnes Hkeeps. split; [done|].
  pose proof (inserted_grows l1 l2 child Hne Hr Hfresh) as Hg.
  intros E HE.
  destruct (grows_matches_back _ _ _ _ Hg excludes_selEditLink HE) as [HE' Hin].
  rewrite (Hnes E Hin (Hkeeps E HE')). specialize (Hinv E HE').
  destruct (nextElementSibling (l1 ++ l2) E) as [y|] eqn:Ey; [|done].
  rewrite (grows_classListContains _ _ Hg); [done|].
  apply mentioned_ids. by eapply nextElementSibling_ids.
Qed.

(** Inserting a new replacement right after an icon. *)
Lemma insert_after_icon d svg img :
  invariant d → isIcon d svg → freshReplacement d img →
  ∃ d2, insertIntoParent d svg img (nextSibling d svg) = Some d2 ∧
        grows d d2 ∧ invariant d2 ∧ gains d d2 img ∧
        nextElementSibling d2 svg = Some (nodeId img) ∧
        classListContains d2 (Some (nodeId img)) MARKER = true ∧
        (∀ q, parentNode d svg = Some q →
              is_Some (querySelector d2 q selReplacement)).
Proof.
  intros Hinv (sn & p & Hsn & Hp & Hse & Ht) [Hid Hr].
  pose proof Hinv as [Hwf _]. pose proof Hwf as (Hnd & Hpar & Hroot).
  pose proof (getNode_Some _ _ _ Hsn) as [Hsd _].
  destruct (Hpar sn p Hsd Hp) as (pn & Hpn & Hpe).
  destruct (insertBefore_nextSibling d svg sn p pn img Hnd Hsn Hp Hpn Hpe)
    as (d2 & Hins & Hafter).
  exists d2. unfold insertIntoParent, parentNode. rewrite Hsn. simpl.
  rewrite Hp. simpl. split; [done|].
  pose proof Hafter as (l1 & l2 & Hd & Hd2 & HS & Hnone).
  set (child := placed img p pn) in *.
  assert (nodeId child ∉ mentioned d) as Hfresh.
  { unfold child. simpl. rewrite Hid. apply freshId_fresh. }
  assert (nodeId child ∉ ids d) as Hfresh'.
  { intros H. by apply Hfresh, mentioned_ids. }
  assert (l1 ≠ []) as Hne.
  { intros ->. by apply elem_of_nil in HS. }
  assert (wellFormed d2) as Hwf2.
  { subst d d2. by eapply (inserted_wellFormed l1 l2 child p pn). }
  assert (grows d d2) as Hg.
  { subst d d2. by apply inserted_grows. }
  split; [done|]. split.
  { subst d2. eapply (invariant_insert d l1 l2 child (λ x, x ≠ svg));
      try done.
    - intros x Hx Hxs.
      by eapply (insertedAfter_other d _ svg p sn child).
    - intros E HE. eapply matches_editLink_not_icon; [done|].
      by exists sn, p. }
  split; [by exists l1, l2, child|]. split; [|split].
  - by eapply (insertedAfter_nextElementSibling d d2 svg p sn child);
      [..|apply freshReplacement_isElement].
  - eapply replacementImg_classListContains with (n := child); [|done].
    subst d2. change (nodeId img) with (nodeId child).
    apply getNode_inserted. intros H. apply Hfresh'. subst d.
    rewrite ids_app, elem_of_app. by left.
  - intros q [= <-].
    apply (querySelector_found d2 p selReplacement child).
    + subst d2. rewrite elem_of_app, elem_of_cons. tauto.
    + unfold isDescendantOf, child. simpl.
      apply bool_decide_eq_true_2. by left.
    + by apply replacementImg_matches.
Qed.

(** Inserting a new replacement as the first child of an edit link. *)
Lemma insert_into_editLink d E img :
  invariant d → matches d E selEditLink = true → freshReplacement d img →
  ∃ d3, insertBefore d E img (firstChild d E) = Some d3 ∧
        grows d d3 ∧ invariant d3 ∧ gains d d3 img ∧
        firstChild d3 E = Some (nodeId img) ∧
        classListContains d3 (Some (nodeId img)) MARKER = true ∧
        is_Some (querySelector d3 E selReplacement).
Proof.
  intros Hinv (en & Hen & Hee & _)%matches_element [Hid Hr].
  pose proof Hinv as [Hwf _]. pose proof Hwf as (Hnd & Hpar & Hroot).
  destruct (insertBefore_firstChild d E en img Hwf Hen Hee)
    as (d3 & Hins & Hfirst).
  exists d3. split; [done|].
  pose proof Hfirst as (l1 & l2 & Hd & Hd3 & Hne & Hnone).
  set (child := placed img E en) in *.
  assert (nodeId child ∉ mentioned d) as Hfresh.
  { unfold child. simpl. rewrite Hid. apply freshId_fresh. }
  assert (nodeId child ∉ ids d) as Hfresh'.
  { intros H. by apply Hfresh, mentioned_ids. }
  assert (wellFormed d3) as Hwf3.
  { subst d d3. by eapply (inserted_wellFormed l1 l2 child E en). }
  assert (grows d d3) as Hg.
  { subst d d3. by apply inserted_grows. }
  split; [done|]. split.
  { subst d3. eapply (invariant_insert d l1 l2 child (λ x, True)); try done.
    intros x Hx _.
    by eapply (insertedFirst_nextElementSibling d _ E child). }
  split; [by exists l1, l2, child|]. split; [|split].
  - subst d3. unfold firstChild. rewrite find_app, Hnone. simpl.
    unfold isChildOf, child. simpl. by rewrite bool_decide_eq_true_2.
  - eapply replacementImg_classListContains with (n := child); [|done].
    subst d3. change (nodeId img) with (nodeId child).
    apply getNode_inserted. intros H. apply Hfresh'. subst d.
    rewrite ids_app, elem_of_app. by left.
  - apply (querySelector_found d3 E selReplacement child).
    + subst d3. rewrite elem_of_app, elem_of_cons. tauto.
    + unfold isDescendantOf, child. simpl.
      apply bool_decide_eq_true_2. by left.
    + by apply replacementImg_matches.
Qed.

(** *** Settled items *)

(** A row whose step inserts nothing: nothing to work on, a replacement
    next to the icon, a replacement in the edit link, or no file icon in
    the edit link. *)
Definition settledRow (d : dom) (item : nat) : Prop :=
  match rowTarget d item with
  | None => True
  | Some (AdjacentIcon svg _ _) =>
      classListContains d (nextElementSibling d svg) MARKER = true
  | Some (EditLinkIcon editLink _) =>
      is_Some (querySelector d editLink selReplacement) ∨
      querySelector d editLink selFileSvgNotPencil = None
  end.

Definition settledTree (d : dom) (item : nat) : Prop :=
  match treeTarget d item with
  | None => True
  | Some (_, None, _) => False
  | Some (_, Some svgParent, iconDataUri) =>
      is_Some (querySelector d svgParent selReplacement) ∨
      truthy iconDataUri = false
  end.

Lemma settledRow_grows d d' item :
  grows d d' → NoDup (ids d) → settledRow d item → settledRow d' item.
Proof.
  intros Hg Hnd. unfold settledRow. rewrite (rowTarget_grows _ _ _ Hg).
  destruct (rowTarget d item) as [[svg icon pd|E icon]|] eqn:Et; [| |done].
  - destruct (rowTarget_adjacent _ _ _ _ _ Hnd Et) as [(sn & p & Hsn & _) _].
    apply grows_marker_mono; [done|].
    apply getNode_Some in Hsn as [? <-]. by apply list_elem_of_fmap_2.
  - intros [H|H]; [left; by eapply grows_querySelector_mono|right].
    by rewrite (grows_querySelector _ _ Hg _ _ excludes_selFileSvgNotPencil).
Qed.

Lemma settledTree_grows d d' item :
  grows d d' → settledTree d item → settledTree d' item.
Proof.
  intros Hg. unfold settledTree. rewrite (treeTarget_grows _ _ _ Hg).
  destruct (treeTarget d item) as [[[svg [P|]] icon]|]; [|done..].
  intros [H|H]; [left; by eapply grows_querySelector_mono|by right].
Qed.

Lemma withoutSiblingIcon_invariant d E :
  noIconAfterEditLink d → matches d E selEditLink = true →
  withoutSiblingIcon d E = d.
Proof. intros Hinv HE. unfold withoutSiblingIcon. by rewrite (Hinv E HE). Qed.

Lemma removeFollowingIcons_invariant fuel d E :
  noIconAfterEditLink d → matches d E selEditLink = true →
  removeFollowingIcons fuel d (nextElementSibling d E) = d.
Proof.
  intros Hinv HE. specialize (Hinv E HE).
  destruct fuel as [|fuel]; [done|]. simpl.
  destruct (nextElementSibling d E) as [s|]; [|done]. by rewrite Hinv.
Qed.

Lemma createIconImg_fresh d iconDataUri marginRight :
  freshReplacement d (createIconImg d iconDataUri marginRight).
Proof. done. Qed.

Lemma adjacentImg_fresh d svg iconDataUri parentDir :
  freshReplacement d (adjacentImg d svg iconDataUri parentDir).
Proof.
  unfold adjacentImg. destruct parentDir; [done|]. by case_bool_decide.
Qed.

Lemma freshReplacement_hide d x img :
  freshReplacement (hide d x) img → freshReplacement d img.
Proof.
  unfold freshReplacement, freshId. by rewrite hide_mentioned.
Qed.

(** *** One step *)

Lemma countReplaced_is_Some stats : is_Some stats → is_Some (countReplaced stats).
Proof. intros [n ->]. by eexists. Qed.

(** A row step returns, keeps the invariant, leaves the row settled, and
    counts a replacement only when the row was not settled. *)
Lemma replaceIconForItem_step d item stats :
  invariant d →
  ∃ d' stats',
    replaceIconForItem d item stats = Some (d', stats') ∧
    grows d d' ∧ invariant d' ∧ settledRow d' item ∧
    (is_Some stats → is_Some stats') ∧
    (settledRow d item → stats' = stats ∧ ids d' = ids d).
Proof.
  intros Hinv. pose proof Hinv as [Hwf Hno]. pose proof Hwf as (Hnd & _).
  rewrite replaceIconForItem_target.
  assert (∀ t, rowTarget d item = t → settledRow d item →
               ∃ d' stats', Some (d, stats) = Some (d', stats') ∧
                 grows d d' ∧ invariant d' ∧ settledRow d' item ∧
                 (is_Some stats → is_Some stats') ∧
                 (settledRow d item → stats' = stats ∧ ids d' = ids d))
    as Hsame.
  { intros t _ Hs. exists d, stats. split; [done|]. split; [apply grows_refl|].
    do 3 (split; [done|]). done. }
  destruct (rowTarget d item) as [[svg icon pd|E icon]|] eqn:Et; simpl.
  - destruct (rowTarget_adjacent _ _ _ _ _ Hnd Et) as [Hicon Htruthy].
    destruct (classListContains d (nextElementSibling d svg) MARKER) eqn:Ec.
    + eapply Hsame; [done|]. unfold settledRow. by rewrite Et.
    + pose proof (hide_grows d svg) as Hg1.
      destruct (insert_after_icon (hide d svg) svg
                  (adjacentImg (hide d svg) svg icon pd))
        as (d2 & Hins & Hg2 & Hinv2 & _ & Hnes & Hmark & _).
      { by apply hide_invariant. }
      { by eapply isIcon_grows. }
      { apply adjacentImg_fresh. }
      rewrite Hins. simpl. exists d2, (countReplaced stats).
      assert (grows d d2) as Hg by by eapply grows_trans.
      split; [done|]. split; [done|]. split; [done|]. split; [|split].
      * unfold settledRow. rewrite (rowTarget_grows _ _ _ Hg), Et.
        by rewrite Hnes.
      * apply countReplaced_is_Some.
      * unfold settledRow. rewrite Et. congruence.
  - destruct (rowTarget_editLink _ _ _ _ Et) as [HE Htruthy].
    destruct (querySelector d E selReplacement) as [existing|] eqn:Ex.
    + rewrite (removeFollowingIcons_invariant _ _ _ Hno HE).
      eapply Hsame; [done|]. unfold settledRow. rewrite Et, Ex.
      left. by eexists.
    + rewrite (withoutSiblingIcon_invariant _ _ Hno HE).
      destruct (querySelector d E selFileSvgNotPencil) as [f|] eqn:Ef.
      * pose proof (hide_grows d f) as Hg1.
        destruct (insert_into_editLink (hide d f) E
                    (createIconImg (hide d f) icon ""))
          as (d3 & Hins & Hg3 & Hinv3 & _ & _ & _ & Hfound).
        { by apply hide_invariant. }
        { rewrite (grows_matches _ _ Hg1); [done|].
          apply mentioned_ids. by eapply matches_ids. }
        { apply createIconImg_fresh. }
        rewrite Hins. simpl. exists d3, (countReplaced stats).
        assert (grows d d3) as Hg by by eapply grows_trans.
        split; [done|]. split; [done|]. split; [done|]. split; [|split].
        -- unfold settledRow. rewrite (rowTarget_grows _ _ _ Hg), Et.
           by left.
        -- apply countReplaced_is_Some.
        -- unfold settledRow. rewrite Et, Ex, Ef.
           intros [[? ?]|?]; done.
      * eapply Hsame; [done|]. unfold settledRow. rewrite Et. by right.
  - eapply Hsame; [done|]. unfold settledRow. by rewrite Et.
Qed.

Lemma replaceIconForTreeItem_step d item stats :
  invariant d →
  ∃ d' stats',
    replaceIconForTreeItem d item stats = Some (d', stats') ∧
    grows d d' ∧ invariant d' ∧ settledTree d' item ∧
    (is_Some stats → is_Some stats') ∧
    (settledTree d item → stats' = stats ∧ ids d' = ids d).
Proof.
  intros Hinv. pose proof Hinv as [Hwf Hno]. pose proof Hwf as (Hnd & _).
  rewrite replaceIconForTreeItem_target.
  assert (∀ t, treeTarget d item = t → settledTree d item →
               ∃ d' stats', Some (d, stats) = Some (d', stats') ∧
                 grows d d' ∧ invariant d' ∧ settledTree d' item ∧
                 (is_Some stats → is_Some stats') ∧
                 (settledTree d item → stats' = stats ∧ ids d' = ids d))
    as Hsame.
  { intros t _ Hs. exists d, stats. split; [done|]. split; [apply grows_refl|].
    do 3 (split; [done|]). done. }
  destruct (treeTarget d item) as [[[svg P] icon]|] eqn:Et; simpl.
  - destruct (treeTarget_icon _ _ _ _ _ Hnd Et) as [Hicon HP].
    pose proof Hicon as (sn & p & Hsn & Hp & _).
    assert (P = Some p) as ->.
    { rewrite HP. unfold parentNode. rewrite Hsn. by simpl. }
    clear HP.
    destruct (querySelector d p selReplacement) as [existing|] eqn:Ex.
    + pose proof (hide_grows d svg) as Hg1.
      exists (hide d svg), stats. split; [done|]. split; [done|].
      split; [by apply hide_invariant|]. split; [|split]; [|done|].
      * unfold settledTree. rewrite (treeTarget_grows _ _ _ Hg1), Et. left.
        eapply grows_querySelector_mono; [done|]. rewrite Ex. by eexists.
      * intros _. split; [done|]. apply hide_ids.
    + destruct (truthy icon) eqn:Htruthy; simpl.
      * pose proof (hide_grows d svg) as Hg1.
        destruct (insert_after_icon (hide d svg) svg
                    (createIconImg (hide d svg) icon ""))
          as (d2 & Hins & Hg2 & Hinv2 & _ & _ & _ & Hfound).
        { by apply hide_invariant. }
        { by eapply isIcon_grows. }
        { apply createIconImg_fresh. }
        assert (parentNode (hide d svg) svg = Some p) as Hp1.
        { rewrite (grows_parentNode _ _ Hg1).
          - unfold parentNode. rewrite Hsn. by simpl.
          - apply mentioned_ids. apply getNode_Some in Hsn as [? <-].
            by apply list_elem_of_fmap_2. }
        unfold insertIntoParent in Hins. rewrite Hp1 in Hins.
        simpl in Hins. rewrite Hins. simpl.
        exists d2, (countReplaced stats).
        assert (grows d d2) as Hg by by eapply grows_trans.
        split; [done|]. split; [done|]. split; [done|]. split; [|split].
        -- unfold settledTree. rewrite (treeTarget_grows _ _ _ Hg), Et.
           left. by apply Hfound.
        -- apply countReplaced_is_Some.
        -- unfold settledTree. rewrite Et, Ex.
           intros [[? ?]|?]; congruence.
      * eapply Hsame; [done|]. unfold settledTree. rewrite Et. by right.
  - eapply Hsame; [done|]. unfold settledTree. by rewrite Et.
Qed.

(** *** A batch of steps *)

Section ForEach.

Variable f : dom → nat → option nat → option (dom * option nat).
Variable settled : dom → nat → Prop.

Hypothesis f_step : ∀ d item stats,
  invariant d →
  ∃ d' stats',
    f d item stats = Some (d', stats') ∧
    grows d d' ∧ invariant d' ∧ settled d' item ∧
    (is_Some stats → is_Some stats') ∧
    (settled d item → stats' = stats ∧ ids d' = ids d).

Hypothesis settled_grows : ∀ d d' item,
  grows d d' → NoDup (ids d) → settled d item → settled d' item.

Lemma forEach_steps items d stats :
  invariant d →
  ∃ d' stats',
    forEach f items d stats = Some (d', stats') ∧
    grows d d' ∧ invariant d' ∧ Forall (settled d') items ∧
    (is_Some stats → is_Some stats') ∧
    (Forall (settled d) items → stats' = stats ∧ ids d' = ids d).
Proof.
  revert d stats. induction items as [|item items IH]; intros d stats Hinv.
  - exists d, stats. split; [done|]. split; [apply grows_refl|].
    do 3 (split; [done|]). done.
  - destruct (f_step d item stats Hinv)
      as (d1 & stats1 & Hf & Hg1 & Hinv1 & Hs1 & Hsome1 & Hsame1).
    destruct (IH d1 stats1 Hinv1)
      as (d' & stats' & Hfe & Hg & Hinv' & Hs & Hsome & Hsame).
    exists d', stats'. simpl. rewrite Hf. simpl.
    split; [done|]. split; [by eapply grows_trans|]. split; [done|].
    pose proof Hinv as [(Hnd & _) _]. pose proof Hinv1 as [(Hnd1 & _) _].
    split; [|split].
    + apply Forall_cons. split; [|done]. by eapply settled_grows.
    + auto.
    + intros [Hi His]%Forall_cons. destruct (Hsame1 Hi) as [-> Hids1].
      destruct Hsame as [-> Hids].
      { eapply Forall_impl; [done|]. intros x Hx. by eapply settled_grows. }
      split; [done|]. congruence.
Qed.

End ForEach.

Lemma forEach_rows items d stats :
  invariant d →
  ∃ d' stats',
    forEach replaceIconForItem items d stats = Some (d', stats') ∧
    grows d d' ∧ invariant d' ∧ Forall (settledRow d') items ∧
    (is_Some stats → is_Some stats') ∧
    (Forall (settledRow d) items → stats' = stats ∧ ids d' = ids d).
Proof.
  apply forEach_steps.
  - apply replaceIconForItem_step.
  - apply settledRow_grows.
Qed.

Lemma forEach_treeItems items d stats :
  invariant d →
  ∃ d' stats',
    forEach replaceIconForTreeItem items d stats = Some (d', stats') ∧
    grows d d' ∧ invariant d' ∧ Forall (settledTree d') items ∧
    (is_Some stats → is_Some stats') ∧
    (Forall (settledTree d) items → stats' = stats ∧ ids d' = ids d).
Proof.
  apply forEach_steps.
  - apply replaceIconForTreeItem_step.
  - intros d0 d' item Hg _. by apply settledTree_grows.
Qed.

(** *** Full passes *)

Abbreviation replaceIcons :=
  (replaceIcons toLowerCase trim stringOfInherited M).

(** The rows a pass works on. *)
Definition rowItems (d : dom) : list nat :=
  let items := documentQuerySelectorAll d selRow in
  if bool_decide (length items = 0)
  then documentQuerySelectorAll d selTableRow else items.

Lemma rowItems_grows d d' : grows d d' → rowItems d' = rowItems d.
Proof.
  intros Hg. unfold rowItems.
  by rewrite (grows_documentQuerySelectorAll _ _ Hg _ excludes_selRow),
       (grows_documentQuerySelectorAll _ _ Hg _ excludes_selTableRow).
Qed.

(** A pass returns, keeps the invariant, and leaves its rows and tree items
    settled. *)
Lemma replaceIcons_pass d :
  invariant d →
  ∃ da d1 n,
    replaceIcons d = Some (d1, Some n) ∧
    grows d da ∧ grows da d1 ∧ invariant d1 ∧
    Forall (settledRow d1) (rowItems d) ∧
    Forall (settledTree d1) (documentQuerySelectorAll da selTreeItem).
Proof.
  intros Hinv. unfold Engine.replaceIcons. fold (rowItems d).
  destruct (forEach_rows (rowItems d) d (Some 0) Hinv)
    as (da & sa & Hfa & Hga & Hinva & Hsa & Hsomea & _).
  rewrite Hfa. simpl.
  destruct (forEach_treeItems (documentQuerySelectorAll da selTreeItem)
              da sa Hinva)
    as (d1 & s1 & Hf1 & Hg1 & Hinv1 & Hs1 & Hsome1 & _).
  destruct (Hsome1 (Hsomea ltac:(by eexists))) as [n ->].
  exists da, d1, n. split; [done|]. split; [done|]. split; [done|].
  split; [done|]. split; [|done].
  pose proof Hinva as [(Hnda & _) _].
  eapply Forall_impl; [done|]. intros x Hx. by eapply settledRow_grows.
Qed.

(** After a pass, a second pass inserts nothing. *)
Lemma replaceIcons_twice d :
  invariant d →
  ∃ d1 n d2,
    replaceIcons d = Some (d1, Some n) ∧
    replaceIcons d1 = Some (d2, Some 0) ∧
    ids d2 = ids d1 ∧ invariant d2.
Proof.
  intros Hinv.
  destruct (replaceIcons_pass d Hinv)
    as (da & d1 & n & Hpass & Hga & Hg1 & Hinv1 & Hrows & Htree).
  exists d1, n.
  assert (grows d d1) as Hg by by eapply grows_trans.
  unfold Engine.replaceIcons at 2. fold (rowItems d1).
  rewrite (rowItems_grows _ _ Hg).
  destruct (forEach_rows (rowItems d) d1 (Some 0) Hinv1)
    as (db & sb & Hfb & Hgb & Hinvb & _ & _ & Hsameb).
  destruct (Hsameb Hrows) as [-> Hidsb].
  rewrite Hfb. simpl.
  assert (grows da db) as Hgab by by eapply grows_trans.
  rewrite (grows_documentQuerySelectorAll _ _ Hgab _ excludes_selTreeItem).
  destruct (forEach_treeItems (documentQuerySelectorAll da selTreeItem)
              db (Some 0) Hinvb)
    as (d2 & s2 & Hf2 & Hg2 & Hinv2 & _ & _ & Hsame2).
  destruct Hsame2 as [-> Hids2].
  { eapply Forall_impl; [exact Htree|]. intros x Hx.
    exact (settledTree_grows _ _ _ Hgb Hx). }
  exists d2. split; [done|]. split; [done|]. split; [congruence|done].
Qed.

(** *** The DOM states the engine produces *)

Abbreviation observerCallback :=
  (observerCallback toLowerCase trim stringOfInherited M).
Abbreviation processItem :=
  (processItem toLowerCase trim stringOfInherited M).

(** No node carries the marker class: a page the engine has not touched. *)
Definition noReplacements (d : dom) : bool :=
  forallb (λ n, match elementData n with
                | Some e => negb (bool_decide (MARKER ∈ classList e))
                | None => true
                end) d.

(** The states reached from an untouched page by passes, single steps and
    observer callbacks of the engine. *)
Inductive engineState : dom → Prop :=
| engine_start d :
    wellFormed d → noReplacements d = true → engineState d
| engine_replaceIcons d d' stats :
    engineState d → replaceIcons d = Some (d', stats) → engineState d'
| engine_item d item stats d' stats' :
    engineState d → replaceIconForItem d item stats = Some (d', stats') →
    engineState d'
| engine_treeItem d item stats d' stats' :
    engineState d → replaceIconForTreeItem d item stats = Some (d', stats') →
    engineState d'
| engine_observer d mutations d' :
    engineState d → observerCallback d mutations = Some d' → engineState d'.

Lemma noReplacements_noIcon d :
  noReplacements d = true → noIconAfterEditLink d.
Proof.
  intros Hno E _. unfold classListContains.
  destruct (nextElementSibling d E) as [y|]; [|done]. simpl.
  unfold elementOf. destruct (getNode d y) as [n|] eqn:En; [|done].
  apply getNode_Some in En as [Hn _].
  unfold noReplacements in Hno. rewrite forallb_forall in Hno.
  specialize (Hno n ltac:(by apply list_elem_of_In)).
  unfold elementData in Hno. destruct n as [i [e st|s] a]; [|done].
  simpl in *. by apply negb_true_iff in Hno.
Qed.

Lemma processItem_step d item stats :
  invariant d →
  ∃ d' stats', processItem d item stats = Some (d', stats') ∧ invariant d'.
Proof.
  intros Hinv. unfold Engine.processItem.
  destruct (classListContains d (Some item) "PRIVATE_TreeView-item-content").
  - destruct (replaceIconForTreeItem_step d item stats Hinv)
      as (d' & stats' & H & _ & Hinv' & _). by exists d', stats'.
  - destruct (replaceIconForItem_step d item stats Hinv)
      as (d' & stats' & H & _ & Hinv' & _). by exists d', stats'.
Qed.

Lemma forEach_processItem items d stats :
  invariant d →
  ∃ d' stats',
    forEach processItem items d stats = Some (d', stats') ∧ invariant d'.
Proof.
  revert d stats. induction items as [|item items IH]; intros d stats Hinv.
  - by exists d, stats.
  - destruct (processItem_step d item stats Hinv) as (d1 & s1 & H1 & Hinv1).
    destruct (IH d1 s1 Hinv1) as (d' & s' & H' & Hinv').
    exists d', s'. simpl. rewrite H1. by simpl.
Qed.

Lemma engineState_invariant d : engineState d → invariant d.
Proof.
  induction 1 as [d Hwf Hno|d d' stats _ IH Hr|d item stats d' stats' _ IH Hr
                  |d item stats d' stats' _ IH Hr|d mutations d' _ IH Hr].
  - split; [done|by apply noReplacements_noIcon].
  - destruct (replaceIcons_pass d IH) as (da & d1 & n & H & _ & _ & Hinv & _).
    congruence.
  - destruct (replaceIconForItem_step d item stats IH)
      as (d1 & s1 & H & _ & Hinv & _). congruence.
  - destruct (replaceIconForTreeItem_step d item stats IH)
      as (d1 & s1 & H & _ & Hinv & _). congruence.
  - unfold Engine.observerCallback in Hr.
    destruct (forEach_processItem (collect d mutations) d None IH)
      as (d1 & s1 & H & Hinv).
    rewrite H in Hr. simpl in Hr. congruence.
Qed.

End WithHost.

(** *** Checking the hypotheses on a concrete DOM *)

Definition wellFormedb (d : dom) : bool :=
  bool_decide (NoDup (ids d)) &&
  forallb (λ n, match parentOf n with
                | None => true
                | Some p => match getNode d p with
                            | Some pn => isElement pn
                            | None => false
                            end
                end) d &&
  match head d with
  | Some n => bool_decide (ancestors n = [])
  | None => true
  end.

Lemma wellFormedb_correct d : wellFormedb d = true → wellFormed d.
Proof.
  unfold wellFormedb. intros [[H1 H2]%andb_prop H3]%andb_prop.
  split; [by apply bool_decide_eq_true_1 in H1|]. split.
  - intros n p Hn Hp. rewrite forallb_forall in H2.
    specialize (H2 n ltac:(by apply list_elem_of_In)). rewrite Hp in H2.
    destruct (getNode d p) as [pn|]; [|done]. by exists pn.
  - intros n Hn. rewrite Hn in H3. by apply bool_decide_eq_true_1 in H3.
Qed.

Definition noIconAfterEditLinkb (d : dom) : bool :=
  forallb (λ n, negb (matches d (nodeId n) selEditLink) ||
                negb (classListContains d (nextElementSibling d (nodeId n)) MARKER))
          d.

Lemma noIconAfterEditLinkb_correct d :
  noIconAfterEditLinkb d = true → noIconAfterEditLink d.
Proof.
  unfold noIconAfterEditLinkb. rewrite forallb_forall. intros H E HE.
  destruct (matches_element _ _ _ HE) as (n & Hn & _).
  apply getNode_Some in Hn as [Hn <-].
  specialize (H n ltac:(by apply list_elem_of_In)). rewrite HE in H.
  simpl in H. by apply negb_true_iff in H.
Qed.

Lemma invariantb_correct d :
  wellFormedb d && noIconAfterEditLinkb d = true → invariant d.
Proof.
  intros [H1 H2]%andb_prop.
  split; [by apply wellFormedb_correct|by apply noIconAfterEditLinkb_correct].
Qed.

End EngineFacts.

(** ** Reconciliation: idempotence, pairing, repair and skipping *)

Module Reconciliation.
Import Js Resolution Dom Engine DomFacts EngineFacts.

Lemma gains_ids d d' img :
  gains d d' img → ids d' ≡ₚ nodeId img :: ids d.
Proof.
  intros (l1 & l2 & child & -> & -> & Hid & _).
  rewrite !ids_app. simpl. rewrite Hid. by rewrite Permutation_middle.
Qed.

Lemma gains_getStyle d d' img x prop :
  gains d d' img → nodeId img ≠ x → getStyle d' x prop = getStyle d x prop.
Proof.
  intros (l1 & l2 & child & -> & -> & Hid & _) Hx. unfold getStyle.
  rewrite getNode_insert; [done|]. by rewrite Hid.
Qed.

Lemma getStyle_hide d svg :
  isElement <$> getNode d svg = Some true →
  getStyle (hide d svg) svg "visibility" = "hidden".
Proof.
  intros He. unfold hide. rewrite getStyle_setStyle_ne by done.
  by apply getStyle_setStyle.
Qed.

Section Steps.

Variable toLowerCase : string → string.
Variable trim : string → string.
Variable stringOfInherited : string → string.
Variable M : IconMappings.

Abbreviation replaceIconForItem :=
  (replaceIconForItem toLowerCase trim stringOfInherited M).
Abbreviation replaceIconForTreeItem :=
  (replaceIconForTreeItem toLowerCase trim stringOfInherited M).
Abbreviation replaceIcons :=
  (replaceIcons toLowerCase trim stringOfInherited M).
Abbreviation observerCallback :=
  (observerCallback toLowerCase trim stringOfInherited M).
Abbreviation rowTarget := (rowTarget toLowerCase trim M).
Abbreviation treeTarget := (treeTarget toLowerCase trim M).
Abbreviation settledRow := (settledRow toLowerCase trim M).
Abbreviation settledTree := (settledTree toLowerCase trim M).
Abbreviation engineState :=
  (engineState toLowerCase trim stringOfInherited M).

(** *** Idempotence of the full pass *)

(** C4: on every DOM state the engine produces, a pass of [replaceIcons]
    followed at once by a second pass returns, and the second pass inserts
    no replacement: its counter stays at 0 and it leaves the set of nodes as
    it found it. *)
Theorem replaceIcons_idempotent d :
  engineState d →
  ∃ d1 n d2,
    replaceIcons d = Some (d1, Some n) ∧
    replaceIcons d1 = Some (d2, Some 0) ∧
    ids d2 = ids d1.
Proof.
  intros Hd%engineState_invariant.
  destruct (replaceIcons_twice toLowerCase trim stringOfInherited M d Hd) as (d1 & n & d2 & H1 & H2 & H3 & _).
  by exists d1, n, d2.
Qed.

(** *** Skipping malformed candidates *)





(** The same for tree items: no filename span, no text, no visual
    container or no icon. *)
Lemma replaceIconForTreeItem_skips_malformed d item stats :
  treeTarget d item = None →
  replaceIconForTreeItem d item stats = Some (d, stats).
Proof. intros H. by rewrite replaceIconForTreeItem_target, H. Qed.

(** *** What one step does *)

(** The original is suppressed. *)
Definition suppressed (d : dom) (svg : nat) : Prop :=
  getStyle d svg "visibility" = "hidden".

(** [d'] is [d] with [svg] suppressed and exactly one new node, the
    replacement image [img]; no other node changes its style. *)
Record replaces (d d' : dom) (svg img : nat) : Prop := {
  replaces_new : img ∉ ids d;
  replaces_one : ids d' ≡ₚ img :: ids d;
  replaces_marker : classListContains d' (Some img) MARKER = true;
  replaces_suppressed : suppressed d' svg;
  replaces_others : ∀ x prop, x ≠ svg → x ≠ img →
                               getStyle d' x prop = getStyle d x prop
}.

Lemma hide_getStyle_other d svg x prop :
  x ≠ svg → getStyle (hide d svg) x prop = getStyle d x prop.
Proof.
  intros Hx. unfold hide. by rewrite !getStyle_setStyle_other.
Qed.

Lemma isIcon_ids d svg : isIcon d svg → svg ∈ ids d.
Proof.
  intros (sn & p & Hsn & _). apply getNode_Some in Hsn as [? <-].
  by apply list_elem_of_fmap_2.
Qed.

Lemma gains_replaces d d' svg img :
  isIcon d svg → freshReplacement (hide d svg) img →
  gains (hide d svg) d' img →
  classListContains d' (Some (nodeId img)) MARKER = true →
  replaces d d' svg (nodeId img).
Proof.
  intros Hicon [Hid Hr] Hgains Hmark.
  assert (nodeId img ∉ ids d) as Hnew.
  { rewrite Hid, <-(hide_ids d svg). apply freshId_not_id. }
  assert (nodeId img ≠ svg) as Hne.
  { intros E. apply Hnew. rewrite E. by apply isIcon_ids. }
  split; [done| |done| |].
  - by rewrite (gains_ids _ _ _ Hgains), hide_ids.
  - unfold suppressed. rewrite (gains_getStyle _ _ _ _ _ Hgains) by done.
    apply getStyle_hide. destruct Hicon as (sn & p & -> & _ & He & _).
    simpl. by rewrite He.
  - intros x prop Hx Hxi.
    rewrite (gains_getStyle _ _ _ _ _ Hgains) by done.
    by apply hide_getStyle_other.
Qed.

(** The outcomes of a row step: nothing changes, or one replacement is
    inserted for an original without one and the original is suppressed in
    the same step. The replacement stands right after the original, or is
    the first child of the edit link that holds the original. *)
Inductive rowOutcome (d : dom) (item : nat) (stats : option nat)
    (d' : dom) (stats' : option nat) : Prop :=
| row_untouched :
    d' = d → stats' = stats → rowOutcome d item stats d' stats'
| row_replaced svg img :
    ¬ settledRow d item →
    stats' = countReplaced stats →
    replaces d d' svg img →
    (nextElementSibling d' svg = Some img ∨
     ∃ editLink, firstChild d' editLink = Some img ∧
                 querySelector d editLink selFileSvgNotPencil = Some svg) →
    rowOutcome d item stats d' stats'.

(** The outcomes of a tree-view step: nothing changes, the icon is
    suppressed again because its parent already holds a replacement, or one
    replacement is inserted right after the icon, which is suppressed in the
    same step. *)
Inductive treeOutcome (d : dom) (item : nat) (stats : option nat)
    (d' : dom) (stats' : option nat) : Prop :=
| tree_untouched :
    d' = d → stats' = stats → treeOutcome d item stats d' stats'
| tree_resuppressed svg svgParent :
    parentNode d svg = Some svgParent →
    is_Some (querySelector d svgParent selReplacement) →
    d' = hide d svg → stats' = stats → treeOutcome d item stats d' stats'
| tree_replaced svg img :
    ¬ settledTree d item →
    stats' = countReplaced stats →
    replaces d d' svg img →
    nextElementSibling d' svg = Some img →
    treeOutcome d item stats d' stats'.

Lemma replaceIconForItem_outcome d item stats :
  invariant d →
  ∃ d' stats',
    replaceIconForItem d item stats = Some (d', stats') ∧
    rowOutcome d item stats d' stats'.
Proof.
  intros Hinv. pose proof Hinv as [Hwf Hno]. pose proof Hwf as (Hnd & _).
  rewrite replaceIconForItem_target. fold rowTarget.
  destruct (rowTarget d item) as [[svg icon pd|E icon]|] eqn:Et; simpl.
  - destruct (rowTarget_adjacent _ _ _ _ _ _ _ _ Hnd Et) as [Hicon Htruthy].
    destruct (classListContains d (nextElementSibling d svg) MARKER) eqn:Ec.
    { exists d, stats. split; [done|]. by apply row_untouched. }
    destruct (insert_after_icon (hide d svg) svg
                (adjacentImg stringOfInherited (hide d svg) svg icon pd))
      as (d2 & Hins & _ & _ & Hgains & Hnes & Hmark & _).
    { by apply hide_invariant. }
    { eapply isIcon_grows; [apply hide_grows|done]. }
    { apply adjacentImg_fresh. }
    rewrite Hins. simpl. exists d2, (countReplaced stats). split; [done|].
    eapply row_replaced; [|done| |by left].
    + unfold EngineFacts.settledRow. fold rowTarget. rewrite Et. congruence.
    + eapply gains_replaces; [done|apply adjacentImg_fresh|done..].
  - destruct (rowTarget_editLink _ _ _ _ _ _ _ Et) as [HE Htruthy].
    destruct (querySelector d E selReplacement) as [existing|] eqn:Ex.
    { rewrite (removeFollowingIcons_invariant _ _ _ Hno HE).
      exists d, stats. split; [done|]. by apply row_untouched. }
    rewrite (withoutSiblingIcon_invariant _ _ Hno HE).
    destruct (querySelector d E selFileSvgNotPencil) as [f|] eqn:Ef.
    2:{ exists d, stats. split; [done|]. by apply row_untouched. }
    assert (isIcon d f) as Hicon.
    { eapply querySelector_isIcon; [done|apply selFileSvgNotPencil_svg|done]. }
    destruct (insert_into_editLink (hide d f) E
                (createIconImg stringOfInherited (hide d f) icon ""))
      as (d3 & Hins & _ & _ & Hgains & Hfirst & Hmark & _).
    { by apply hide_invariant. }
    { rewrite (grows_matches _ _ (hide_grows d f)); [done|].
      apply mentioned_ids. by eapply matches_ids. }
    { apply createIconImg_fresh. }
    rewrite Hins. simpl. exists d3, (countReplaced stats). split; [done|].
    eapply row_replaced; [|done| |right; by exists E].
    + unfold EngineFacts.settledRow. fold rowTarget. rewrite Et, Ex, Ef.
      intros [[? ?]|?]; done.
    + eapply gains_replaces; [done|apply createIconImg_fresh|done..].
  - exists d, stats. split; [done|]. by apply row_untouched.
Qed.

Lemma replaceIconForTreeItem_outcome d item stats :
  invariant d →
  ∃ d' stats',
    replaceIconForTreeItem d item stats = Some (d', stats') ∧
    treeOutcome d item stats d' stats'.
Proof.
  intros Hinv. pose proof Hinv as [Hwf Hno]. pose proof Hwf as (Hnd & _).
  rewrite replaceIconForTreeItem_target. fold treeTarget.
  destruct (treeTarget d item) as [[[svg P] icon]|] eqn:Et; simpl.
  2:{ exists d, stats. split; [done|]. by apply tree_untouched. }
  destruct (treeTarget_icon _ _ _ _ _ _ _ _ Hnd Et) as [Hicon HP].
  pose proof Hicon as (sn & p & Hsn & Hp & _).
  assert (parentNode d svg = Some p) as Hpn.
  { unfold parentNode. rewrite Hsn. by simpl. }
  rewrite HP, Hpn in *. clear HP.
  destruct (querySelector d p selReplacement) as [existing|] eqn:Ex.
  { exists (hide d svg), stats. split; [done|].
    eapply tree_resuppressed; [done| |done..]. rewrite Ex. by eexists. }
  destruct (truthy icon) eqn:Htruthy; simpl.
  2:{ exists d, stats. split; [done|]. by apply tree_untouched. }
  destruct (insert_after_icon (hide d svg) svg
              (createIconImg stringOfInherited (hide d svg) icon ""))
    as (d2 & Hins & _ & _ & Hgains & Hnes & Hmark & _).
  { by apply hide_invariant. }
  { eapply isIcon_grows; [apply hide_grows|done]. }
  { apply createIconImg_fresh. }
  assert (parentNode (hide d svg) svg = Some p) as Hp1.
  { rewrite (grows_parentNode _ _ (hide_grows d svg)); [done|].
    by apply mentioned_ids, isIcon_ids. }
  unfold insertIntoParent in Hins. rewrite Hp1 in Hins. simpl in Hins.
  rewrite Hins. simpl. exists d2, (countReplaced stats). split; [done|].
  eapply tree_replaced; [|done| |done].
  - unfold EngineFacts.settledTree. fold treeTarget. rewrite Et, Ex.
    intros [[? ?]|?]; congruence.
  - eapply gains_replaces; [done|apply createIconImg_fresh|done..].
Qed.


(** *** Repair after the removal of a replacement *)







End Steps.

(** *** A page with a file row, a row without a name link and a tree item *)

Definition el (tag : string) (classes : list string)
    (attrs : list (string * string)) : element :=
  {| tagName := tag; classList := classes; attributes := attrs |}.

Definition fileRow (id : nat) (name : string) : tree :=
  Elem id (el "tr" ["react-directory-row"] []) []
    [Elem (id + 1)
       (el "td" ["react-directory-row-name-cell-large-screen"] []) []
       [Elem (id + 2) (el "div" ["react-directory-filename-column"] []) []
          [Elem (id + 3) (el "svg" ["octicon"; "octicon-file"] []) [] [];
           Elem (id + 4) (el "a" [] [("href", "/o/r/blob/main/" +:+ name)]) []
             [Text (id + 5) name]]]].

Definition treeItem (id : nat) (name : string) : tree :=
  Elem id (el "div" ["PRIVATE_TreeView-item-content"] []) []
    [Elem (id + 1) (el "div" ["PRIVATE_TreeView-item-visual"] []) []
       [Elem (id + 2)
          (el "svg" ["octicon"; "octicon-file-directory-fill"] []) [] []];
     Elem (id + 3) (el "span" ["PRIVATE_TreeView-item-content-text"] []) []
       [Elem (id + 4) (el "span" [] []) [] [Text (id + 5) name]]].

(** Row 10 shows [pom.xml], row 20 has a cell without a name link, and the
    tree item 30 shows the folder [.github]. *)
Definition page : dom :=
  flattenAll
    [Elem 0 (el "body" [] []) []
       [Elem 1 (el "table" [] []) []
          [Elem 2 (el "tbody" [] []) []
             [fileRow 10 "pom.xml";
              Elem 20 (el "tr" ["react-directory-row"] []) []
                [Elem 21 (el "td" [] []) [] [Text 22 "..."]]]];
        Elem 3 (el "nav" [] []) [] [treeItem 30 ".github"]]].

Definition pagePass := replaceIcons asciiToLowerCase asciiTrim (λ k, k)
                                    ResolutionFacts.tableXml.
Definition pageObserver := observerCallback asciiToLowerCase asciiTrim (λ k, k)
                                            ResolutionFacts.tableXml.

(** The page after the first pass: image 36 follows icon 13 of row 10 and
    image 37 follows icon 32 of the tree item. *)
Definition processed : dom := default [] (fst <$> pagePass page).

(** Something else removes a replacement and leaves the icon in place. *)
Definition orphanedRow : dom := remove processed 36.



Lemma processed_ids :
  ids processed =
  [0; 1; 2; 10; 11; 12; 13; 36; 14; 15; 20; 21; 22; 3; 30; 31; 32; 37;
   33; 34; 35].
Proof. reflexivity. Qed.

Lemma replaceIcons_idempotent_witness :
  ∃ d1 n d2, pagePass page = Some (d1, Some n) ∧
             pagePass d1 = Some (d2, Some 0) ∧ ids d2 = ids d1.
Proof.
  apply (replaceIcons_idempotent asciiToLowerCase asciiTrim (λ k, k)
           ResolutionFacts.tableXml page).
  apply engine_start.
  - apply wellFormedb_correct. vm_compute. reflexivity.
  - vm_compute. reflexivity.
Defined.






End Reconciliation.

(** ** Resolution: fallbacks and the edges of the table lookups *)

Module ResolutionEdge.
Import Js Resolution ResolutionFacts.

Lemma lookup_truthy T k v : lookup T k = Some v → truthy v = true.
Proof.
  unfold lookup. destruct (truthy (get T k)) eqn:E; [|done]. by intros [= <-].
Qed.

Lemma orNull_truthy_or_null x : truthy (orNull x) = true ∨ orNull x = Null.
Proof.
  unfold orNull. destruct x as [s|]; [|by right].
  destruct (truthy (Str s)) eqn:E; [by left|by right].
Qed.

Lemma orNull_default s : s ≠ "" → orNull (Some s) = Str s.
Proof.
  intros Hs. unfold orNull. simpl. by rewrite bool_decide_eq_false_2.
Qed.

Section Fallbacks.

Variable toLowerCase : string → string.
Variable M : IconMappings.

Abbreviation getFileIcon := (getFileIcon toLowerCase M).
Abbreviation getFolderIcon := (getFolderIcon M).

(** The result of [getFileIcon] is a table hit or the default. *)
Lemma getFileIcon_cases filename :
  (∃ T k, lookup T k = Some (getFileIcon filename)) ∨
  getFileIcon filename = orNull (defaultFile M).
Proof.
  unfold Resolution.getFileIcon. cbv zeta.
  repeat match goal with
         | |- context [match lookup ?T ?k with _ => _ end] =>
             let E := fresh "E" in
             destruct (lookup T k) eqn:E; [left; by exists T, k|]
         | |- context [if bool_decide ?P then _ else _] =>
             destruct (bool_decide P)
         end; by right.
Qed.

Lemma getFolderIcon_cases foldername :
  (∃ T k, lookup T k = Some (getFolderIcon foldername)) ∨
  getFolderIcon foldername = orNull (defaultFolder M).
Proof.
  unfold Resolution.getFolderIcon. cbv zeta.
  destruct (lookup (folders M) foldername) as [v|] eqn:E1;
    [left; by exists (folders M), foldername|].
  destruct (startsWith "." foldername); [|by right].
  destruct (lookup (folders M) (substring1 foldername)) as [v|] eqn:E2;
    [left; by exists (folders M), (substring1 foldername)|by right].
Qed.

(** X1: whatever the tables hold and whatever the name is, [getFileIcon] and
    [getFolderIcon] return a truthy value or [null]: never [undefined] and
    never the empty string, so the scanners' test [if (!iconDataUri) return]
    only ever fires on [null]. *)
Theorem resolution_truthy_or_null name :
  (truthy (getFileIcon name) = true ∨ getFileIcon name = Null) ∧
  (truthy (getFolderIcon name) = true ∨ getFolderIcon name = Null).
Proof.
  split.
  - destruct (getFileIcon_cases name) as [(T & k & H)| ->].
    + left. by eapply lookup_truthy.
    + apply orNull_truthy_or_null.
  - destruct (getFolderIcon_cases name) as [(T & k & H)| ->].
    + left. by eapply lookup_truthy.
    + apply orNull_truthy_or_null.
Qed.

(** X2: when the table carries a non-empty default file icon, every file
    name resolves to a truthy value, and likewise every folder name with a
    non-empty default folder icon: no name is left without an icon. *)
Theorem resolution_total_with_defaults file folder name :
  defaultFile M = Some file → file ≠ "" →
  defaultFolder M = Some folder → folder ≠ "" →
  truthy (getFileIcon name) = true ∧ truthy (getFolderIcon name) = true.
Proof.
  intros Hf Hfne Hd Hdne. split.
  - destruct (getFileIcon_cases name) as [(T & k & H)| ->].
    + by eapply lookup_truthy.
    + rewrite Hf, orNull_default by done. simpl.
      by rewrite bool_decide_eq_false_2.
  - destruct (getFolderIcon_cases name) as [(T & k & H)| ->].
    + by eapply lookup_truthy.
    + rewrite Hd, orNull_default by done. simpl.
      by rewrite bool_decide_eq_false_2.
Qed.

(** X3: a name that is a member every object inherits from
    [Object.prototype] ([constructor], [toString], ...) and has no entry of
    its own is answered with the inherited member, which is truthy: the file
    or folder gets neither its extension icon nor the default. *)
Theorem resolution_inherited_member name :
  name ∈ objectPrototypeKeys →
  (filenames M !! name = None → getFileIcon name = Inherited name) ∧
  (folders M !! name = None → getFolderIcon name = Inherited name).
Proof.
  intros Hk. split; intros Hnone.
  - unfold Resolution.getFileIcon, lookup, get.
    rewrite Hnone, bool_decide_eq_true_2 by done. done.
  - unfold Resolution.getFolderIcon, lookup, get.
    rewrite Hnone, bool_decide_eq_true_2 by done. done.
Qed.

(** X4: a file name without a dot ([Makefile], [LICENSE]) is looked up in
    the filename table only; without a truthy entry there it gets the
    default file icon (or [null]), whatever the extension table holds. *)
Theorem getFileIcon_no_extension name :
  dotFree name = true →
  lookup (filenames M) name = None →
  getFileIcon name = orNull (defaultFile M).
Proof.
  intros Hdot Hnone. unfold Resolution.getFileIcon.
  rewrite Hnone, (split_dotFree _ Hdot). by simpl.
Qed.

End Fallbacks.

Lemma resolution_total_with_defaults_witness :
  truthy (getFileIcon asciiToLowerCase tableXml "notes.unknown") = true ∧
  truthy (getFolderIcon tableXml "unknown") = true.
Proof.
  apply (resolution_total_with_defaults asciiToLowerCase tableXml
           "data:file" "data:folder" "notes.unknown"); done.
Defined.

Lemma resolution_inherited_member_witness :
  (filenames tableXml !! "constructor" = None →
   getFileIcon asciiToLowerCase tableXml "constructor" =
     Inherited "constructor") ∧
  (folders tableXml !! "constructor" = None →
   getFolderIcon tableXml "constructor" = Inherited "constructor").
Proof.
  apply (resolution_inherited_member asciiToLowerCase tableXml "constructor").
  apply list_elem_of_here.
Defined.

Lemma getFileIcon_no_extension_witness :
  getFileIcon asciiToLowerCase tableXml "LICENSE" = Str "data:file".
Proof.
  apply (getFileIcon_no_extension asciiToLowerCase tableXml "LICENSE").
  - reflexivity.
  - vm_compute. reflexivity.
Defined.

End ResolutionEdge.

(** ** The pass and the observer: what they keep, count and ignore *)

Module EnginePass.
Import Js Resolution Dom Engine DomFacts EngineFacts Reconciliation.

(** The page is kept: every node of [d] is in [d'] with its tag, classes,
    attributes, text and ancestors (its style may differ), every other node
    of [d'] is a replacement image, and no text changes. *)
Definition pageKept (d d' : dom) : Prop :=
  (∀ x n, getNode d x = Some n →
          ∃ n', getNode d' x = Some n' ∧ shape n' = shape n) ∧
  (∀ n', n' ∈ d' → nodeId n' ∉ ids d → replacementImg n' = true) ∧
  (∀ x, textContent d' x = textContent d x).

Lemma extends_added old d d' k :
  extends old d d' → k ∈ d' → nodeId k ∉ ids d → replacementImg k = true.
Proof.
  unfold ids. induction 1 as [|n n' d d' Hs H IH|m d d' Hm Hid H IH];
    intros Hk Hnew.
  - by apply elem_of_nil in Hk.
  - apply elem_of_cons in Hk as [->|Hk].
    + exfalso. apply Hnew. rewrite fmap_cons, (shape_nodeId _ _ Hs). by left.
    + apply IH; [done|]. intros Hin. apply Hnew. rewrite fmap_cons. by right.
  - apply elem_of_cons in Hk as [->|Hk]; [done|]. by apply IH.
Qed.

Lemma grows_pageKept d d' : grows d d' → pageKept d d'.
Proof.
  intros Hg. split; [|split].
  - intros x n. by apply grows_getNode.
  - intros n'. destruct Hg as [Hext _]. by eapply extends_added.
  - intros x. by apply grows_textContent.
Qed.

(** The step adds [k] nodes and counts them. *)
Definition tallies (d : dom) (stats : option nat) (d' : dom)
    (stats' : option nat) : Prop :=
  ∃ k, length d' = length d + k ∧ stats' = (λ n, n + k) <$> stats.

Lemma tallies_same d stats : tallies d stats d stats.
Proof.
  exists 0. split; [lia|]. destruct stats as [n|]; simpl; [|done].
  f_equal. lia.
Qed.

Lemma tallies_trans d s d1 s1 d2 s2 :
  tallies d s d1 s1 → tallies d1 s1 d2 s2 → tallies d s d2 s2.
Proof.
  intros (k1 & Hl1 & ->) (k2 & Hl2 & ->). exists (k1 + k2). split; [lia|].
  destruct s as [n|]; simpl; [|done]. f_equal. lia.
Qed.

Lemma ids_length (d : dom) : length (ids d) = length d.
Proof. unfold ids. apply length_fmap. Qed.

Lemma same_ids_length d d' : ids d' = ids d → length d' = length d.
Proof. intros H. by rewrite <-!ids_length, H. Qed.

Lemma replaces_tallies d d' svg img stats :
  replaces d d' svg img → tallies d stats d' (countReplaced stats).
Proof.
  intros [_ Hperm _ _ _]. exists 1. split.
  - rewrite <-!ids_length, Hperm. simpl. lia.
  - unfold countReplaced. destruct stats as [n|]; simpl; [|done].
    f_equal. lia.
Qed.

Section Pass.

Variable toLowerCase : string → string.
Variable trim : string → string.
Variable stringOfInherited : string → string.
Variable M : IconMappings.

Abbreviation replaceIconForItem :=
  (replaceIconForItem toLowerCase trim stringOfInherited M).
Abbreviation replaceIconForTreeItem :=
  (replaceIconForTreeItem toLowerCase trim stringOfInherited M).
Abbreviation replaceIcons :=
  (replaceIcons toLowerCase trim stringOfInherited M).
Abbreviation processItem :=
  (processItem toLowerCase trim stringOfInherited M).
Abbreviation observerCallback :=
  (observerCallback toLowerCase trim stringOfInherited M).

(** What the pass and the observer rely on of a step. *)
Definition steady
    (f : dom → nat → option nat → option (dom * option nat)) : Prop :=
  ∀ d item stats,
    invariant d →
    ∃ d' stats',
      f d item stats = Some (d', stats') ∧
      grows d d' ∧ invariant d' ∧ tallies d stats d' stats'.

Lemma replaceIconForItem_steady : steady replaceIconForItem.
Proof.
  intros d item stats Hinv.
  destruct (replaceIconForItem_step toLowerCase trim stringOfInherited M
              d item stats Hinv) as (d' & stats' & Hstep & Hg & Hinv' & _).
  destruct (replaceIconForItem_outcome toLowerCase trim stringOfInherited M
              d item stats Hinv) as (d1 & s1 & Hstep1 & Hout).
  rewrite Hstep in Hstep1. simplify_eq.
  exists d1, s1. do 3 (split; [done|]).
  destruct Hout as [-> ->|svg img _ -> Hrep _].
  - apply tallies_same.
  - by eapply replaces_tallies.
Qed.

Lemma replaceIconForTreeItem_steady : steady replaceIconForTreeItem.
Proof.
  intros d item stats Hinv.
  destruct (replaceIconForTreeItem_step toLowerCase trim stringOfInherited M
              d item stats Hinv) as (d' & stats' & Hstep & Hg & Hinv' & _).
  destruct (replaceIconForTreeItem_outcome toLowerCase trim stringOfInherited
              M d item stats Hinv) as (d1 & s1 & Hstep1 & Hout).
  rewrite Hstep in Hstep1. simplify_eq.
  exists d1, s1. do 3 (split; [done|]).
  destruct Hout as [-> ->|svg p _ _ -> ->|svg img _ -> Hrep _].
  - apply tallies_same.
  - exists 0. split.
    + rewrite (same_ids_length _ _ (hide_ids d svg)). lia.
    + destruct stats as [n|]; simpl; [|done]. f_equal. lia.
  - by eapply replaces_tallies.
Qed.

Lemma processItem_steady : steady processItem.
Proof.
  intros d item stats Hinv. unfold Engine.processItem.
  destruct (classListContains d (Some item) "PRIVATE_TreeView-item-content").
  - by apply replaceIconForTreeItem_steady.
  - by apply replaceIconForItem_steady.
Qed.

Lemma forEach_steady f items d stats :
  steady f → invariant d →
  ∃ d' stats',
    forEach f items d stats = Some (d', stats') ∧
    grows d d' ∧ invariant d' ∧ tallies d stats d' stats'.
Proof.
  intros Hf. revert d stats.
  induction items as [|item items IH]; intros d stats Hinv.
  - exists d, stats. split; [done|]. split; [apply grows_refl|].
    split; [done|apply tallies_same].
  - destruct (Hf d item stats Hinv) as (d1 & s1 & H1 & Hg1 & Hinv1 & Ht1).
    destruct (IH d1 s1 Hinv1) as (d2 & s2 & H2 & Hg2 & Hinv2 & Ht2).
    exists d2, s2. simpl. rewrite H1. simpl. split; [done|].
    split; [by eapply grows_trans|]. split; [done|].
    by eapply tallies_trans.
Qed.

Lemma replaceIcons_steady d :
  invariant d →
  ∃ d' n, replaceIcons d = Some (d', Some n) ∧
          grows d d' ∧ invariant d' ∧ length d' = length d + n.
Proof.
  intros Hinv. unfold Engine.replaceIcons. cbv zeta.
  destruct (forEach_steady replaceIconForItem
              (if bool_decide (length (documentQuerySelectorAll d selRow) = 0)
               then documentQuerySelectorAll d selTableRow
               else documentQuerySelectorAll d selRow)
              d (Some 0) replaceIconForItem_steady Hinv)
    as (d1 & s1 & H1 & Hg1 & Hinv1 & Ht1).
  rewrite H1. simpl.
  destruct (forEach_steady replaceIconForTreeItem
              (documentQuerySelectorAll d1 selTreeItem)
              d1 s1 replaceIconForTreeItem_steady Hinv1)
    as (d2 & s2 & H2 & Hg2 & Hinv2 & Ht2).
  rewrite H2.
  destruct (tallies_trans _ _ _ _ _ _ Ht1 Ht2) as (k & Hlen & ->).
  exists d2, k. split; [done|]. split; [by eapply grows_trans|]. done.
Qed.

(** X5: on a well-formed DOM in which no replacement directly follows an
    edit link, the number [replaceIcons] reports in [stats.replaced] is the
    number of nodes the pass added to the DOM. *)
Theorem replaceIcons_counts_insertions d :
  invariant d →
  ∃ d' n, replaceIcons d = Some (d', Some n) ∧ length d' = length d + n.
Proof.
  intros Hinv.
  destruct (replaceIcons_steady d Hinv) as (d' & n & H & _ & _ & Hlen).
  by exists d', n.
Qed.

(** X6: on such a DOM the pass keeps the page: every node is still there
    with its tag, classes, attributes, text and ancestors, every node the
    pass added is a replacement image, and the text of every node is what it
    was. *)
Theorem replaceIcons_keeps_page d :
  invariant d →
  ∃ d' stats, replaceIcons d = Some (d', stats) ∧ pageKept d d'.
Proof.
  intros Hinv.
  destruct (replaceIcons_steady d Hinv) as (d' & n & H & Hg & _).
  exists d', (Some n). split; [done|]. by apply grows_pageKept.
Qed.

(** X7: on such a DOM the observer callback returns for every batch of
    mutation records, whatever they report, and keeps the page in the same
    sense; the DOM it leaves is again well-formed with no replacement
    directly after an edit link. *)
Theorem observerCallback_keeps_page d mutations :
  invariant d →
  ∃ d', observerCallback d mutations = Some d' ∧
        pageKept d d' ∧ invariant d'.
Proof.
  intros Hinv. unfold Engine.observerCallback. cbv zeta.
  destruct (forEach_steady processItem (collect d mutations) d None
              processItem_steady Hinv) as (d' & s' & H & Hg & Hinv' & _).
  rewrite H. simpl. exists d'. split; [done|].
  split; [by apply grows_pageKept|done].
Qed.

End Pass.

(** *** Mutations the observer does not act on *)

(** A record of what the steps themselves do: elements added are
    replacement images (or the nodes added are no elements), nothing is
    removed, and a changed attribute belongs to a node whose style hides
    it. *)
Definition ownMutation (d : dom) (m : mutationRecord) : Prop :=
  removedNodes m = [] ∧
  Forall (λ x, isElementNode d x = false ∨
               classListContains d (Some x) MARKER = true) (addedNodes m) ∧
  (mutationKind m = Attributes →
   getStyle d (Engine.target m) "visibility" = "hidden").

Lemma collectAdded_own d m rows :
  Forall (λ x, isElementNode d x = false ∨
               classListContains d (Some x) MARKER = true) (addedNodes m) →
  collectAdded d m rows = rows.
Proof.
  unfold collectAdded. generalize (addedNodes m). intros l.
  induction 1 as [|x l Hx _ IH]; simpl; [done|].
  destruct Hx as [-> | Hx]; simpl; [done|].
  destruct (isElementNode d x); simpl; [|done]. by rewrite Hx.
Qed.

Lemma collect_own d mutations :
  Forall (ownMutation d) mutations → collect d mutations = [].
Proof.
  unfold collect.
  assert (∀ rows, Forall (ownMutation d) mutations →
            foldl (λ rows m,
                     collectAdded d m
                       (collectAttributes d m (collectRemoved d m rows)))
                  rows mutations = rows) as H; [|apply H].
  intros rows H. revert rows.
  induction H as [|m l (Hrem & Hadd & Hattr) _ IH]; intros rows; simpl;
    [done|].
  rewrite IH.
  rewrite (collectAdded_own _ _ _ Hadd).
  unfold collectRemoved. rewrite Hrem. simpl.
  unfold collectAttributes.
  destruct (mutationKind m); [done|].
  rewrite (bool_decide_eq_true_2 _ (Hattr eq_refl)).
  simpl. by rewrite andb_false_r.
Qed.

Section Observer.

Variable toLowerCase : string → string.
Variable trim : string → string.
Variable stringOfInherited : string → string.
Variable M : IconMappings.

(** X8: the observer does not act on what the steps themselves do. A batch
    in which every record reports added replacement images, no removed node
    and attribute changes of hidden nodes only queues no item, and the
    callback returns the DOM as it is, whatever the DOM. *)
Theorem observerCallback_ignores_own_mutations d mutations :
  Forall (ownMutation d) mutations →
  collect d mutations = [] ∧
  observerCallback toLowerCase trim stringOfInherited M d mutations = Some d.
Proof.
  intros H. pose proof (collect_own d mutations H) as Hc.
  split; [done|]. unfold observerCallback. by rewrite Hc.
Qed.

End Observer.

Lemma replaceIcons_counts_insertions_witness :
  ∃ d' n, pagePass page = Some (d', Some n) ∧ length d' = length page + n.
Proof.
  apply (replaceIcons_counts_insertions asciiToLowerCase asciiTrim (λ k, k)
           ResolutionFacts.tableXml page).
  apply invariantb_correct. vm_compute. reflexivity.
Defined.

Lemma replaceIcons_keeps_page_witness :
  ∃ d' stats, pagePass page = Some (d', stats) ∧ pageKept page d'.
Proof.
  apply (replaceIcons_keeps_page asciiToLowerCase asciiTrim (λ k, k)
           ResolutionFacts.tableXml page).
  apply invariantb_correct. vm_compute. reflexivity.
Defined.

Lemma observerCallback_keeps_page_witness :
  ∃ d', pageObserver orphanedRow [MutationRecord ChildList 12 [] [36]] =
          Some d' ∧
        pageKept orphanedRow d' ∧ invariant d'.
Proof.
  apply (observerCallback_keeps_page asciiToLowerCase asciiTrim (λ k, k)
           ResolutionFacts.tableXml orphanedRow
           [MutationRecord ChildList 12 [] [36]]).
  apply invariantb_correct. vm_compute. reflexivity.
Defined.

Lemma observerCallback_ignores_own_mutations_witness :
  collect processed [MutationRecord ChildList 12 [36] [];
                     MutationRecord Attributes 13 [] []] = [] ∧
  pageObserver processed [MutationRecord ChildList 12 [36] [];
                          MutationRecord Attributes 13 [] []] =
    Some processed.
Proof.
  apply (observerCallback_ignores_own_mutations asciiToLowerCase asciiTrim
           (λ k, k) ResolutionFacts.tableXml processed).
  constructor; [|constructor; [|constructor]].
  - split; [reflexivity|]. split.
    + constructor; [|constructor]. right. vm_compute. reflexivity.
    + intros H. discriminate H.
  - split; [reflexivity|]. split; [constructor|].
    intros _. vm_compute. reflexivity.
Defined.

End EnginePass.

(** ** The build pipeline: copying icons and building the table *)

Module BuildFacts.
Import Js Resolution Build.

#[local] Arguments Build.copyIcon : simpl never.

Section Copy.

Variable stringOfInherited : string → string.
Variable sourcePathOf : string → string.
Variable iconPathOf : string → string.
Variable priorityList : PriorityList.t.

Abbreviation svgFile := (svgFile stringOfInherited).
Abbreviation copyIcon := (copyIcon stringOfInherited sourcePathOf iconPathOf).
Abbreviation neededIcons := (neededIcons priorityList).
Abbreviation copyNeededIcons :=
  (copyNeededIcons stringOfInherited sourcePathOf iconPathOf priorityList).

(** Every turn of the loop counts its icon once. *)
Lemma copyIcon_count fs c s m icon fs' c' s' m' :
  copyIcon (fs, (c, s, m)) icon = (fs', (c', s', m')) →
  c' + s' + m' = S (c + s + m).
Proof.
  unfold Build.copyIcon. cbv zeta.
  destruct (fs !! sourcePathOf (svgFile icon)) as [content|].
  - case_bool_decide; intros [= <- <- <- <-]; lia.
  - intros [= <- <- <- <-]. lia.
Qed.

Lemma copyIcon_counts icons fs c s m fs' c' s' m' :
  foldl copyIcon (fs, (c, s, m)) icons = (fs', (c', s', m')) →
  c' + s' + m' = c + s + m + length icons.
Proof.
  revert fs c s m. induction icons as [|icon icons IH]; intros fs c s m H.
  - simpl in H. simplify_eq. simpl. lia.
  - simpl in H.
    destruct (copyIcon (fs, (c, s, m)) icon) as [fs1 [[c1 s1] m1]] eqn:E.
    apply copyIcon_count in E. apply IH in H. simpl. lia.
Qed.

(** X9: every needed icon is counted exactly once: the counters
    [copyNeededIcons] returns add up to [total], whatever the disk holds. *)
Theorem copyNeededIcons_counts_every_icon fs fileIcons folderIcons :
  let stats := (copyNeededIcons fs fileIcons folderIcons).2 in
  copied stats + skipped stats + missing stats = total stats ∧
  total stats = length (neededIcons fileIcons folderIcons).
Proof.
  unfold Build.copyNeededIcons. cbv zeta.
  destruct (foldl copyIcon (fs, (0, 0, 0)) (neededIcons fileIcons folderIcons))
    as [fs' [[c s] m]] eqn:E.
  apply copyIcon_counts in E. simpl. split; [lia|done].
Qed.

(** The source and the destination directory do not overlap, and different
    file names are different files of the destination directory. *)
Hypothesis separate : ∀ a b, sourcePathOf a ≠ iconPathOf b.
Hypothesis iconPathOf_inj : ∀ a b, iconPathOf a = iconPathOf b → a = b.

(** The disk after the loop over [icons]: the destination of every icon
    that has a source holds the content of the source, and every other path
    is as it was. *)
Definition copiedOver (icons : list value) (fs fs' : fileSystem) : Prop :=
  (∀ icon content, icon ∈ icons →
     fs !! sourcePathOf (svgFile icon) = Some content →
     fs' !! iconPathOf (svgFile icon) = Some content) ∧
  (∀ p, (∀ icon, icon ∈ icons →
           is_Some (fs !! sourcePathOf (svgFile icon)) →
           p ≠ iconPathOf (svgFile icon)) →
        fs' !! p = fs !! p).

Lemma copyIcon_disk fs counters icon :
  let fs' := (copyIcon (fs, counters) icon).1 in
  (∀ content, fs !! sourcePathOf (svgFile icon) = Some content →
              fs' !! iconPathOf (svgFile icon) = Some content) ∧
  (∀ p, (is_Some (fs !! sourcePathOf (svgFile icon)) →
         p ≠ iconPathOf (svgFile icon)) →
        fs' !! p = fs !! p).
Proof.
  destruct counters as [[c s] m]. unfold Build.copyIcon. cbv zeta.
  destruct (fs !! sourcePathOf (svgFile icon)) as [content|] eqn:Es.
  - case_bool_decide as Hd; simpl.
    + split; [by intros ? [= <-]|done].
    + split.
      * intros ? [= <-]. apply lookup_insert_eq.
      * intros p Hp. apply lookup_insert_ne.
        intros Heq. by apply Hp.
  - simpl. split; [done|done].
Qed.

Lemma foldl_copyIcon_disk icons fs counters :
  copiedOver icons fs (foldl copyIcon (fs, counters) icons).1.
Proof.
  revert fs counters. induction icons as [|icon icons IH]; intros fs counters.
  - split; [by intros ?? ?%elem_of_nil|done].
  - simpl. pose proof (copyIcon_disk fs counters icon) as [Hone Hrest].
    destruct (copyIcon (fs, counters) icon) as [fs1 counters1] eqn:E.
    simpl in Hone, Hrest.
    destruct (IH fs1 counters1) as [IHcopied IHrest].
    assert (∀ a, fs1 !! sourcePathOf a = fs !! sourcePathOf a) as Hsrc.
    { intros a. apply Hrest. intros _. apply separate. }
    split.
    + intros i content Hi Hs.
      destruct (decide (Exists (λ j, svgFile j = svgFile i) icons))
        as [(j & Hj & Hfile)%Exists_exists|Hnone].
      * rewrite <-Hfile. apply IHcopied; [done|]. by rewrite Hsrc, Hfile.
      * assert (i = icon) as ->.
        { apply elem_of_cons in Hi as [->|Hi]; [done|].
          exfalso. apply Hnone, Exists_exists. by exists i. }
        rewrite IHrest; [by apply Hone|].
        intros j Hj _ Heq. apply Hnone, Exists_exists. exists j.
        split; [done|]. symmetry. by apply iconPathOf_inj.
    + intros p Hp. rewrite IHrest.
      * apply Hrest. intros Hs. apply Hp; [by left|done].
      * intros j Hj Hs. apply Hp; [by right|]. by rewrite <-Hsrc.
Qed.

Lemma copyNeededIcons_disk fs fileIcons folderIcons :
  copiedOver (neededIcons fileIcons folderIcons) fs
             (copyNeededIcons fs fileIcons folderIcons).1.
Proof.
  unfold Build.copyNeededIcons. cbv zeta.
  pose proof (foldl_copyIcon_disk (neededIcons fileIcons folderIcons)
                fs (0, 0, 0)) as H.
  by destruct (foldl copyIcon (fs, (0, 0, 0))
                 (neededIcons fileIcons folderIcons)) as [fs' [[c s] m]].
Qed.

(** X10: when the source and the destination directory do not overlap and
    different file names are different destination files, the disk
    [copyNeededIcons] leaves holds, at the destination of every needed icon
    that exists in the source directory, the content of the source; every
    other file, the sources among them, is as it was. *)
Theorem copyNeededIcons_copies fs fileIcons folderIcons :
  copiedOver (neededIcons fileIcons folderIcons) fs
             (copyNeededIcons fs fileIcons folderIcons).1.
Proof. apply copyNeededIcons_disk. Qed.

(** The needed icons without a file in the source directory. *)
Definition withoutSource (fs : fileSystem) (icons : list value) : list value :=
  filter (λ icon, fs !! sourcePathOf (svgFile icon) = None) icons.

(** On a disk on which every icon with a source is copied already, the
    loop changes nothing and counts no copy. *)
Lemma foldl_copyIcon_settled icons fs c s m :
  (∀ icon content, icon ∈ icons →
     fs !! sourcePathOf (svgFile icon) = Some content →
     fs !! iconPathOf (svgFile icon) = Some content) →
  ∃ s', foldl copyIcon (fs, (c, s, m)) icons =
          (fs, (c, s', m + length (withoutSource fs icons))).
Proof.
  revert s m. induction icons as [|icon icons IH]; intros s m Hdone.
  - exists s. simpl. by rewrite Nat.add_0_r.
  - simpl. unfold Build.copyIcon at 2. cbv zeta. unfold withoutSource.
    destruct (fs !! sourcePathOf (svgFile icon)) as [content|] eqn:Es.
    + rewrite bool_decide_eq_true_2.
      2:{ apply Hdone; [by left|done]. }
      destruct (IH (S s) m) as (s' & H).
      { intros i ct Hi. apply Hdone. by right. }
      exists s'. rewrite H. rewrite filter_cons_False; [done|]. by rewrite Es.
    + destruct (IH s (S m)) as (s' & H).
      { intros i ct Hi. apply Hdone. by right. }
      exists s'. rewrite H. rewrite filter_cons_True by done. simpl.
      do 3 f_equal. unfold withoutSource. lia.
Qed.

(** X11: under the same conditions a second run of [copyNeededIcons] right
    after the first copies nothing and leaves the disk as the first run left
    it; it reports as missing the needed icons without a source. *)
Theorem copyNeededIcons_twice fs fileIcons folderIcons :
  let first := copyNeededIcons fs fileIcons folderIcons in
  let second := copyNeededIcons first.1 fileIcons folderIcons in
  second.1 = first.1 ∧ copied second.2 = 0 ∧
  missing second.2 =
    length (withoutSource fs (neededIcons fileIcons folderIcons)).
Proof.
  cbv zeta.
  pose proof (copyNeededIcons_disk fs fileIcons folderIcons) as [Hc Hrest].
  destruct (copyNeededIcons fs fileIcons folderIcons) as [fs1 st1] eqn:E1.
  simpl in *.
  assert (∀ a, fs1 !! sourcePathOf a = fs !! sourcePathOf a) as Hsrc.
  { intros a. apply Hrest. intros ? _ _. apply separate. }
  unfold Build.copyNeededIcons. cbv zeta.
  destruct (foldl_copyIcon_settled (neededIcons fileIcons folderIcons)
              fs1 0 0 0) as (s' & H).
  { intros icon content Hi Hs. apply Hc; [done|]. by rewrite <-Hsrc. }
  rewrite H. simpl. split; [done|]. split; [done|].
  unfold withoutSource. f_equal. apply list_filter_iff. intros icon.
  by rewrite Hsrc.
Qed.

End Copy.

(** *** The table of the userscript *)

Lemma get_assignProperty T key value k :
  get (assignProperty T key value) k =
    if bool_decide (k = key ∧ key ≠ "__proto__") then Str value else get T k.
Proof.
  unfold assignProperty, get. case_bool_decide as Hp.
  - rewrite (bool_decide_eq_false_2 (k = key ∧ _)); [done|]. tauto.
  - destruct (decide (k = key)) as [->|Hne].
    + rewrite lookup_insert_eq.
      by rewrite (bool_decide_eq_true_2 (key = key ∧ _)).
    + rewrite lookup_insert_ne by done.
      rewrite (bool_decide_eq_false_2 (k = key ∧ _)); [done|]. tauto.
Qed.

(** The icon name of an extension once the manual mappings are added. *)
Lemma get_manualExtensionMappings T k :
  get (assign T manualExtensionMappings) k =
    if bool_decide (k = "html") then Str "html"
    else if bool_decide (k = "yaml") then Str "yaml"
    else if bool_decide (k = "yml") then Str "yaml"
    else get T k.
Proof.
  unfold assign, manualExtensionMappings. simpl.
  rewrite !get_assignProperty.
  repeat case_bool_decide; destruct_and?; simplify_eq; try done;
    exfalso; match goal with H : ¬ (_ ∧ _) |- _ => by apply H end.
Qed.

Lemma get_manualFilenameMappings T k :
  get (assign T manualFilenameMappings) k =
    if bool_decide (k = ".distignore") then Str "git" else get T k.
Proof.
  unfold assign, manualFilenameMappings. simpl.
  rewrite !get_assignProperty.
  repeat case_bool_decide; destruct_and?; simplify_eq; try done;
    exfalso; match goal with H : ¬ (_ ∧ _) |- _ => by apply H end.
Qed.

Section Table.

Variable stringOfInherited : string → string.
Variable base64 : string → string.
Variable iconPathOf : string → string.
Variable priorityList : PriorityList.t.

Abbreviation svgFile := (svgFile stringOfInherited).
Abbreviation svgToDataUri := (svgToDataUri base64).
Abbreviation mapIcons := (mapIcons stringOfInherited base64 iconPathOf).
Abbreviation buildIconMappings :=
  (buildIconMappings stringOfInherited base64 iconPathOf priorityList).

(** The data URI a key stands for: the table names an icon for it and the
    file of that icon is on disk. *)
Definition iconOf (fs : fileSystem) (table : option (gmap string string))
    (key : string) : option string :=
  match table with
  | Some T =>
      if truthy (get T key)
      then svgToDataUri <$> fs !! iconPathOf (svgFile (get T key))
      else None
  | None => None
  end.

(** [mapping] holds, for the keys of the priority list, the data URIs they
    stand for, and nothing else. *)
Definition builtFrom (fs : fileSystem) (table : option (gmap string string))
    (keys : list string) (mapping : gmap string string) : Prop :=
  ∀ k, mapping !! k =
       if bool_decide (k ∈ keys ∧ k ≠ "__proto__") then iconOf fs table k
       else None.

Lemma mapIcons_built fs table keys : builtFrom fs table keys (mapIcons fs table keys).
Proof.
  unfold builtFrom, Build.mapIcons.
  set (step := λ (mapping : gmap string string) (key : string), _).
  assert (∀ acc k,
            foldl step acc keys !! k =
              match (if bool_decide (k ∈ keys ∧ k ≠ "__proto__")
                     then iconOf fs table k else None) with
              | Some uri => Some uri
              | None => acc !! k
              end) as H.
  { induction keys as [|key keys IH]; intros acc k.
    - cbn [foldl]. rewrite bool_decide_eq_false_2; [done|].
      by intros [?%elem_of_nil _].
    - cbn [foldl]. rewrite IH. clear IH.
      assert (step acc key !! k =
                match (if bool_decide (k = key ∧ k ≠ "__proto__")
                       then iconOf fs table k else None) with
                | Some uri => Some uri
                | None => acc !! k
                end) as ->.
      { unfold step, iconOf. destruct table as [T|].
        2:{ by destruct (bool_decide _). }
        destruct (truthy (get T key)) eqn:Et.
        2:{ case_bool_decide as Hk; [|done]. destruct Hk as [-> _].
            by rewrite Et. }
        destruct (fs !! iconPathOf (svgFile (get T key))) as [svg|] eqn:Ef.
        2:{ case_bool_decide as Hk; [|done]. destruct Hk as [-> _].
            by rewrite Et, Ef. }
        unfold assignProperty. case_bool_decide as Hp.
        - rewrite bool_decide_eq_false_2; [done|]. intros [-> ?]. done.
        - destruct (decide (k = key)) as [->|Hne].
          + rewrite lookup_insert_eq, bool_decide_eq_true_2 by done.
            by rewrite Et, Ef.
          + rewrite lookup_insert_ne by done.
            rewrite bool_decide_eq_false_2; [done|]. tauto. }
      destruct (decide (k ≠ "__proto__")) as [Hp|Hp].
      2:{ rewrite !bool_decide_eq_false_2 by tauto. done. }
      destruct (decide (k ∈ keys)) as [Hin|Hnin].
      + rewrite (bool_decide_eq_true_2 (k ∈ keys ∧ _)) by done.
        rewrite (bool_decide_eq_true_2 (k ∈ key :: keys ∧ _)).
        2:{ split; [by right|done]. }
        destruct (iconOf fs table k); [done|]. by destruct (bool_decide _).
      + rewrite (bool_decide_eq_false_2 (k ∈ keys ∧ _)) by tauto.
        destruct (decide (k = key)) as [->|Hne].
        * rewrite (bool_decide_eq_true_2 (key ∈ key :: keys ∧ _)).
          2:{ split; [by left|done]. }
          by rewrite (bool_decide_eq_true_2 (key = key ∧ _)).
        * rewrite (bool_decide_eq_false_2 (k ∈ key :: keys ∧ _)).
          2:{ rewrite elem_of_cons. tauto. }
          rewrite (bool_decide_eq_false_2 (k = key ∧ _)) by tauto. done. }
  intros k. rewrite H, lookup_empty. by destruct (if bool_decide _ then _ else _).
Qed.

Lemma buildIconMappings_built fs fileIcons folderIcons M :
  buildIconMappings fs fileIcons folderIcons = Some M →
  ∃ exts names,
    fileExtensions fileIcons = Some exts ∧
    fileNames fileIcons = Some names ∧
    builtFrom fs (Some (assign exts manualExtensionMappings))
              (PriorityList.extensions priorityList) (extensions M) ∧
    builtFrom fs (Some (assign names manualFilenameMappings))
              (PriorityList.filenames priorityList) (filenames M) ∧
    builtFrom fs (folderNames folderIcons)
              (PriorityList.folders priorityList) (folders M).
Proof.
  unfold Build.buildIconMappings.
  destruct (fileNames fileIcons) as [names|]; [|done].
  destruct (fileExtensions fileIcons) as [exts|]; [|done].
  simpl. intros [= <-]. exists exts, names. simpl.
  do 2 (split; [done|]). repeat split; apply mapIcons_built.
Qed.

(** X12: the tables [buildIconMappings] returns hold, for exactly the keys
    of the priority list whose icon name (after the manual mappings are
    added) is truthy and whose icon file is on disk, the data URI of that
    file; a key outside the priority list, and a key without an icon file,
    has no entry. *)
Theorem buildIconMappings_tables fs fileIcons folderIcons M :
  buildIconMappings fs fileIcons folderIcons = Some M →
  ∃ exts names,
    fileExtensions fileIcons = Some exts ∧
    fileNames fileIcons = Some names ∧
    builtFrom fs (Some (assign exts manualExtensionMappings))
              (PriorityList.extensions priorityList) (extensions M) ∧
    builtFrom fs (Some (assign names manualFilenameMappings))
              (PriorityList.filenames priorityList) (filenames M) ∧
    builtFrom fs (folderNames folderIcons)
              (PriorityList.folders priorityList) (folders M).
Proof. apply buildIconMappings_built. Qed.

(** X13: an extension with a manual mapping gets the icon of the manual
    mapping, whatever the upstream table says for it: when it is in the
    priority list, its entry is the data URI of the manual icon's file if
    that file is on disk, and it has no entry otherwise. *)
Theorem buildIconMappings_manual_extension fs fileIcons folderIcons M ext icon :
  buildIconMappings fs fileIcons folderIcons = Some M →
  (ext, icon) ∈ manualExtensionMappings →
  ext ∈ PriorityList.extensions priorityList →
  extensions M !! ext = svgToDataUri <$> fs !! iconPathOf (icon +:+ ".svg").
Proof.
  intros (exts & names & _ & _ & Hexts & _)%buildIconMappings_built
         Hmanual Hin.
  rewrite (Hexts ext).
  unfold manualExtensionMappings in Hmanual.
  rewrite !elem_of_cons, elem_of_nil in Hmanual.
  rewrite bool_decide_eq_true_2.
  2:{ split; [done|]. intros ->. intuition congruence. }
  unfold iconOf. rewrite get_manualExtensionMappings.
  destruct Hmanual as [[= -> ->]|[[= -> ->]|[[= -> ->]|[]]]]; done.
Qed.

Lemma svgToDataUri_truthy svg : truthy (Str (svgToDataUri svg)) = true.
Proof. done. Qed.

(** X14: with the default icons [file.svg] and [folder.svg] on disk at build
    time, the table [buildIconMappings] returns resolves every name of every
    kind to a truthy value: every entry and both defaults are data URIs, so
    no scanned item is left without an icon for lack of one. *)
Theorem buildIconMappings_resolves_every_name
    fs fileIcons folderIcons M toLowerCase k name :
  buildIconMappings fs fileIcons folderIcons = Some M →
  is_Some (fs !! iconPathOf "file.svg") →
  is_Some (fs !! iconPathOf "folder.svg") →
  truthy (resolve toLowerCase M k name) = true.
Proof.
  unfold Build.buildIconMappings.
  destruct (fileNames fileIcons) as [names|]; [|done].
  destruct (fileExtensions fileIcons) as [exts|]; [|done].
  simpl. intros [= <-] [file Hfile] [folder Hfolder].
  destruct k; simpl.
  - match goal with |- truthy (getFileIcon _ ?M _) = true => set (T := M) end.
    destruct (ResolutionEdge.getFileIcon_cases toLowerCase T name)
      as [(tbl & key & H)| ->].
    + by eapply ResolutionEdge.lookup_truthy.
    + unfold T. simpl. by rewrite Hfile.
  - match goal with |- truthy (getFolderIcon ?M _) = true => set (T := M) end.
    destruct (ResolutionEdge.getFolderIcon_cases T name)
      as [(tbl & key & H)| ->].
    + by eapply ResolutionEdge.lookup_truthy.
    + unfold T. simpl. by rewrite Hfolder.
  - done.
Qed.

End Table.

(** *** From the fetch to the build *)

Lemma addIcon_elem x y icons : x ∈ addIcon y icons ↔ x = y ∨ x ∈ icons.
Proof.
  unfold addIcon. case_bool_decide as Hin.
  - split; [by right|]. by intros [->|?].
  - rewrite elem_of_app, list_elem_of_singleton. tauto.
Qed.

Lemma collectNeeded_elem T keys icons x :
  x ∈ collectNeeded (Some T) keys icons ↔
  x ∈ icons ∨ ∃ k, k ∈ keys ∧ truthy (get T k) = true ∧ x = get T k.
Proof.
  unfold collectNeeded. revert icons.
  induction keys as [|key keys IH]; intros icons; cbn [foldl].
  - split; [by left|]. intros [?|(k & []%elem_of_nil & _)]. done.
  - rewrite IH. destruct (truthy (get T key)) eqn:Et.
    + rewrite addIcon_elem. split.
      * intros [[->|?]|(k & Hk & Hr)].
        -- right. exists key. split; [by left|done].
        -- by left.
        -- right. exists k. split; [by right|done].
      * intros [?|(k & [->|Hk]%elem_of_cons & Ht & ->)].
        -- left. by right.
        -- left. by left.
        -- right. by exists k.
    + split.
      * intros [?|(k & Hk & Hr)]; [by left|].
        right. exists k. split; [by right|done].
      * intros [?|(k & [->|Hk]%elem_of_cons & Ht & ->)]; [by left| |].
        -- congruence.
        -- right. by exists k.
Qed.

Lemma collectNeeded_mono table keys icons x :
  x ∈ icons → x ∈ collectNeeded table keys icons.
Proof.
  destruct table as [T|]; [|done]. rewrite collectNeeded_elem. by left.
Qed.

Section Pipeline.

Variable stringOfInherited : string → string.
Variable base64 : string → string.
Variable sourcePathOf : string → string.
Variable iconPathOf : string → string.
Variable priorityList : PriorityList.t.

Hypothesis separate : ∀ a b, sourcePathOf a ≠ iconPathOf b.
Hypothesis iconPathOf_inj : ∀ a b, iconPathOf a = iconPathOf b → a = b.

(** X15: the fetch feeds the build. For an extension of the priority list
    that has no manual mapping, when the upstream table names an icon for
    it and that icon's file is in the source directory, the table built
    from the disk [copyNeededIcons] leaves holds for the extension the data
    URI of that file. *)
Theorem fetch_then_build_extension fs fileIcons folderIcons M exts ext content :
  buildIconMappings stringOfInherited base64 iconPathOf priorityList
    (copyNeededIcons stringOfInherited sourcePathOf iconPathOf priorityList
       fs fileIcons folderIcons).1
    fileIcons folderIcons = Some M →
  ext ∈ PriorityList.extensions priorityList →
  ext ∉ manualExtensionMappings.*1 →
  ext ≠ "__proto__" →
  fileExtensions fileIcons = Some exts →
  truthy (get exts ext) = true →
  fs !! sourcePathOf (svgFile stringOfInherited (get exts ext)) =
    Some content →
  extensions M !! ext = Some (svgToDataUri base64 content).
Proof.
  intros (exts' & names & Hexts & _ & Hbuilt & _)%buildIconMappings_built
         Hin Hmanual Hproto Hfile Htruthy Hsource.
  rewrite Hfile in Hexts. injection Hexts as <-.
  rewrite (Hbuilt ext), bool_decide_eq_true_2 by done.
  unfold iconOf. rewrite get_manualExtensionMappings.
  unfold manualExtensionMappings in Hmanual. simpl in Hmanual.
  rewrite !not_elem_of_cons in Hmanual. destruct Hmanual as (? & ? & ? & _).
  rewrite !bool_decide_eq_false_2 by done. rewrite Htruthy.
  destruct (copyNeededIcons_disk stringOfInherited sourcePathOf iconPathOf
              priorityList separate iconPathOf_inj fs fileIcons folderIcons)
    as [Hcopied _].
  rewrite (Hcopied (get exts ext) content); [done| |done].
  unfold neededIcons. cbv zeta.
  do 2 apply collectNeeded_mono. rewrite Hfile.
  apply collectNeeded_elem. right. by exists ext.
Qed.

End Pipeline.

(** *** Language icons merged into the extension table *)

(** The inner loop of [addLanguageExtensions] over the extensions of one
    language. *)
Definition addExtensions (iconName : string) (extensions : list string)
    (state : gmap string string * nat) : gmap string string * nat :=
  foldl (λ '(fileExtensions, languageExtensionsAdded) ext,
           if negb (truthy (get fileExtensions ext))
           then (assignProperty fileExtensions ext iconName,
                 S languageExtensionsAdded)
           else (fileExtensions, languageExtensionsAdded))
        state extensions.

(** One turn of the loop over the entries. *)
Definition addLanguage (state : option (gmap string string * nat))
    (entry : string * string) : option (gmap string string * nat) :=
  '(fileExtensions, languageExtensionsAdded) ← state;
  match readList LANGUAGE_TO_EXTENSIONS entry.1 with
  | OwnList extensions =>
      Some (addExtensions entry.2 extensions
              (fileExtensions, languageExtensionsAdded))
  | NoList => Some (fileExtensions, languageExtensionsAdded)
  | InheritedMember => None
  end.

Lemma addLanguageExtensions_unfold languageMappings fileExtensions :
  addLanguageExtensions languageMappings fileExtensions =
    foldl addLanguage (Some (fileExtensions, 0)) languageMappings.
Proof.
  unfold addLanguageExtensions. generalize (Some (fileExtensions, 0)).
  induction languageMappings as [|[langId iconName] entries IH]; intros state;
    [done|].
  cbn [foldl]. rewrite IH. reflexivity.
Qed.

Lemma addLanguage_step T n langId iconName :
  addLanguage (Some (T, n)) (langId, iconName) =
    match readList LANGUAGE_TO_EXTENSIONS langId with
    | OwnList extensions => Some (addExtensions iconName extensions (T, n))
    | NoList => Some (T, n)
    | InheritedMember => None
    end.
Proof. done. Qed.

Lemma foldl_addLanguage_None entries : foldl addLanguage None entries = None.
Proof. induction entries as [|e entries IH]; [done|]. simpl. apply IH. Qed.

Lemma addExtensions_keeps iconName extensions T n ext :
  truthy (get T ext) = true →
  get (addExtensions iconName extensions (T, n)).1 ext = get T ext.
Proof.
  unfold addExtensions. revert T n.
  induction extensions as [|e extensions IH]; intros T n Ht; [done|].
  cbn [foldl]. destruct (truthy (get T e)) eqn:Ee; simpl.
  - by apply IH.
  - assert (get (assignProperty T e iconName) ext = get T ext) as Hsame.
    { rewrite get_assignProperty, bool_decide_eq_false_2; [done|].
      intros [-> _]. congruence. }
    rewrite IH; [done|]. by rewrite Hsame.
Qed.

Lemma addExtensions_other iconName extensions T n ext :
  ext ∉ extensions →
  get (addExtensions iconName extensions (T, n)).1 ext = get T ext.
Proof.
  unfold addExtensions. revert T n.
  induction extensions as [|e extensions IH]; intros T n Hnin; [done|].
  apply not_elem_of_cons in Hnin as [Hne Hnin].
  cbn [foldl]. destruct (truthy (get T e)) eqn:Ee; simpl.
  - by apply IH.
  - rewrite IH by done.
    rewrite get_assignProperty, bool_decide_eq_false_2; [done|]. tauto.
Qed.

Lemma addExtensions_adds iconName extensions T n ext :
  ext ∈ extensions → ext ≠ "__proto__" → iconName ≠ "" →
  truthy (get T ext) = false →
  get (addExtensions iconName extensions (T, n)).1 ext = Str iconName.
Proof.
  unfold addExtensions. revert T n.
  induction extensions as [|e extensions IH]; intros T n Hin Hp Hicon Hf.
  { by apply elem_of_nil in Hin. }
  cbn [foldl]. destruct (decide (ext = e)) as [<-|Hne].
  - rewrite Hf. simpl.
    assert (get (assignProperty T ext iconName) ext = Str iconName) as Hset.
    { by rewrite get_assignProperty, bool_decide_eq_true_2. }
    rewrite <-Hset.
    apply (addExtensions_keeps iconName extensions _ (S n) ext).
    rewrite Hset. simpl. by rewrite bool_decide_eq_false_2.
  - apply elem_of_cons in Hin as [?|Hin]; [done|].
    destruct (truthy (get T e)) eqn:Ee; simpl.
    + by apply IH.
    + apply IH; [done..|].
      rewrite get_assignProperty, bool_decide_eq_false_2; [done|]. tauto.
Qed.

Lemma foldl_addLanguage_keeps entries T n T' n' ext :
  foldl addLanguage (Some (T, n)) entries = Some (T', n') →
  truthy (get T ext) = true → get T' ext = get T ext.
Proof.
  revert T n. induction entries as [|[langId iconName] entries IH];
    intros T n H Ht.
  - simpl in H. by simplify_eq.
  - cbn [foldl] in H. rewrite addLanguage_step in H.
    destruct (readList LANGUAGE_TO_EXTENSIONS langId) as [exts| |].
    + pose proof (addExtensions_keeps iconName exts T n ext Ht) as Hk.
      destruct (addExtensions iconName exts (T, n)) as [T1 n1].
      simpl in Hk. rewrite <-Hk. eapply IH; [done|]. by rewrite Hk.
    + by eapply IH.
    + by rewrite foldl_addLanguage_None in H.
Qed.

(** X16: the language icons never replace an icon the extension table
    already has: when the merge returns, every extension with a truthy entry
    before it has the same entry after it. *)
Theorem addLanguageExtensions_keeps_defined
    languageMappings fileExtensions merged added ext :
  addLanguageExtensions languageMappings fileExtensions =
    Some (merged, added) →
  truthy (get fileExtensions ext) = true →
  get merged ext = get fileExtensions ext.
Proof.
  rewrite addLanguageExtensions_unfold. apply foldl_addLanguage_keeps.
Qed.

(** No list of [LANGUAGE_TO_EXTENSIONS] names [__proto__]. *)
Lemma language_extensions_plain langId extensions ext :
  readList LANGUAGE_TO_EXTENSIONS langId = OwnList extensions →
  ext ∈ extensions → ext ≠ "__proto__".
Proof.
  unfold readList.
  destruct (List.find _ LANGUAGE_TO_EXTENSIONS) as [kv|] eqn:E.
  2:{ by destruct (bool_decide _). }
  intros [= <-] Hin ->. apply find_some in E as [E _].
  assert (Forall (λ kv : string * list string, "__proto__" ∉ kv.2)
            LANGUAGE_TO_EXTENSIONS) as Hall.
  { apply Forall_forall. intros x Hx.
    apply (bool_decide_unpack _).
    revert x Hx. apply Forall_forall.
    apply (bool_decide_unpack _). vm_compute. reflexivity. }
  rewrite Forall_forall in Hall. apply (Hall kv); [|done].
  by apply list_elem_of_In.
Qed.

(** X17: an extension several languages share goes to the first of them in
    the order of the entries: when the table has no truthy entry for the
    extension, no earlier entry is a language with that extension, and the
    icon name is not empty, the merged table maps the extension to the icon
    of that language, whatever comes later. *)
Theorem addLanguageExtensions_first_language
    earlier langId iconName later fileExtensions merged added extensions ext :
  addLanguageExtensions (earlier ++ (langId, iconName) :: later)
                        fileExtensions = Some (merged, added) →
  truthy (get fileExtensions ext) = false →
  Forall (λ entry, ∀ l, readList LANGUAGE_TO_EXTENSIONS entry.1 = OwnList l →
                        ext ∉ l) earlier →
  readList LANGUAGE_TO_EXTENSIONS langId = OwnList extensions →
  ext ∈ extensions →
  iconName ≠ "" →
  get merged ext = Str iconName.
Proof.
  rewrite addLanguageExtensions_unfold, foldl_app. cbn [foldl].
  intros H Hfalsy Hearlier Hlang Hin Hicon.
  assert (∀ st, foldl addLanguage (Some st) earlier ≠ None →
            ∃ T1 n1, foldl addLanguage (Some st) earlier = Some (T1, n1) ∧
                     get T1 ext = get st.1 ext) as Hpre.
  { clear H. induction Hearlier as [|[l i] es Hl _ IH]; intros [T n] Hsome.
    - by exists T, n.
    - cbn [foldl] in Hsome |- *. rewrite addLanguage_step in Hsome |- *.
      simpl in Hl.
      destruct (readList LANGUAGE_TO_EXTENSIONS l) as [exts| |].
      + pose proof (addExtensions_other i exts T n ext (Hl exts eq_refl))
          as Ho.
        destruct (addExtensions i exts (T, n)) as [T1 n1]. simpl in Ho.
        destruct (IH (T1, n1) Hsome) as (T2 & n2 & H2 & Hg).
        exists T2, n2. split; [done|]. simpl in Hg. by rewrite Hg.
      + by apply IH.
      + by rewrite foldl_addLanguage_None in Hsome. }
  destruct (Hpre (fileExtensions, 0)) as (T1 & n1 & H1 & Hg1).
  { intros Hnone. rewrite Hnone in H. simpl in H.
    by rewrite foldl_addLanguage_None in H. }
  rewrite H1, addLanguage_step, Hlang in H. simpl in Hg1.
  pose proof (addExtensions_adds iconName extensions T1 n1 ext Hin
                (language_extensions_plain _ _ _ Hlang Hin) Hicon) as Hadd.
  rewrite Hg1 in Hadd. specialize (Hadd Hfalsy).
  destruct (addExtensions iconName extensions (T1, n1)) as [T2 n2].
  simpl in Hadd.
  rewrite (foldl_addLanguage_keeps _ _ _ _ _ ext H), Hadd; [done|].
  rewrite Hadd. simpl. by rewrite bool_decide_eq_false_2.
Qed.

(** *** Pattern types of file names *)

Lemma asciiLower_idem c : asciiLower (asciiLower c) = asciiLower c.
Proof. destruct c as [[] [] [] [] [] [] [] []]; reflexivity. Qed.

Lemma asciiToLowerCase_idem s :
  asciiToLowerCase (asciiToLowerCase s) = asciiToLowerCase s.
Proof.
  induction s as [|c s IH]; [done|]. simpl. by rewrite asciiLower_idem, IH.
Qed.

(** A lower-cased name is none of the keys that hold a capital letter. *)
Lemma asciiToLowerCase_not_capital s k :
  asciiToLowerCase k ≠ k → asciiToLowerCase s ≠ k.
Proof. intros Hk Hs. apply Hk. by rewrite <-Hs, asciiToLowerCase_idem. Qed.

Lemma readList_cons key l o k :
  readList ((key, l) :: o) k =
    if bool_decide (key = k) then OwnList l else readList o k.
Proof. unfold readList. simpl. by case_bool_decide. Qed.

(** The file names of [FILE_NAME_PATTERNS.ecmascript] and the like. *)
Definition expansion (baseName : string) (extensions : list string)
  : list string :=
  (λ ext, baseName +:+ "." +:+ ext) <$> extensions.

(** X18: the pattern type is lower-cased before it is looked up in
    [FILE_NAME_PATTERNS], so the key [nodeEcosystem], which holds a capital
    letter, is never found: whatever the pattern name, an entry expands to
    the names of [ecmascript], of [configuration] or of [yaml], to no name at
    all, or the lookup throws; the name [NodeEcosystem] itself expands to no
    name. *)
Theorem patternFileNames_lowercased_lookup baseName patternName :
  patternFileNames baseName "NodeEcosystem" = Some [] ∧
  (patternFileNames baseName patternName = None ∨
   patternFileNames baseName patternName = Some [] ∨
   patternFileNames baseName patternName =
     Some (expansion baseName ["js"; "mjs"; "cjs"; "ts"; "mts"; "cts"]) ∨
   patternFileNames baseName patternName =
     Some (expansion baseName
             ["json"; "jsonc"; "json5"; "yaml"; "yml"; "toml"]) ∨
   patternFileNames baseName patternName =
     Some (expansion baseName ["yaml"; "yml"])).
Proof.
  split; [done|].
  unfold patternFileNames, FILE_NAME_PATTERNS. cbv zeta.
  rewrite !readList_cons.
  destruct (bool_decide ("ecmascript" = asciiToLowerCase patternName));
    [right; right; by left|].
  destruct (bool_decide ("configuration" = asciiToLowerCase patternName));
    [right; right; right; by left|].
  case_bool_decide as Hnode.
  { symmetry in Hnode. by apply asciiToLowerCase_not_capital in Hnode. }
  destruct (bool_decide ("yaml" = asciiToLowerCase patternName));
    [right; right; right; by right|].
  unfold readList. simpl.
  destruct (bool_decide (asciiToLowerCase patternName ∈ objectPrototypeKeys));
    [by left|right; by left].
Qed.

(** *** A disk, upstream tables and the runs on them *)

Definition vendorPath (name : string) : string :=
  "vendor/material-icon-theme/icons/" +:+ name.

Definition cachePath (name : string) : string := "cache/icons/" +:+ name.

Lemma vendorPath_cachePath a b : vendorPath a ≠ cachePath b.
Proof. unfold vendorPath, cachePath. intros H. cbv in H. discriminate H. Qed.

Lemma cachePath_inj a b : cachePath a = cachePath b → a = b.
Proof. unfold cachePath. intros H. cbv in H. by simplify_eq. Qed.

(** Upstream maps [html] to the icon [django]; the build maps it to [html]
    by hand. The icon [nodejs] has no file upstream. *)
Definition upstreamFileIcons : FileIcons := {|
  fileExtensions :=
    Some {[ "php" := "php"; "htm" := "html"; "html" := "django" ]};
  fileNames := Some {[ "package.json" := "nodejs" ]}
|}.

Definition upstreamFolderIcons : FolderIcons := {|
  folderNames := Some {[ "src" := "folder-src" ]}
|}.

Definition vendorDisk : fileSystem :=
  {[ vendorPath "php.svg" := "<svg>php</svg>";
     vendorPath "html.svg" := "<svg>html</svg>";
     vendorPath "django.svg" := "<svg>django</svg>";
     vendorPath "folder-src.svg" := "<svg>src</svg>";
     vendorPath "file.svg" := "<svg>file</svg>";
     cachePath "file.svg" := "<svg>file</svg>";
     cachePath "folder.svg" := "<svg>folder</svg>" ]}.

Definition fetched : fileSystem * CopyStats :=
  copyNeededIcons (λ k, k) vendorPath cachePath priority_list_js
                  vendorDisk upstreamFileIcons upstreamFolderIcons.

Definition built : option IconMappings :=
  buildIconMappings (λ k, k) (λ s, s) cachePath priority_list_js
                    fetched.1 upstreamFileIcons upstreamFolderIcons.

Lemma copyNeededIcons_copies_witness :
  copiedOver (λ k, k) vendorPath cachePath
    (neededIcons priority_list_js upstreamFileIcons upstreamFolderIcons)
    vendorDisk fetched.1.
Proof.
  apply (copyNeededIcons_copies (λ k, k) vendorPath cachePath priority_list_js
           vendorPath_cachePath cachePath_inj
           vendorDisk upstreamFileIcons upstreamFolderIcons).
Defined.

Lemma copyNeededIcons_twice_witness :
  (copyNeededIcons (λ k, k) vendorPath cachePath priority_list_js
     fetched.1 upstreamFileIcons upstreamFolderIcons).1 = fetched.1 ∧
  copied (copyNeededIcons (λ k, k) vendorPath cachePath priority_list_js
            fetched.1 upstreamFileIcons upstreamFolderIcons).2 = 0 ∧
  missing (copyNeededIcons (λ k, k) vendorPath cachePath priority_list_js
             fetched.1 upstreamFileIcons upstreamFolderIcons).2 =
    length (withoutSource (λ k, k) vendorPath vendorDisk
              (neededIcons priority_list_js upstreamFileIcons
                 upstreamFolderIcons)).
Proof.
  apply (copyNeededIcons_twice (λ k, k) vendorPath cachePath priority_list_js
           vendorPath_cachePath cachePath_inj
           vendorDisk upstreamFileIcons upstreamFolderIcons).
Defined.

Lemma buildIconMappings_tables_witness :
  ∃ M exts names,
    built = Some M ∧
    fileExtensions upstreamFileIcons = Some exts ∧
    fileNames upstreamFileIcons = Some names ∧
    builtFrom (λ k, k) (λ s, s) cachePath fetched.1
              (Some (assign exts manualExtensionMappings))
              (PriorityList.extensions priority_list_js) (extensions M) ∧
    builtFrom (λ k, k) (λ s, s) cachePath fetched.1
              (Some (assign names manualFilenameMappings))
              (PriorityList.filenames priority_list_js) (filenames M) ∧
    builtFrom (λ k, k) (λ s, s) cachePath fetched.1
              (folderNames upstreamFolderIcons)
              (PriorityList.folders priority_list_js) (folders M).
Proof.
  eexists.
  destruct (buildIconMappings_tables (λ k, k) (λ s, s) cachePath
              priority_list_js fetched.1 upstreamFileIcons upstreamFolderIcons
              _ eq_refl) as (exts & names & H).
  exists exts, names. split; [reflexivity|exact H].
Defined.

Lemma buildIconMappings_manual_extension_witness :
  ∃ M, built = Some M ∧
       extensions M !! "html" =
         svgToDataUri (λ s, s) <$> fetched.1 !! cachePath ("html" +:+ ".svg").
Proof.
  eexists. split; [reflexivity|].
  apply (buildIconMappings_manual_extension (λ k, k) (λ s, s) cachePath
           priority_list_js fetched.1 upstreamFileIcons upstreamFolderIcons
           _ "html" "html" eq_refl).
  - unfold manualExtensionMappings. rewrite !elem_of_cons. tauto.
  - apply (bool_decide_unpack _). vm_compute. reflexivity.
Defined.

Lemma buildIconMappings_resolves_every_name_witness :
  ∃ M, built = Some M ∧
       truthy (resolve asciiToLowerCase M File "notes.unknown") = true.
Proof.
  eexists. split; [reflexivity|].
  apply (buildIconMappings_resolves_every_name (λ k, k) (λ s, s) cachePath
           priority_list_js fetched.1 upstreamFileIcons upstreamFolderIcons
           _ asciiToLowerCase File "notes.unknown" eq_refl).
  - vm_compute. by eexists.
  - vm_compute. by eexists.
Defined.

Lemma fetch_then_build_extension_witness :
  ∃ M, built = Some M ∧
       extensions M !! "php" = Some (svgToDataUri (λ s, s) "<svg>php</svg>").
Proof.
  eexists. split; [reflexivity|].
  apply (fetch_then_build_extension (λ k, k) (λ s, s) vendorPath cachePath
           priority_list_js vendorPath_cachePath cachePath_inj
           vendorDisk upstreamFileIcons upstreamFolderIcons _
           {[ "php" := "php"; "htm" := "html"; "html" := "django" ]}
           "php" "<svg>php</svg>" eq_refl).
  - apply (bool_decide_unpack _). vm_compute. reflexivity.
  - apply (bool_decide_unpack _). vm_compute. reflexivity.
  - done.
  - reflexivity.
  - vm_compute. reflexivity.
  - vm_compute. reflexivity.
Defined.

Lemma addLanguageExtensions_keeps_defined_witness :
  ∃ merged added,
    addLanguageExtensions [("php", "php-language"); ("python", "python")]
                          {[ "php" := "php" ]} = Some (merged, added) ∧
    get merged "php" = get {[ "php" := "php" ]} "php".
Proof.
  exists (<["py" := "python"]> {[ "php" := "php" ]}), 1.
  split; [vm_compute; reflexivity|].
  apply (addLanguageExtensions_keeps_defined
           [("php", "php-language"); ("python", "python")]
           {[ "php" := "php" ]} _ 1 "php"); vm_compute; reflexivity.
Defined.

Lemma addLanguageExtensions_first_language_witness :
  ∃ merged added,
    addLanguageExtensions
      ([("php", "php")] ++ ("matlab", "matlab") ::
         [("objective-c", "objective-c")]) ∅ = Some (merged, added) ∧
    get merged "m" = Str "matlab".
Proof.
  exists (<["m" := "matlab"]> {[ "php" := "php" ]}), 2.
  split; [vm_compute; reflexivity|].
  apply (addLanguageExtensions_first_language
           [("php", "php")] "matlab" "matlab" [("objective-c", "objective-c")]
           ∅ _ 2 ["m"] "m").
  - vm_compute. reflexivity.
  - vm_compute. reflexivity.
  - constructor; [|constructor]. intros l H. vm_compute in H.
    injection H as <-. apply (bool_decide_unpack _). vm_compute. reflexivity.
  - vm_compute. reflexivity.
  - apply list_elem_of_here.
  - done.
Defined.

End BuildFacts.

(** ** Reading the upstream records *)

Module ConfigsFacts.
Import Js Resolution Parser Regex Build Configs StringFacts ParserFacts.

#[local] Open Scope nat_scope.

(** *** Strings and runs of a class *)

(** Every character of [s] is in the class [p]. *)
Fixpoint allChars (p : ascii → bool) (s : string) : bool :=
  match s with
  | EmptyString => true
  | String c s' => p c && allChars p s'
  end.

Lemma allChars_append p a b :
  allChars p (a +:+ b) = allChars p a && allChars p b.
Proof.
  induction a as [|c a IH]; [by rewrite append_nil|].
  rewrite append_cons. simpl. rewrite IH. by rewrite andb_assoc.
Qed.

Lemma append_empty_r (a : string) : a +:+ "" = a.
Proof. induction a as [|c a IH]; [done|]. by rewrite append_cons, IH. Qed.

Lemma take_drop k s : takeString k s +:+ dropString k s = s.
Proof.
  revert s. induction k as [|k IH]; intros s; [by rewrite append_nil|].
  destruct s as [|c s]; [done|]. simpl. by rewrite append_cons, IH.
Qed.

Lemma length_dropString k s :
  String.length (dropString k s) = String.length s - k.
Proof.
  revert s. induction k as [|k IH]; intros s; simpl; [lia|].
  destruct s as [|c s]; simpl; [done|]. apply IH.
Qed.

Lemma length_takeString k s :
  k ≤ String.length s → String.length (takeString k s) = k.
Proof.
  revert s. induction k as [|k IH]; intros s Hk; [done|].
  destruct s as [|c s]; simpl in *; [lia|]. rewrite IH; lia.
Qed.

Lemma run_length p s : run p s ≤ String.length s.
Proof.
  induction s as [|c s IH]; simpl; [lia|]. destruct (p c); lia.
Qed.

Lemma takeString_run p k s :
  k ≤ run p s → allChars p (takeString k s) = true.
Proof.
  revert s. induction k as [|k IH]; intros s Hk; [done|].
  destruct s as [|c s]; simpl in *; [done|].
  destruct (p c); [|lia]. simpl. apply IH. lia.
Qed.

(** A run of the class stops at the first character outside it. *)
Lemma run_stop p a c rest :
  allChars p a = true → p c = false →
  run p (a +:+ String c rest) = String.length a.
Proof.
  intros Ha Hc. induction a as [|x a IH].
  - rewrite append_nil. simpl. by rewrite Hc.
  - rewrite append_cons. simpl in *. apply andb_prop in Ha as [-> Ha].
    by rewrite IH.
Qed.

Lemma run_end p a : allChars p a = true → run p a = String.length a.
Proof.
  intros Ha. induction a as [|x a IH]; [done|]. simpl in *.
  apply andb_prop in Ha as [-> Ha]. by rewrite IH.
Qed.

(** *** The alternatives of a repetition *)

Lemma firstSome_Some {A B} (f : A → option B) l y :
  firstSome f l = Some y → ∃ x, x ∈ l ∧ f x = Some y.
Proof.
  induction l as [|x l IH]; simpl; [done|].
  destruct (f x) as [z|] eqn:E.
  - intros [= <-]. exists x. split; [by left|done].
  - intros (x' & Hx' & Hf)%IH. exists x'. split; [by right|done].
Qed.

Lemma firstSome_None {A B} (f : A → option B) l :
  (∀ x, x ∈ l → f x = None) → firstSome f l = None.
Proof.
  induction l as [|x l IH]; intros H; simpl; [done|].
  rewrite (H x) by by left. apply IH. intros x' Hx'. apply H. by right.
Qed.

Lemma elem_of_counts k min n greedy :
  k ∈ counts min n greedy ↔ min ≤ k ≤ n.
Proof.
  unfold counts. destruct greedy.
  - rewrite list_elem_of_In, <-in_rev, in_seq. lia.
  - rewrite list_elem_of_In, in_seq. lia.
Qed.

(** A greedy repetition takes the longest run that lets the rest match. *)
Lemma firstSome_greedy {B} (f : nat → option B) min n k y :
  min ≤ k ≤ n → f k = Some y → (∀ j, k < j ≤ n → f j = None) →
  firstSome f (counts min n true) = Some y.
Proof.
  intros Hk Hf Hlater. unfold counts.
  replace (S n - min) with ((k - min) + (S (n - k))) by lia.
  rewrite seq_app, rev_app_distr.
  replace (min + (k - min)) with k by lia.
  assert (∀ l, firstSome f (rev (seq (S k) (n - k)) ++ l) = firstSome f l)
    as Hskip.
  { intros l. assert (∀ x, x ∈ rev (seq (S k) (n - k)) → f x = None) as Hn.
    { intros x. rewrite list_elem_of_In, <-in_rev, in_seq.
      intros ?. apply Hlater. lia. }
    induction (rev (seq (S k) (n - k))) as [|x l' IH]; [done|].
    simpl. rewrite (Hn x) by by left. apply IH.
    intros x' Hx'. apply Hn. by right. }
  cbn [seq]. cbn [rev]. rewrite <-!app_assoc. rewrite Hskip. simpl.
  by rewrite Hf.
Qed.

(** *** One atom at a time *)

Lemma matchHere_Chr c r s opened captures :
  matchHere (Chr c :: r) (String c s) opened captures =
  matchHere r s opened captures.
Proof. simpl. by rewrite bool_decide_eq_true_2. Qed.

Lemma matchHere_Chr_ne c c' r s opened captures :
  c' ≠ c → matchHere (Chr c :: r) (String c' s) opened captures = None.
Proof. intros H. simpl. by rewrite bool_decide_eq_false_2. Qed.

Lemma matchHere_Cls p c r s opened captures :
  p c = true →
  matchHere (Cls p :: r) (String c s) opened captures =
  matchHere r s opened captures.
Proof. intros H. simpl. by rewrite H. Qed.

Lemma matchHere_Open r s opened captures :
  matchHere (Open :: r) s opened captures =
  matchHere r s (s :: opened) captures.
Proof. done. Qed.

Lemma matchHere_Close r s start opened captures :
  matchHere (Close :: r) s (start :: opened) captures =
  matchHere r s opened
    (captures ++ [takeString (String.length start - String.length s) start]).
Proof. done. Qed.

Lemma matchHere_greedy p min r s opened captures k y :
  min ≤ k ≤ run p s →
  matchHere r (dropString k s) opened captures = Some y →
  (∀ j, k < j ≤ run p s →
        matchHere r (dropString j s) opened captures = None) →
  matchHere (Rep p min true :: r) s opened captures = Some y.
Proof. intros Hk Hy Hlater. cbn [matchHere]. by eapply firstSome_greedy. Qed.

(** The whole run, when the rest matches after it. *)
Lemma matchHere_greedy_run p min r body c rest opened captures y :
  allChars p body = true → p c = false → min ≤ String.length body →
  matchHere r (String c rest) opened captures = Some y →
  matchHere (Rep p min true :: r) (body +:+ String c rest) opened captures =
    Some y.
Proof.
  intros Hbody Hc Hmin Hy.
  apply (matchHere_greedy _ _ _ _ _ _ (String.length body)).
  - rewrite run_stop by done. lia.
  - by rewrite dropString_append.
  - rewrite run_stop by done. lia.
Qed.

Lemma capture_taken body rest :
  takeString (String.length (body +:+ rest) - String.length rest)
             (body +:+ rest) = body.
Proof.
  rewrite length_append.
  replace (_ + _ - _) with (String.length body) by lia.
  apply takeString_append.
Qed.

(** *** What a match of the quoted-name expression looks like *)

Lemma matchHere_quoted s rest caps :
  matchHere quotedPattern s [] [] = Some (rest, caps) →
  ∃ c1 body c2,
    s = String c1 (body +:+ String c2 rest) ∧
    isQuote c1 = true ∧ isQuote c2 = true ∧
    body ≠ "" ∧ allChars notQuote body = true ∧ caps = [body].
Proof.
  unfold quotedPattern. cbn [matchHere].
  destruct s as [|c1 s1]; [done|].
  destruct (isQuote c1) eqn:Hc1; [|done].
  intros (k & Hk%elem_of_counts & Hm)%firstSome_Some.
  rewrite length_dropString in Hm.
  pose proof (run_length notQuote s1) as Hlen.
  replace (String.length s1 - (String.length s1 - k)) with k in Hm by lia.
  destruct (dropString k s1) as [|c2 rest'] eqn:Hd; [done|].
  destruct (isQuote c2) eqn:Hc2; [|done]. simpl in Hm.
  injection Hm as <- <-.
  exists c1, (takeString k s1), c2.
  split; [by rewrite <-Hd, take_drop|].
  do 2 (split; [done|]). split.
  - intros He. assert (String.length (takeString k s1) = k) as Hl.
    { apply length_takeString. lia. }
    rewrite He in Hl. simpl in Hl. lia.
  - split; [|done]. apply takeString_run. lia.
Qed.

Lemma removeQuotes_plain s : allChars notQuote s = true → removeQuotes s = s.
Proof.
  induction s as [|c s IH]; [done|]. simpl. unfold notQuote at 1.
  intros [Hc Hs]%andb_prop. apply negb_true_iff in Hc. rewrite Hc.
  by rewrite IH.
Qed.

Lemma removeQuotes_append a b :
  removeQuotes (a +:+ b) = removeQuotes a +:+ removeQuotes b.
Proof.
  induction a as [|c a IH]; [by rewrite !append_nil|].
  rewrite append_cons. simpl. destruct (isQuote c); [done|].
  by rewrite append_cons, IH.
Qed.

Lemma takeString_matched c1 body c2 rest :
  takeString
    (String.length (String c1 (body +:+ String c2 rest)) - String.length rest)
    (String c1 (body +:+ String c2 rest)) =
  String c1 (body +:+ String c2 "").
Proof.
  replace (String c1 (body +:+ String c2 rest))
    with (String c1 (body +:+ String c2 "") +:+ rest).
  2:{ rewrite append_cons, append_assoc. by rewrite append_cons. }
  rewrite length_append.
  replace (_ + _ - _) with (String.length (String c1 (body +:+ String c2 "")))
    by lia.
  apply takeString_append.
Qed.

(** Every match of a pass over [s] is a match at some place of [s]. *)
Lemma matchAllFrom_elem r s i skip m :
  m ∈ matchAllFrom r s i skip →
  ∃ t j found, matchHere r t [] [] = Some found ∧ m = resultAt t j found.
Proof.
  revert i skip. induction s as [|c s IH]; intros i skip.
  - destruct skip; simpl; [|by intros ?%elem_of_nil].
    destruct (matchHere r "" [] []) as [found|] eqn:E;
      [|by intros ?%elem_of_nil].
    intros [->|?%elem_of_nil]%elem_of_cons; [|done]. by exists "", i, found.
  - destruct skip as [|skip]; cbn [matchAllFrom]; [|apply IH].
    destruct (matchHere r (String c s) [] []) as [found|] eqn:E; [|apply IH].
    intros [->|H]%elem_of_cons; [by exists (String c s), i, found|].
    by eapply IH.
Qed.

Lemma quotedNames_elem listText name :
  name ∈ quotedNames listText →
  name ≠ "" ∧ allChars notQuote name = true.
Proof.
  unfold quotedNames, matchAll.
  intros (m & -> & Hm)%list_elem_of_fmap.
  apply matchAllFrom_elem in Hm as (t & j & [rest caps] & Hmatch & ->).
  apply matchHere_quoted in Hmatch
    as (c1 & body & c2 & -> & Hc1 & Hc2 & Hne & Hplain & ->).
  unfold resultAt. cbn [matched fst snd].
  rewrite takeString_matched. simpl. rewrite Hc1, removeQuotes_append.
  simpl. rewrite Hc2, removeQuotes_plain by done.
  by rewrite append_empty_r.
Qed.

(** X19: every name read from a list is what stands between two quotes: it
    is not empty and holds no quote. *)
Theorem quotedNames_plain listText name :
  name ∈ quotedNames listText →
  name ≠ "" ∧ allChars notQuote name = true.
Proof. apply quotedNames_elem. Qed.

(** *** Lists as the upstream files write them *)

Definition quoted (name : string) : string := "'" +:+ name +:+ "'".

(** ['a', 'b', 'c'] *)
Definition formatList (names : list string) : string :=
  join ", " (quoted <$> names).

(** A name as it can stand between quotes. *)
Definition isName (name : string) : Prop :=
  name ≠ "" ∧ allChars notQuote name = true.

Lemma counts_greedy_head min n :
  min ≤ n → ∃ l, counts min n true = n :: l.
Proof.
  intros Hn. unfold counts.
  replace (S n - min) with (S (n - min)) by lia.
  rewrite seq_S, rev_app_distr. simpl.
  replace (min + (n - min)) with n by lia. by eexists.
Qed.

Lemma length_nonempty (s : string) : s ≠ "" → 1 ≤ String.length s.
Proof. destruct s; [done|]. simpl. lia. Qed.

Lemma quoted_append name rest :
  quoted name +:+ rest = String "'" (name +:+ String "'" rest).
Proof.
  unfold quoted.
  by rewrite append_assoc, append_cons, append_nil, append_assoc,
             append_cons, append_nil.
Qed.

Lemma length_quoted name : String.length (quoted name) = String.length name + 2.
Proof.
  rewrite <-(append_empty_r (quoted name)), quoted_append. simpl.
  rewrite length_append. simpl. lia.
Qed.

Lemma matchHere_quotedPattern name rest :
  isName name →
  matchHere quotedPattern (quoted name +:+ rest) [] [] = Some (rest, [name]).
Proof.
  intros [Hne Hplain]. rewrite quoted_append. unfold quotedPattern.
  cbn [matchHere]. simpl isQuote. cbv iota.
  rewrite (run_stop notQuote name "'" rest Hplain eq_refl).
  destruct (counts_greedy_head 1 (String.length name)
              (length_nonempty _ Hne)) as [l ->].
  cbn [firstSome]. rewrite dropString_append. simpl isQuote. cbv iota.
  rewrite length_append. simpl String.length.
  replace (_ + _ - _) with (String.length name) by lia.
  by rewrite takeString_append.
Qed.

Lemma matchAllFrom_skip r x rest i :
  matchAllFrom r (x +:+ rest) i (String.length x) =
  matchAllFrom r rest (i + String.length x) 0.
Proof.
  revert i. induction x as [|c x IH]; intros i.
  - rewrite append_nil. simpl. by rewrite Nat.add_0_r.
  - rewrite append_cons. simpl. rewrite IH. f_equal. lia.
Qed.

Lemma matchAllFrom_quoted name rest i :
  isName name →
  matchAllFrom quotedPattern (quoted name +:+ rest) i 0 =
    Result i (quoted name) [name] ::
    matchAllFrom quotedPattern rest (i + String.length (quoted name)) 0.
Proof.
  intros Hname.
  pose proof (matchHere_quotedPattern name rest Hname) as Hm.
  assert (takeString
            (String.length (quoted name +:+ rest) - String.length rest)
            (quoted name +:+ rest) = quoted name) as Htake.
  { rewrite length_append.
    replace (_ + _ - _) with (String.length (quoted name)) by lia.
    apply takeString_append. }
  rewrite quoted_append in Hm, Htake |- *. cbn [matchAllFrom]. rewrite Hm.
  unfold resultAt. cbn [fst snd matched]. rewrite Htake. f_equal.
  rewrite length_quoted.
  replace (String.length name + 2 - 1)
    with (String.length (name +:+ "'")).
  2:{ rewrite length_append. simpl. lia. }
  replace (name +:+ String "'" rest) with ((name +:+ "'") +:+ rest).
  2:{ by rewrite append_assoc, append_cons, append_nil. }
  rewrite matchAllFrom_skip. f_equal.
  rewrite length_append. simpl. lia.
Qed.

Lemma matchAllFrom_quoted_gap sep rest i :
  allChars notQuote sep = true →
  matchAllFrom quotedPattern (sep +:+ rest) i 0 =
  matchAllFrom quotedPattern rest (i + String.length sep) 0.
Proof.
  revert i. induction sep as [|c sep IH]; intros i Hsep.
  - rewrite append_nil. simpl. by rewrite Nat.add_0_r.
  - rewrite append_cons. simpl in Hsep.
    apply andb_prop in Hsep as [Hc Hsep].
    cbn [matchAllFrom]. unfold quotedPattern at 1. cbn [matchHere].
    unfold notQuote in Hc. apply negb_true_iff in Hc. rewrite Hc.
    rewrite IH by done. simpl. f_equal. lia.
Qed.

Lemma quotedNames_formatList_from names i :
  Forall isName names →
  (λ m, removeQuotes (matched m)) <$>
    matchAllFrom quotedPattern (formatList names) i 0 = names.
Proof.
  intros Hnames. revert i.
  induction Hnames as [|name names Hname Hnames IH]; intros i; [done|].
  assert (removeQuotes (quoted name) = name) as Hclean.
  { rewrite <-(append_empty_r (quoted name)), quoted_append. simpl.
    rewrite removeQuotes_append. simpl.
    rewrite removeQuotes_plain by apply Hname. apply append_empty_r. }
  unfold formatList in *. destruct names as [|name' names].
  - change (join ", " (quoted <$> [name])) with (quoted name).
    rewrite <-(append_empty_r (quoted name)).
    rewrite matchAllFrom_quoted by done. rewrite fmap_cons.
    cbn [matched]. by rewrite Hclean.
  - change (join ", " (quoted <$> name :: name' :: names))
      with (quoted name +:+ ", " +:+ join ", " (quoted <$> name' :: names)).
    rewrite matchAllFrom_quoted by done. rewrite fmap_cons.
    cbn [matched]. rewrite Hclean. f_equal.
    rewrite matchAllFrom_quoted_gap by done. apply IH.
Qed.

(** X20: a list written as the upstream files write it, each name between
    single quotes and the names separated by a comma and a blank, reads
    back as its names, in order, provided no name is empty or holds a
    quote. *)
Theorem quotedNames_formatList names :
  Forall isName names → quotedNames (formatList names) = names.
Proof. intros H. by apply quotedNames_formatList_from. Qed.

(** *** Literals, and where a colon can stand *)

(** Appends as a chain to the right, leading characters pulled out. *)
Ltac string_norm :=
  repeat (rewrite append_assoc || rewrite append_cons || rewrite append_nil).

Ltac string_norm_in H :=
  repeat (rewrite append_assoc in H || rewrite append_cons in H ||
          rewrite append_nil in H).

Lemma matchHere_lit w r t opened captures :
  matchHere (lit w ++ r) (w +:+ t) opened captures =
  matchHere r t opened captures.
Proof.
  induction w as [|c w IH]; [by rewrite append_nil|].
  rewrite append_cons. simpl. by rewrite bool_decide_eq_true_2.
Qed.

Lemma matchHere_lit_inv w r t opened captures found :
  matchHere (lit w ++ r) t opened captures = Some found →
  ∃ t', t = w +:+ t'.
Proof.
  revert t. induction w as [|c w IH]; intros t; [by exists t|].
  simpl. destruct t as [|c' t]; [done|]. case_bool_decide as Hc; [|done].
  intros (t' & ->)%IH. exists t'. by rewrite append_cons, Hc.
Qed.

Lemma append_inj_suffix (a b u v : string) :
  a +:+ u = b +:+ v → String.length u = String.length v → a = b ∧ u = v.
Proof.
  revert b. induction a as [|c a IH]; intros b H Hlen.
  - rewrite append_nil in H. destruct b as [|c' b]; [by rewrite append_nil in H|].
    exfalso. apply (f_equal String.length) in H.
    rewrite length_append in H. simpl in H. lia.
  - destruct b as [|c' b].
    + exfalso. rewrite append_nil in H. apply (f_equal String.length) in H.
      rewrite length_append in H. simpl in H. lia.
    + rewrite !append_cons in H. injection H as -> H.
      destruct (IH b H Hlen) as [-> ->]. done.
Qed.

Definition notColon (c : ascii) : bool := negb (bool_decide (c = ":"%char)).

(** Two ways to write a text around a colon, the first at its first colon:
    the second colon is the same, or it comes later. *)
Lemma first_colon U V U' V' :
  allChars notColon U = true →
  U +:+ String ":" V = U' +:+ String ":" V' →
  (U' = U ∧ V' = V) ∨
  (∃ W, U' = U +:+ String ":" W ∧ V = W +:+ String ":" V').
Proof.
  revert U'. induction U as [|c U IH]; intros U' HU H.
  - rewrite append_nil in H. destruct U' as [|c' U'].
    + rewrite append_nil in H. left. by injection H.
    + rewrite append_cons in H. injection H as <- ->.
      right. exists U'. by rewrite append_nil.
  - simpl in HU. apply andb_prop in HU as [Hc HU].
    rewrite append_cons in H. destruct U' as [|c' U'].
    + rewrite append_nil in H. injection H as -> _. done.
    + rewrite append_cons in H. injection H as <- H.
      destruct (IH U' HU H) as [[-> ->]|(W & -> & ->)]; [by left|].
      right. exists W. by rewrite append_cons.
Qed.

Lemma allChars_colon p a b :
  p ":"%char = false → allChars p (a +:+ String ":" b) = false.
Proof.
  intros Hp. rewrite allChars_append. simpl. rewrite Hp.
  apply andb_false_r.
Qed.

(** In a text with two colons, a word followed by a colon ends at one of
    them. *)
Lemma colon_occurrence A B C a u t :
  allChars notColon A = true → allChars notColon B = true →
  allChars notColon C = true →
  A +:+ String ":" (B +:+ String ":" C) = a +:+ u +:+ String ":" t →
  a +:+ u = A ∨ a +:+ u = A +:+ String ":" B.
Proof.
  intros HA HB HC H. rewrite <-append_assoc in H.
  destruct (first_colon _ _ _ _ HA H) as [[-> _]|(W & -> & H2)]; [by left|].
  right. destruct (first_colon _ _ _ _ HB H2) as [[-> _]|(W' & _ & H3)];
    [done|].
  rewrite H3 in HC. by rewrite allChars_colon in HC.
Qed.

(** *** Searching *)

Lemma search_skip r pre rest i :
  (∀ a b, pre = a +:+ b → b ≠ "" →
          matchHere r (b +:+ rest) [] [] = None) →
  search r (pre +:+ rest) i = search r rest (i + String.length pre).
Proof.
  revert i. induction pre as [|c pre IH]; intros i H.
  - rewrite append_nil. simpl. by rewrite Nat.add_0_r.
  - rewrite append_cons. cbn [search].
    rewrite <-append_cons, (H "" (String c pre)) by done.
    rewrite IH.
    + simpl. f_equal. lia.
    + intros a b -> Hb. apply (H (String c a) b); [|done].
      by rewrite append_cons.
Qed.

Lemma search_None r s i :
  (∀ a b, s = a +:+ b → matchHere r b [] [] = None) → search r s i = None.
Proof.
  revert i. induction s as [|c s IH]; intros i H.
  - simpl. by rewrite (H "" "").
  - cbn [search]. rewrite (H "" (String c s)) by done. apply IH.
    intros a b ->. apply (H (String c a) b). by rewrite append_cons.
Qed.

(** *** Records as the upstream files write them *)

(** A character of a name: no quote, brace, bracket or colon. *)
Definition isPlainChar (c : ascii) : bool :=
  notQuote c && notColon c &&
  negb (bool_decide (c = "{"%char)) && negb (bool_decide (c = "}"%char)) &&
  negb (bool_decide (c = "["%char)) && negb (bool_decide (c = "]"%char)).

Definition isPlain (name : string) : Prop :=
  name ≠ "" ∧ allChars isPlainChar name = true.

(** [{ name: 'icon', fileExtensions: ['a', 'b'] }] *)
Definition formatRecord (icon : string) (exts : list string) : string :=
  "{ name: " +:+ quoted icon +:+ ", fileExtensions: [" +:+
  formatList exts +:+ "] }".

(** The records, each followed by a comma. *)
Definition formatRecords (records : list (string * list string)) : string :=
  foldr (λ r rest, formatRecord r.1 r.2 +:+ ", " +:+ rest) "" records.

Lemma allChars_impl (p q : ascii → bool) s :
  (∀ c, p c = true → q c = true) → allChars p s = true → allChars q s = true.
Proof.
  intros Hpq. induction s as [|c s IH]; [done|]. simpl.
  intros [Hc Hs]%andb_prop. by rewrite (Hpq c Hc), IH.
Qed.

Lemma isPlain_isName name : isPlain name → isName name.
Proof.
  intros [Hne Hp]. split; [done|]. revert Hp. apply allChars_impl.
  intros c. unfold isPlainChar. by intros [[[[[? _]%andb_prop _]%andb_prop
    _]%andb_prop _]%andb_prop _]%andb_prop.
Qed.

(** A class that holds the quote, the comma and the blank holds every
    character of a list of names it holds. *)
Lemma allChars_formatList (p : ascii → bool) names :
  p "'"%char = true → p ","%char = true → p " "%char = true →
  Forall (λ name, allChars p name = true) names →
  allChars p (formatList names) = true.
Proof.
  intros Hq Hc Hb Hnames. unfold formatList.
  assert (∀ name, allChars p name = true → allChars p (quoted name) = true)
    as Hquoted.
  { intros name Hn. rewrite <-(append_empty_r (quoted name)), quoted_append.
    simpl. rewrite Hq, allChars_append, Hn. simpl. by rewrite Hq. }
  induction Hnames as [|name names Hname Hnames IH]; [done|].
  destruct names as [|name' names].
  - simpl. by apply Hquoted.
  - change (join ", " (quoted <$> name :: name' :: names))
      with (quoted name +:+ ", " +:+ join ", " (quoted <$> name' :: names)).
    rewrite !allChars_append, Hquoted, IH by done. simpl. by rewrite Hc, Hb.
Qed.

Lemma formatList_plain (p : ascii → bool) names :
  (∀ c, isPlainChar c = true → p c = true) →
  p "'"%char = true → p ","%char = true → p " "%char = true →
  Forall isPlain names → allChars p (formatList names) = true.
Proof.
  intros Hp Hq Hc Hb Hnames. apply allChars_formatList; [done..|].
  eapply Forall_impl; [done|]. intros name [_ Hn]. simpl.
  by eapply allChars_impl.
Qed.

Lemma formatList_nonempty names : names ≠ [] → formatList names ≠ "".
Proof.
  destruct names as [|name names]; [done|]. intros _. unfold formatList.
  destruct names as [|name' names].
  - simpl. unfold quoted. by rewrite append_cons.
  - change (join ", " (quoted <$> name :: name' :: names))
      with (quoted name +:+ ", " +:+ join ", " (quoted <$> name' :: names)).
    unfold quoted. by rewrite append_assoc, append_cons.
Qed.

Lemma allChars_quoted (p : ascii → bool) name :
  p "'"%char = true → allChars p name = true →
  allChars p (quoted name) = true.
Proof.
  intros Hq Hn. rewrite <-(append_empty_r (quoted name)), quoted_append.
  simpl. rewrite Hq, allChars_append, Hn. simpl. by rewrite Hq.
Qed.

Section Record.

Variable icon : string.
Variable exts : list string.
Hypothesis icon_plain : isPlain icon.
Hypothesis exts_plain : Forall isPlain exts.
Hypothesis exts_nonempty : exts ≠ [].

(** The record around its two colons. *)
Definition beforeName : string := "{ name".
Definition betweenColons : string := " " +:+ quoted icon +:+ ", fileExtensions".
Definition afterKey : string := " [" +:+ formatList exts +:+ "] }".

Lemma formatRecord_colons :
  formatRecord icon exts =
  beforeName +:+ String ":" (betweenColons +:+ String ":" afterKey).
Proof.
  unfold formatRecord, beforeName, betweenColons, afterKey.
  rewrite !quoted_append. by string_norm.
Qed.

Lemma icon_class (p : ascii → bool) :
  (∀ c, isPlainChar c = true → p c = true) → allChars p icon = true.
Proof. intros Hp. destruct icon_plain as [_ H]. by eapply allChars_impl. Qed.

Lemma plain_notColon c : isPlainChar c = true → notColon c = true.
Proof.
  unfold isPlainChar. by intros [[[[[_ ?]%andb_prop _]%andb_prop
    _]%andb_prop _]%andb_prop _]%andb_prop.
Qed.

Lemma betweenColons_notColon : allChars notColon betweenColons = true.
Proof.
  unfold betweenColons. rewrite !allChars_append.
  rewrite allChars_quoted; [done|done|]. apply icon_class, plain_notColon.
Qed.

Lemma afterKey_notColon : allChars notColon afterKey = true.
Proof.
  unfold afterKey. rewrite !allChars_append.
  rewrite (formatList_plain notColon); [done|apply plain_notColon|done..].
Qed.

(** A key followed by a colon stands in the record only where the record
    has it: [name] before the first colon, [fileExtensions] before the
    second. *)
Lemma key_occurrence a u t :
  formatRecord icon exts = a +:+ u +:+ String ":" t →
  a +:+ u = beforeName ∨ a +:+ u = beforeName +:+ String ":" betweenColons.
Proof.
  rewrite formatRecord_colons. apply colon_occurrence; [done|..].
  - apply betweenColons_notColon.
  - apply afterKey_notColon.
Qed.

(** The record before its key [fileExtensions]. *)
Definition beforeKey : string := "{ name: " +:+ quoted icon +:+ ", ".

Lemma between_key :
  beforeName +:+ String ":" betweenColons = beforeKey +:+ "fileExtensions".
Proof.
  unfold beforeName, betweenColons, beforeKey. rewrite !quoted_append.
  by string_norm.
Qed.

Lemma formatRecord_key :
  formatRecord icon exts =
  beforeKey +:+ "fileExtensions:" +:+ " [" +:+ formatList exts +:+ "] }".
Proof.
  unfold formatRecord, beforeKey. rewrite !quoted_append. by string_norm.
Qed.

(** No key but [fileExtensions] ends where [fileExtensions] ends. *)
Lemma key_mismatch a u pre suffix :
  a +:+ u = beforeName +:+ String ":" betweenColons →
  "fileExtensions" = pre +:+ suffix →
  String.length u = String.length suffix →
  u = suffix.
Proof.
  intros H Hsplit Hlen. rewrite between_key, Hsplit, <-append_assoc in H.
  by apply append_inj_suffix in H as [_ ?].
Qed.

Lemma length_mismatch (a u v : string) :
  a +:+ u = v → String.length v < String.length u → False.
Proof.
  intros H%(f_equal String.length). rewrite length_append in H. lia.
Qed.

Lemma key_colon (key t : string) :
  (key +:+ ":") +:+ t = key +:+ String ":" t.
Proof. by rewrite append_assoc. Qed.

Lemma lit_append a b : lit (a +:+ b) = lit a ++ lit b.
Proof.
  induction a as [|c a IH]; [by rewrite append_nil|].
  rewrite append_cons. cbn [lit app]. by rewrite IH.
Qed.

Lemma listPattern_unfold key :
  listPattern key =
  lit (key +:+ ":") ++
  [Rep isSpace 0 true; Chr "["; Open; Rep notCloseBracket 1 true; Close;
   Chr "]"].
Proof.
  unfold listPattern.
  by rewrite (app_assoc (lit key) (lit ":")), lit_append.
Qed.

(** The record lists no file names. *)
Lemma search_fileNames i :
  search (listPattern "fileNames") (formatRecord icon exts) i = None.
Proof.
  apply search_None. intros a b Hab.
  destruct (matchHere _ b [] []) as [found|] eqn:E; [exfalso|done].
  rewrite listPattern_unfold in E.
  apply matchHere_lit_inv in E as (t & ->).
  rewrite key_colon in Hab.
  destruct (key_occurrence _ _ _ Hab) as [H|H].
  - by apply length_mismatch in H; [|simpl; lia].
  - by apply (key_mismatch _ _ "fileE" "xtensions") in H.
Qed.

(** The record has no patterns. *)
Lemma search_patterns i :
  search patternsPattern (formatRecord icon exts) i = None.
Proof.
  apply search_None. intros a b Hab.
  destruct (matchHere _ b [] []) as [found|] eqn:E; [exfalso|done].
  change patternsPattern
    with (lit "patterns:" ++
          [Rep isSpace 0 true; Chr "{"; Open; Rep anyChar 0 false; Close;
           Chr "}"]) in E.
  apply matchHere_lit_inv in E as (t & ->).
  change "patterns:" with ("patterns" +:+ ":") in Hab.
  rewrite key_colon in Hab.
  destruct (key_occurrence _ _ _ Hab) as [H|H].
  - by apply length_mismatch in H; [|simpl; lia].
  - by apply (key_mismatch _ _ "fileEx" "tensions") in H.
Qed.

Lemma plain_notCloseBracket c :
  isPlainChar c = true → notCloseBracket c = true.
Proof.
  unfold isPlainChar, notCloseBracket.
  by intros [_ ?]%andb_prop.
Qed.

Lemma plain_notCloseBrace c : isPlainChar c = true → notCloseBrace c = true.
Proof.
  unfold isPlainChar, notCloseBrace.
  by intros [[[_ ?]%andb_prop _]%andb_prop _]%andb_prop.
Qed.

(** The extensions of the record are read back. *)
Lemma listedNames_fileExtensions :
  listedNames "fileExtensions" (formatRecord icon exts) = exts.
Proof.
  unfold listedNames.
  assert (search (listPattern "fileExtensions") (formatRecord icon exts) 0 =
          Some (Result (0 + String.length beforeKey)
                  ("fileExtensions: [" +:+ formatList exts +:+ "]")
                  [formatList exts])) as ->.
  { rewrite formatRecord_key. rewrite search_skip.
    - set (L := formatList exts).
      assert (allChars notCloseBracket L = true) as HL.
      { apply formatList_plain; [apply plain_notCloseBracket|done..]. }
      assert (1 ≤ String.length L) as HLlen.
      { apply length_nonempty. by apply formatList_nonempty. }
      assert (matchHere (listPattern "fileExtensions")
                ("fileExtensions:" +:+ " [" +:+ L +:+ "] }") [] [] =
              Some (" }", [L])) as Hm.
      { rewrite listPattern_unfold, matchHere_lit.
        change (" [" +:+ L +:+ "] }")
          with (" " +:+ String "[" (L +:+ String "]" " }")).
        apply matchHere_greedy_run; [done|done|simpl; lia|].
        rewrite matchHere_Chr, matchHere_Open.
        apply matchHere_greedy_run; [done|done|done|].
        rewrite matchHere_Close, matchHere_Chr. cbn [matchHere app].
        by rewrite capture_taken. }
      destruct ("fileExtensions:" +:+ " [" +:+ L +:+ "] }") as [|c rest] eqn:E.
      { discriminate E. }
      cbn [search]. rewrite Hm. unfold resultAt. cbn [fst snd].
      do 2 f_equal. rewrite <-E.
      replace ("fileExtensions:" +:+ " [" +:+ L +:+ "] }")
        with (("fileExtensions: [" +:+ L +:+ "]") +:+ " }") by by string_norm.
      rewrite length_append.
      replace (_ + _ - _) with (String.length ("fileExtensions: [" +:+ L +:+ "]"))
        by (simpl; lia).
      apply takeString_append.
    - intros a b Hab Hb.
      destruct (matchHere _ (b +:+ _) [] []) as [found|] eqn:E; [exfalso|done].
      rewrite listPattern_unfold in E.
      apply matchHere_lit_inv in E as (t & E).
      rewrite key_colon in E.
      assert (formatRecord icon exts =
                a +:+ "fileExtensions" +:+ String ":" t) as Hrec.
      { by rewrite formatRecord_key, Hab, append_assoc, E. }
      destruct (key_occurrence _ _ _ Hrec) as [H|H].
      + by apply length_mismatch in H; [|simpl; lia].
      + rewrite between_key in H.
        apply append_inj_suffix in H as [-> _]; [|done].
        apply (f_equal String.length) in Hab.
        rewrite length_append in Hab.
        apply length_nonempty in Hb. lia. }
  cbn [groups]. apply quotedNames_formatList.
  eapply Forall_impl; [done|]. apply isPlain_isName.
Qed.

(** The inside of the record's braces. *)
Definition inside : string :=
  " name: " +:+ quoted icon +:+ ", fileExtensions: [" +:+
  formatList exts +:+ "] ".

Lemma formatRecord_inside :
  formatRecord icon exts = String "{" (inside +:+ "}").
Proof.
  unfold formatRecord, inside. rewrite !quoted_append. by string_norm.
Qed.

Lemma inside_class (p : ascii → bool) :
  (∀ c, isPlainChar c = true → p c = true) →
  p "'"%char = true → p ","%char = true → p " "%char = true →
  p ":"%char = true → p "["%char = true → p "]"%char = true →
  allChars p " name" = true → allChars p "fileExtensions" = true →
  allChars p inside = true.
Proof.
  intros Hp Hq Hc Hb Hcolon Ho Hcl Hname Hkey. unfold inside.
  rewrite !allChars_append.
  rewrite allChars_quoted by (done || by apply icon_class).
  rewrite (formatList_plain p) by done.
  change " name: " with (" name" +:+ ": ").
  change ", fileExtensions: [" with (", " +:+ "fileExtensions" +:+ ": [").
  rewrite !allChars_append, Hname, Hkey. simpl.
  by rewrite ?Hq, ?Hc, ?Hb, ?Hcolon, ?Ho, ?Hcl.
Qed.

Lemma inside_notCloseBrace : allChars notCloseBrace inside = true.
Proof. apply inside_class; try done. apply plain_notCloseBrace. Qed.

(** A word without a closing brace that stands before the closing brace
    stands inside the braces. *)
Lemma before_brace Z tail w t :
  allChars notCloseBrace w = true →
  Z +:+ String "}" tail = w +:+ t → ∃ Z', Z = w +:+ Z'.
Proof.
  revert Z. induction w as [|c w IH]; intros Z Hw H; [by exists Z|].
  simpl in Hw. apply andb_prop in Hw as [Hc Hw].
  destruct Z as [|c' Z].
  - rewrite append_nil, append_cons in H. injection H as <- _. done.
  - rewrite !append_cons in H. injection H as -> H.
    destruct (IH Z Hw H) as (Z' & ->). exists Z'. by rewrite append_cons.
Qed.

Lemma dropString_inside j (s rest : string) :
  j ≤ String.length s →
  dropString j (s +:+ rest) = dropString j s +:+ rest.
Proof.
  revert s. induction j as [|j IH]; intros s Hj; [done|].
  destruct s as [|c s]; simpl in Hj; [lia|].
  rewrite append_cons. simpl. apply IH. lia.
Qed.

(** The record expression matches at the record: it takes the record up to
    its icon name. *)
Lemma matchHere_iconPattern tail :
  matchHere iconPattern (formatRecord icon exts +:+ tail) [] [] =
    Some (", fileExtensions: [" +:+ formatList exts +:+ "] }" +:+ tail,
          [icon]).
Proof.
  rewrite formatRecord_inside, append_cons, append_assoc.
  change ("}" +:+ tail) with (String "}" tail).
  unfold iconPattern. cbn [app]. rewrite matchHere_Chr.
  pose proof inside_notCloseBrace as Hin.
  assert (run notCloseBrace (inside +:+ String "}" tail) =
            String.length inside) as Hrun by by apply run_stop.
  assert (1 ≤ String.length inside) as Hlen.
  { unfold inside. rewrite length_append. simpl. lia. }
  apply (matchHere_greedy _ _ _ _ _ _ 1).
  - rewrite Hrun. lia.
  - unfold inside. rewrite !quoted_append. string_norm.
    cbn [dropString].
    change (String "n" (String "a" (String "m" (String "e" (String ":" ?s)))))
      with ("name:" +:+ s).
    rewrite matchHere_lit.
    apply (matchHere_greedy _ _ _ _ _ _ 1).
    + simpl. lia.
    + cbn [dropString].
      pose proof (matchHere_quotedPattern icon
                    (", fileExtensions: [" +:+ formatList exts +:+ "] }" +:+
                     tail) (isPlain_isName _ icon_plain)) as Hq.
      rewrite quoted_append in Hq. string_norm_in Hq. exact Hq.
    + simpl. intros j Hj. lia.
  - rewrite Hrun. intros j Hj.
    destruct (matchHere _ (dropString j _) [] []) as [found|] eqn:E;
      [exfalso|done].
    apply matchHere_lit_inv in E as (t & E).
    rewrite dropString_inside in E by lia.
    destruct (before_brace _ _ "name:" _ eq_refl E) as (Z' & HZ).
    assert (formatRecord icon exts =
              String "{" (takeString j inside) +:+ "name" +:+
              String ":" (Z' +:+ "}")) as Hrec.
    { rewrite formatRecord_inside, <-(take_drop j inside) at 1.
      rewrite HZ. by string_norm. }
    destruct (key_occurrence _ _ _ Hrec) as [H|H].
    + change beforeName with ("{ " +:+ "name") in H.
      apply append_inj_suffix in H as [H _]; [|done].
      apply (f_equal String.length) in H. simpl in H.
      rewrite length_takeString in H by lia. lia.
    + by apply (key_mismatch _ _ "fileExtens" "ions") in H.
Qed.

Definition notOpenBrace (c : ascii) : bool := negb (bool_decide (c = "{"%char)).

Lemma plain_notOpenBrace c : isPlainChar c = true → notOpenBrace c = true.
Proof.
  unfold isPlainChar, notOpenBrace.
  by intros [[[[_ ?]%andb_prop _]%andb_prop _]%andb_prop _]%andb_prop.
Qed.

Lemma inside_notOpenBrace : allChars notOpenBrace inside = true.
Proof. apply inside_class; try done. apply plain_notOpenBrace. Qed.

End Record.

Lemma balanced_plain w :
  allChars notOpenBrace w = true → allChars notCloseBrace w = true →
  balanced w.
Proof.
  induction w as [|c w IH]; [constructor|]. simpl.
  intros [Ho Hw]%andb_prop [Hc Hw']%andb_prop.
  apply balanced_char; [| |by apply IH].
  - unfold notOpenBrace in Ho. apply negb_true_iff in Ho.
    by apply bool_decide_eq_false_1 in Ho.
  - unfold notCloseBrace in Hc. apply negb_true_iff in Hc.
    by apply bool_decide_eq_false_1 in Hc.
Qed.

(** The brace count finds the whole record. *)
Lemma fileIconBlock_record icon exts pre tail :
  isPlain icon → Forall isPlain exts →
  fileIconBlock (pre +:+ formatRecord icon exts +:+ tail) (String.length pre) =
    Some (formatRecord icon exts).
Proof.
  intros Hicon Hexts.
  pose proof (fileIconBlock_matching pre (inside icon exts) tail
                (balanced_plain _ (inside_notOpenBrace icon exts Hicon Hexts)
                   (inside_notCloseBrace icon exts Hicon Hexts))) as H.
  rewrite formatRecord_inside.
  replace (pre +:+ String "{" (inside icon exts +:+ "}") +:+ tail)
    with (pre +:+ "{" +:+ inside icon exts +:+ "}" +:+ tail)
    by by string_norm.
  rewrite H. f_equal.
Qed.

(** *** All records of a file *)

Lemma matchAllFrom_found r m rest caps i :
  m ≠ "" → matchHere r (m +:+ rest) [] [] = Some (rest, caps) →
  matchAllFrom r (m +:+ rest) i 0 =
    Result i m caps :: matchAllFrom r rest (i + String.length m) 0.
Proof.
  intros Hm H. pose proof (capture_taken m rest) as Htake.
  destruct m as [|c m]; [done|]. rewrite append_cons in H, Htake |- *.
  cbn [matchAllFrom]. rewrite H. unfold resultAt. cbn [fst snd matched].
  rewrite Htake. f_equal. simpl String.length.
  replace (S (String.length m) - 1) with (String.length m) by lia.
  rewrite matchAllFrom_skip. f_equal. lia.
Qed.

Lemma matchAllFrom_iconPattern_gap gap rest i :
  allChars notOpenBrace gap = true →
  matchAllFrom iconPattern (gap +:+ rest) i 0 =
  matchAllFrom iconPattern rest (i + String.length gap) 0.
Proof.
  revert i. induction gap as [|c gap IH]; intros i Hgap.
  - rewrite append_nil. simpl. by rewrite Nat.add_0_r.
  - rewrite append_cons. simpl in Hgap.
    apply andb_prop in Hgap as [Hc Hgap].
    cbn [matchAllFrom]. unfold iconPattern at 1. cbn [app].
    rewrite matchHere_Chr_ne.
    2:{ unfold notOpenBrace in Hc. apply negb_true_iff in Hc.
        by apply bool_decide_eq_false_1 in Hc. }
    rewrite IH by done. simpl. f_equal. lia.
Qed.

(** A record as the theorems below take it: an icon name and a list of
    extensions, not empty, all of them plain names. *)
Definition canonical (r : string * list string) : Prop :=
  isPlain r.1 ∧ Forall isPlain r.2 ∧ r.2 ≠ [].

(** The matches of the record expression in a file of records that follows
    [pre]. *)
Fixpoint recordMatches (pre : string) (records : list (string * list string))
  : list result :=
  match records with
  | [] => []
  | r :: records' =>
      Result (String.length pre) ("{ name: " +:+ quoted r.1) [r.1] ::
      recordMatches (pre +:+ formatRecord r.1 r.2 +:+ ", ") records'
  end.

Lemma matchAll_records pre records :
  Forall canonical records →
  matchAllFrom iconPattern (formatRecords records) (String.length pre) 0 =
    recordMatches pre records.
Proof.
  intros H. revert pre.
  induction H as [|[icon exts] records (Hicon & Hexts & Hne) _ IH];
    intros pre; [done|].
  cbn [formatRecords foldr recordMatches fst snd] in *.
  fold (formatRecords records).
  set (tail := ", " +:+ formatRecords records).
  pose proof (matchHere_iconPattern icon exts Hicon Hexts tail) as Hm.
  assert (formatRecord icon exts +:+ tail =
            ("{ name: " +:+ quoted icon) +:+
            ", fileExtensions: [" +:+ formatList exts +:+ "] }" +:+ tail)
    as Hsplit.
  { unfold formatRecord. by string_norm. }
  rewrite Hsplit in Hm |- *.
  rewrite matchAllFrom_found with (caps := [icon]); [|done|exact Hm].
  f_equal. unfold tail.
  replace (", fileExtensions: [" +:+ formatList exts +:+ "] }" +:+ ", " +:+
           formatRecords records)
    with ((", fileExtensions: [" +:+ formatList exts +:+ "] }, ") +:+
          formatRecords records) by by string_norm.
  rewrite matchAllFrom_iconPattern_gap.
  2:{ rewrite !allChars_append.
      rewrite (formatList_plain notOpenBrace); [done| |done..].
      apply plain_notOpenBrace. }
  rewrite <-IH. f_equal.
  rewrite !length_append. unfold formatRecord. rewrite !length_append.
  simpl. lia.
Qed.

(** What the records put into the extension table: each record assigns its
    icon to its extensions, in the order of the file. *)
Definition recordTable (fileExtensions : gmap string string)
    (records : list (string * list string)) : gmap string string :=
  foldl (λ table r, assignAll table r.2 r.1) fileExtensions records.

Lemma parseFileIcon_record content pre icon exts tail tables m :
  canonical (icon, exts) →
  content = pre +:+ formatRecord icon exts +:+ tail →
  parseFileIcon content tables (Result (String.length pre) m [icon]) =
    Some (assignAll tables.1 exts icon, tables.2).
Proof.
  intros (Hicon & Hexts & Hne) ->. simpl in Hicon, Hexts, Hne.
  unfold parseFileIcon. cbn [groups index].
  rewrite fileIconBlock_record by done.
  rewrite listedNames_fileExtensions by done.
  unfold listedNames, patternNames.
  rewrite search_fileNames, search_patterns by done.
  by destruct tables.
Qed.

Lemma foldl_parseFileIcon content pre records tables :
  Forall canonical records →
  content = pre +:+ formatRecords records →
  foldl (λ fileIcons m, fileIcons ← fileIcons;
                        parseFileIcon content fileIcons m)
        (Some tables) (recordMatches pre records) =
    Some (recordTable tables.1 records, tables.2).
Proof.
  intros H. revert pre tables.
  induction H as [|[icon exts] records Hr _ IH]; intros pre tables Hc.
  - by destruct tables.
  - cbn [recordMatches foldl fst snd].
    cbn [formatRecords foldr fst snd] in Hc. fold (formatRecords records) in Hc.
    cbn [mbind option_bind].
    rewrite (parseFileIcon_record content pre icon exts
               (", " +:+ formatRecords records)) by done.
    rewrite (IH (pre +:+ formatRecord icon exts +:+ ", ")).
    + done.
    + rewrite Hc. by string_norm.
Qed.

Lemma parseFileIcons_records records :
  records ≠ [] → Forall canonical records →
  parseFileIcons (formatRecords records) = Some (recordTable ∅ records, ∅).
Proof.
  intros Hne Hrecords. unfold parseFileIcons, matchAll. cbv zeta.
  pose proof (matchAll_records "" records Hrecords) as Hm.
  change (String.length "") with 0 in Hm. rewrite Hm.
  rewrite bool_decide_eq_false_2.
  2:{ by destruct records. }
  by rewrite (foldl_parseFileIcon _ "" records (∅, ∅)).
Qed.

(** X21: a file of records as upstream writes them,
    [{ name: 'icon', fileExtensions: ['a', 'b'] }, ...], with plain names
    and no empty list, parses to the extension table in which each record
    has assigned its icon to its extensions, in the order of the file, and
    to an empty file-name table; no record is skipped and nothing is
    thrown. *)
Theorem parseFileIcons_formatRecords records :
  records ≠ [] → Forall canonical records →
  parseFileIcons (formatRecords records) = Some (recordTable ∅ records, ∅).
Proof. apply parseFileIcons_records. Qed.

(** The table lookups of [assignAll]. *)
Lemma get_assignAll table names icon k :
  get (assignAll table names icon) k =
    if bool_decide (k ∈ names ∧ k ≠ "__proto__") then Str icon
    else get table k.
Proof.
  unfold assignAll. revert table.
  induction names as [|name names IH]; intros table; cbn [foldl].
  - rewrite bool_decide_eq_false_2; [done|]. by intros [?%elem_of_nil _].
  - rewrite IH, BuildFacts.get_assignProperty.
    destruct (decide (k ∈ names ∧ k ≠ "__proto__")) as [Hin|Hnin].
    + rewrite !bool_decide_eq_true_2; [done| |done].
      split; [right|]; apply Hin.
    + rewrite (bool_decide_eq_false_2 (k ∈ names ∧ _)) by done.
      destruct (decide (k = name ∧ name ≠ "__proto__")) as [[-> Hp]|Hne].
      * rewrite !bool_decide_eq_true_2; [done| |done].
        split; [by left|done].
      * rewrite !bool_decide_eq_false_2; [done| |done].
        rewrite elem_of_cons. intros [[->|?] ?]; tauto.
Qed.

(** X22: in such a file the last record that lists an extension decides
    its icon: records that follow and do not list the extension leave the
    entry as that record set it, whatever records came before. *)
Theorem parseFileIcons_last_record earlier icon exts later ext :
  Forall canonical (earlier ++ (icon, exts) :: later) →
  ext ∈ exts → ext ≠ "__proto__" →
  Forall (λ r, ext ∉ r.2) later →
  ∃ tables,
    parseFileIcons (formatRecords (earlier ++ (icon, exts) :: later)) =
      Some tables ∧
    get tables.1 ext = Str icon.
Proof.
  intros Hall Hin Hproto Hlater.
  eexists. split.
  { apply parseFileIcons_records; [|done]. by destruct earlier. }
  cbn [fst]. unfold recordTable. rewrite foldl_app. cbn [foldl].
  generalize (foldl (λ table r, assignAll table r.2 r.1) ∅ earlier).
  intros table. cbn [fst snd].
  assert (get (assignAll table exts icon) ext = Str icon) as Hset.
  { rewrite get_assignAll. by rewrite bool_decide_eq_true_2. }
  revert Hset. generalize (assignAll table exts icon). clear Hall.
  induction Hlater as [|r later Hr _ IH]; intros T HT; [done|].
  cbn [foldl]. apply IH. rewrite get_assignAll.
  rewrite bool_decide_eq_false_2; [done|]. tauto.
Qed.

(** X23: a file without an opening brace holds no record: the file-icon
    part throws (no file icon definitions found), the folder-icon part only
    warns and returns an empty table. *)
Theorem parse_no_record content :
  allChars notOpenBrace content = true →
  parseFileIcons content = None ∧ parseFolderIcons content = ∅.
Proof.
  intros H.
  assert (matchAll iconPattern content = []) as Hnone.
  { unfold matchAll. rewrite <-(append_empty_r content).
    by rewrite matchAllFrom_iconPattern_gap. }
  unfold parseFileIcons, parseFolderIcons. by rewrite Hnone.
Qed.

(** *** Names in the tables, whatever the file holds *)

Lemma matchHere_lit_rest w r t opened captures found :
  matchHere (lit w ++ r) t opened captures = Some found →
  ∃ t', t = w +:+ t' ∧ matchHere r t' opened captures = Some found.
Proof.
  revert t. induction w as [|c w IH]; intros t; [by exists t|].
  simpl. destruct t as [|c' t]; [done|]. case_bool_decide as Hc; [|done].
  intros (t' & -> & H)%IH. exists t'. by rewrite append_cons, Hc.
Qed.

(** Matching on keeps the captures it has. *)
Lemma matchHere_captures r s opened captures rest captures' :
  matchHere r s opened captures = Some (rest, captures') →
  ∃ more, captures' = captures ++ more.
Proof.
  revert s opened captures.
  induction r as [|a r IH]; intros s opened captures.
  - intros [= <- <-]. exists []. by rewrite app_nil_r.
  - destruct a as [c|p|p min greedy| |]; cbn [matchHere].
    + destruct s as [|c' s]; [done|]. destruct (bool_decide _); [|done].
      apply IH.
    + destruct s as [|c' s]; [done|]. destruct (p c'); [|done]. apply IH.
    + intros (k & _ & H)%firstSome_Some. by eapply IH.
    + apply IH.
    + destruct opened as [|start opened]; [done|].
      intros (more & ->)%IH. eexists. by rewrite <-app_assoc.
Qed.

(** A group of one or more characters of a class, once closed, is a
    non-empty text of the class. *)
Lemma matchHere_group p r s captures found :
  matchHere (Open :: Rep p 1 true :: Close :: r) s [] captures = Some found →
  ∃ body t, body ≠ "" ∧ allChars p body = true ∧
            matchHere r t [] (captures ++ [body]) = Some found.
Proof.
  rewrite matchHere_Open. cbn [matchHere].
  intros (k & Hk%elem_of_counts & H)%firstSome_Some.
  rewrite length_dropString in H.
  pose proof (run_length p s) as Hlen.
  replace (String.length s - (String.length s - k)) with k in H by lia.
  exists (takeString k s), (dropString k s). split; [|split; [|done]].
  - intros He. assert (String.length (takeString k s) = k) as Hl.
    { apply length_takeString. lia. }
    rewrite He in Hl. simpl in Hl. lia.
  - apply takeString_run. lia.
Qed.

Lemma matchHere_Cls_inv p r s opened captures found :
  matchHere (Cls p :: r) s opened captures = Some found →
  ∃ c s', s = String c s' ∧ p c = true ∧
          matchHere r s' opened captures = Some found.
Proof.
  cbn [matchHere]. destruct s as [|c s']; [done|].
  destruct (p c) eqn:Hc; [|done]. intros H. by exists c, s'.
Qed.

Lemma matchHere_iconPattern_name s rest caps :
  matchHere iconPattern s [] [] = Some (rest, caps) →
  ∃ icon, caps = [icon] ∧ isName icon.
Proof.
  unfold iconPattern. cbn [app matchHere].
  destruct s as [|c s]; [done|]. destruct (bool_decide _); [|done].
  intros (k & _ & H)%firstSome_Some.
  apply matchHere_lit_rest in H as (t & _ & H).
  cbn [matchHere] in H. apply firstSome_Some in H as (k' & _ & H).
  apply matchHere_quoted in H
    as (c1 & body & c2 & _ & _ & _ & Hne & Hplain & ->).
  by exists body.
Qed.

Lemma matchHere_patternEntry_name s rest caps :
  matchHere patternEntryPattern s [] [] = Some (rest, caps) →
  ∃ baseName more, caps = baseName :: more ∧ isName baseName.
Proof.
  unfold patternEntryPattern. cbn [app].
  intros (c & s' & -> & _ & H)%matchHere_Cls_inv.
  apply matchHere_group in H as (body & t & Hne & Hplain & H).
  apply matchHere_captures in H as (more & ->).
  by exists body, more.
Qed.

Lemma search_Some r s i m :
  search r s i = Some m →
  ∃ t j found, matchHere r t [] [] = Some found ∧ m = resultAt t j found.
Proof.
  revert i. induction s as [|c s IH]; intros i; cbn [search].
  - destruct (matchHere r "" [] []) as [found|] eqn:E; [|done].
    intros [= <-]. by exists "", i, found.
  - destruct (matchHere r (String c s) [] []) as [found|] eqn:E; [|apply IH].
    intros [= <-]. by exists (String c s), i, found.
Qed.

(** Every key and every value of the table is a name: not empty and
    without a quote. *)
Definition wellNamed (table : gmap string string) : Prop :=
  ∀ k v, table !! k = Some v → isName k ∧ isName v.

Lemma wellNamed_empty : wellNamed ∅.
Proof. intros k v H. by rewrite lookup_empty in H. Qed.

Lemma assignAll_wellNamed table names icon :
  wellNamed table → Forall isName names → isName icon →
  wellNamed (assignAll table names icon).
Proof.
  intros Htable Hnames Hicon. unfold assignAll. revert table Htable.
  induction Hnames as [|name names Hname _ IH]; intros table Htable; [done|].
  cbn [foldl]. apply IH. unfold assignProperty.
  case_bool_decide; [done|]. intros k v.
  destruct (decide (k = name)) as [->|Hne].
  - rewrite lookup_insert_eq. by intros [= <-].
  - rewrite lookup_insert_ne by done. apply Htable.
Qed.

Lemma listedNames_names key block : Forall isName (listedNames key block).
Proof.
  unfold listedNames.
  destruct (search (listPattern key) block 0) as [m|]; [|constructor].
  destruct (groups m) as [|listText more]; [constructor|].
  apply Forall_forall. intros name. apply quotedNames_elem.
Qed.

Lemma patternFileNames_names baseName patternName fullNames :
  isName baseName →
  patternFileNames baseName patternName = Some fullNames →
  Forall isName fullNames.
Proof.
  intros [Hne Hplain]. unfold patternFileNames. cbv zeta.
  destruct (readList FILE_NAME_PATTERNS _) as [extensions| |] eqn:E;
    [|by intros [= <-]|done].
  intros [= <-].
  assert (Forall (λ kv : string * list string,
                    Forall (λ ext, allChars notQuote ext = true) kv.2)
            FILE_NAME_PATTERNS) as Hall.
  { repeat constructor. }
  unfold readList in E.
  destruct (List.find _ FILE_NAME_PATTERNS) as [kv|] eqn:Ef.
  2:{ by destruct (bool_decide _). }
  injection E as <-. apply find_some in Ef as [Ef _].
  rewrite Forall_forall in Hall.
  specialize (Hall kv ltac:(by apply list_elem_of_In)).
  apply Forall_fmap. eapply Forall_impl; [exact Hall|].
  intros ext Hext. simpl. split.
  - destruct baseName; [done|]. by rewrite append_cons.
  - rewrite !allChars_append, Hplain, Hext. done.
Qed.

Lemma patternNames_names block fullNames :
  patternNames block = Some fullNames → Forall isName fullNames.
Proof.
  unfold patternNames.
  destruct (search patternsPattern block 0) as [m|];
    [|intros [= <-]; constructor].
  destruct (groups m) as [|patternsContent more];
    [intros [= <-]; constructor|].
  assert (Forall isName (@nil string)) as Hnil by constructor.
  revert Hnil. generalize (@nil string).
  induction (matchAll patternEntryPattern patternsContent)
    as [|entry entries IH]; intros names Hnames; cbn [foldl].
  { by intros [= <-]. }
  cbn [mbind option_bind].
  destruct (search patternEntryPattern (matched entry) 0)
    as [entryMatch|] eqn:Es; [|by apply IH].
  destruct (groups entryMatch) as [|baseName [|patternName rest]] eqn:Eg;
    [by apply IH..|].
  destruct (patternFileNames baseName patternName) as [fullNames'|] eqn:Ep.
  2:{ simpl. clear. induction entries as [|e es IHe]; [done|]. apply IHe. }
  simpl. apply IH. apply Forall_app. split; [done|].
  eapply patternFileNames_names; [|done].
  apply search_Some in Es as (t & j & [rest' caps] & Hm & ->).
  apply matchHere_patternEntry_name in Hm as (base & more' & -> & Hbase).
  unfold resultAt in Eg. simpl in Eg. by injection Eg as <- _.
Qed.

Lemma matchAll_iconPattern_names content m :
  m ∈ matchAll iconPattern content →
  ∃ icon, groups m = [icon] ∧ isName icon.
Proof.
  intros (t & j & [rest caps] & Hm & ->)%matchAllFrom_elem.
  by apply matchHere_iconPattern_name in Hm.
Qed.

Lemma parseFileIcon_wellNamed content tables m tables' :
  (∃ icon, groups m = [icon] ∧ isName icon) →
  wellNamed tables.1 → wellNamed tables.2 →
  parseFileIcon content tables m = Some tables' →
  wellNamed tables'.1 ∧ wellNamed tables'.2.
Proof.
  intros (icon & Hg & Hicon) H1 H2. unfold parseFileIcon. rewrite Hg.
  destruct (fileIconBlock content (index m)) as [block|];
    [|by intros [= <-]].
  cbv zeta. destruct (patternNames block) as [fullNames|] eqn:Ep; [|done].
  simpl. intros [= <-]. simpl. split.
  - apply assignAll_wellNamed; [done|apply listedNames_names|done].
  - apply assignAll_wellNamed; [|by eapply patternNames_names|done].
    apply assignAll_wellNamed; [done|apply listedNames_names|done].
Qed.

Lemma parseFileIcons_wellNamed content tables :
  parseFileIcons content = Some tables →
  wellNamed tables.1 ∧ wellNamed tables.2.
Proof.
  unfold parseFileIcons. cbv zeta. destruct (bool_decide _); [done|].
  pose proof (matchAll_iconPattern_names content) as Hall.
  assert (wellNamed (∅, ∅ : gmap string string).1 ∧
          wellNamed ((∅ : gmap string string), ∅).2) as Hstart.
  { split; apply wellNamed_empty. }
  revert Hstart. generalize ((∅, ∅) : fileTables).
  induction (matchAll iconPattern content) as [|m ms IH];
    intros start [H1 H2]; cbn [foldl].
  { by intros [= <-]. }
  cbn [mbind option_bind].
  destruct (parseFileIcon content start m) as [next|] eqn:E.
  - apply IH.
    + intros m' Hm'. apply Hall. by right.
    + eapply parseFileIcon_wellNamed; [|done..]. apply Hall. by left.
  - clear. induction ms as [|m' ms IHm]; [done|]. apply IHm.
Qed.

Lemma parseFolderIcons_wellNamed content :
  wellNamed (parseFolderIcons content).
Proof.
  unfold parseFolderIcons.
  pose proof (matchAll_iconPattern_names content) as Hall.
  pose proof wellNamed_empty as Hstart. revert Hstart.
  generalize (∅ : gmap string string).
  induction (matchAll iconPattern content) as [|m ms IH];
    intros start Hstart; cbn [foldl]; [done|].
  apply IH.
  - intros m' Hm'. apply Hall. by right.
  - unfold parseFolderIcon.
    destruct (Hall m ltac:(by left)) as (icon & -> & Hicon).
    destruct (folderIconBlock content (index m)) as [block|]; [|done].
    apply assignAll_wellNamed; [done|apply listedNames_names|done].
Qed.

(** X24: whatever the files hold, every key and every icon name of the
    tables read from them is a name: it is not empty and holds no quote.
    This holds for the extension and file-name tables when the file-icon
    part returns, and for the folder table always. *)
Theorem parsed_tables_wellNamed fileIconsContent folderIconsContent :
  (∀ tables, parseFileIcons fileIconsContent = Some tables →
             wellNamed tables.1 ∧ wellNamed tables.2) ∧
  wellNamed (parseFolderIcons folderIconsContent).
Proof.
  split.
  - intros tables. apply parseFileIcons_wellNamed.
  - apply parseFolderIcons_wellNamed.
Qed.

(** *** A file of two records *)

Definition twoRecords : list (string * list string) :=
  [("html", ["htm"; "xhtml"]); ("php", ["php"])].

Lemma isPlain_checked name :
  negb (bool_decide (name = "")) && allChars isPlainChar name = true →
  isPlain name.
Proof.
  intros [Hne Hp]%andb_prop. split; [|done].
  apply negb_true_iff in Hne. by apply bool_decide_eq_false_1 in Hne.
Qed.

Lemma twoRecords_canonical : Forall canonical twoRecords.
Proof.
  repeat constructor; try (apply isPlain_checked; reflexivity); done.
Qed.

Lemma quotedNames_plain_witness :
  "htm" ≠ "" ∧ allChars notQuote "htm" = true.
Proof.
  apply (quotedNames_plain "'htm', 'xhtml'" "htm").
  apply (bool_decide_unpack _). vm_compute. reflexivity.
Defined.

Lemma quotedNames_formatList_witness :
  quotedNames (formatList ["htm"; "xhtml"]) = ["htm"; "xhtml"].
Proof.
  apply (quotedNames_formatList ["htm"; "xhtml"]).
  repeat constructor; done.
Defined.

Lemma parseFileIcons_formatRecords_witness :
  parseFileIcons (formatRecords twoRecords) =
    Some (recordTable ∅ twoRecords, ∅).
Proof.
  apply (parseFileIcons_formatRecords twoRecords).
  - done.
  - apply twoRecords_canonical.
Defined.

Lemma parseFileIcons_last_record_witness :
  ∃ tables,
    parseFileIcons
      (formatRecords ([("html", ["htm"])] ++ ("django", ["htm"; "html"]) ::
                      [("php", ["php"])])) = Some tables ∧
    get tables.1 "htm" = Str "django".
Proof.
  apply (parseFileIcons_last_record [("html", ["htm"])] "django"
           ["htm"; "html"] [("php", ["php"])] "htm").
  - repeat constructor; try (apply isPlain_checked; reflexivity); done.
  - apply list_elem_of_here.
  - done.
  - repeat constructor. simpl. apply (bool_decide_unpack _). vm_compute.
    reflexivity.
Defined.

Lemma parse_no_record_witness :
  parseFileIcons "export const fileIcons = [];" = None ∧
  parseFolderIcons "export const fileIcons = [];" = ∅.
Proof.
  apply (parse_no_record "export const fileIcons = [];"). reflexivity.
Defined.

Lemma parsed_tables_wellNamed_witness :
  ∃ tables,
    parseFileIcons (formatRecords twoRecords) = Some tables ∧
    wellNamed tables.1 ∧ wellNamed tables.2.
Proof.
  eexists. split.
  - vm_compute. reflexivity.
  - apply (parsed_tables_wellNamed (formatRecords twoRecords) "").
    vm_compute. reflexivity.
Defined.

End ConfigsFacts.
